(** * advanced-vector: RawMemory<T> and Vector<T> (vector.h)

    A shallow embedding of the two class templates of [vector.h].

    - A block of raw memory obtained from [operator new] is a list of slots;
      a slot is [None] while no object lives in it and [Some x] while an
      object of value [x] does.  The null pointer is the empty block.
    - [size_t] is [N] with its arithmetic taken modulo [2^64].
    - Pointers into a block are offsets ([nat]) from its first slot.
    - An operation ends in one of three ways: it returns, it throws (the
      object it was called on is then in the state recorded with the
      exception), or it steps outside what C++ defines (a failed [assert],
      an access outside the block, a read of a slot without a live object).
    - The element type [T] is a parameter: its traits, which of its
      operations throw and on which values, and the state a moved-from
      object is left in.  A copy holds the value of its source, a move
      hands the value of the source over, an operation that throws leaves
      its operands as they were; destructors do not throw.
    - [operator new] is a parameter too: which requests it grants.  No
      operation of the classes allocates more than once, so a function of
      the request's size says all there is to say within one operation.
      A request is a number of bytes: [RawMemory::Allocate] asks for
      [n * sizeof(T)], a product in [size_t] that wraps without a check,
      and a granted request of [b] bytes is storage for [b / sizeof(T)]
      objects.  When the product wraps, the block is shorter than the
      capacity recorded with it, and a write beyond its last slot is outside
      what C++ defines.  No request above [PTRDIFF_MAX] bytes is granted.
      The empty block stands for the null pointer and for a block of no
      bytes alike: the classes never test a pointer for null. *)

From stdpp Require Import base list numbers.

Open Scope N_scope.

(** ** Outcomes *)

Inductive exn := bad_alloc | element_error.

Inductive outcome (A S : Type) : Type :=
| Normal (a : A)
| Throws (e : exn) (s : S)
| Undefined.

Arguments Normal {A S} a.
Arguments Throws {A S} e s.
Arguments Undefined {A S}.

(** ** size_t *)

(* 2^64 *)
Definition SIZE_MOD : N := 18446744073709551616.
(* 2^63 - 1 *)
Definition PTRDIFF_MAX : N := 9223372036854775807.

Definition size_t_add (a b : N) : N := (a + b) mod SIZE_MOD.
Definition size_t_sub (a b : N) : N := (a + SIZE_MOD - b mod SIZE_MOD) mod SIZE_MOD.
Definition size_t_mul (a b : N) : N := (a * b) mod SIZE_MOD.

(** ** The element type *)

Record Element (T : Type) : Type := {
  (* sizeof(T): at least one byte, and no object is larger than PTRDIFF_MAX *)
  sizeof : positive;
  sizeof_le : (N.pos sizeof <=? PTRDIFF_MAX) = true;
  (* std::is_nothrow_move_constructible_v<T> *)
  is_nothrow_move_constructible : bool;
  (* std::is_copy_constructible_v<T> *)
  is_copy_constructible : bool;
  (* T(): the value-initialised object, [None] when that constructor throws *)
  value_init : option T;
  (* T(const T&) throws on this source *)
  copy_throws : T -> bool;
  (* T(T&&) throws on this source (never consulted for a nothrow type) *)
  move_throws : T -> bool;
  (* [dst = src] throws; arguments are the target's value, then the source's *)
  copy_assign_throws : T -> T -> bool;
  (* [dst = std::move(src)] throws *)
  move_assign_throws : T -> T -> bool;
  (* what is left in an object after it has been moved from *)
  moved_from : T -> T
}.

Arguments sizeof {T}.
Arguments sizeof_le {T}.
Arguments is_nothrow_move_constructible {T}.
Arguments is_copy_constructible {T}.
Arguments value_init {T}.
Arguments copy_throws {T}.
Arguments move_throws {T}.
Arguments copy_assign_throws {T}.
Arguments move_assign_throws {T}.
Arguments moved_from {T}.

(** ** Element types used in examples *)

(* an element type like int: four bytes, nothing throws, a move leaves the
   value *)
Definition int_ops : Element N :=
  {| sizeof := 4;
     sizeof_le := eq_refl;
     is_nothrow_move_constructible := true;
     is_copy_constructible := true;
     value_init := Some 0;
     copy_throws := fun _ => false;
     move_throws := fun _ => false;
     copy_assign_throws := fun _ _ => false;
     move_assign_throws := fun _ _ => false;
     moved_from := fun x => x |}.

(* an element type whose copy operations throw on the value 7, whose move
   constructor is not noexcept, and whose moved-from state is 0 *)
Definition fragile_ops : Element N :=
  {| sizeof := 4;
     sizeof_le := eq_refl;
     is_nothrow_move_constructible := false;
     is_copy_constructible := true;
     value_init := Some 0;
     copy_throws := fun x => x =? 7;
     move_throws := fun _ => false;
     copy_assign_throws := fun _ x => x =? 7;
     move_assign_throws := fun _ _ => false;
     moved_from := fun _ => 0 |}.

(* a move-only element type whose move constructor throws on the value 7 and
   whose moved-from state is 0 *)
Definition move_only_ops : Element N :=
  {| sizeof := 4;
     sizeof_le := eq_refl;
     is_nothrow_move_constructible := false;
     is_copy_constructible := false;
     value_init := Some 0;
     copy_throws := fun _ => false;
     move_throws := fun x => x =? 7;
     copy_assign_throws := fun _ _ => false;
     move_assign_throws := fun _ x => x =? 7;
     moved_from := fun _ => 0 |}.

(* an element type without a usable default constructor: T() throws *)
Definition no_default_ops : Element N :=
  {| sizeof := 4;
     sizeof_le := eq_refl;
     is_nothrow_move_constructible := true;
     is_copy_constructible := true;
     value_init := None;
     copy_throws := fun _ => false;
     move_throws := fun _ => false;
     copy_assign_throws := fun _ _ => false;
     move_assign_throws := fun _ _ => false;
     moved_from := fun x => x |}.

(* a heap with room for every request *)
Definition roomy : N -> bool := fun _ => true.

(* a heap that is exhausted *)
Definition exhausted : N -> bool := fun _ => false.

(** ** Raw memory *)

Abbreviation slot T := (option T).
Abbreviation block T := (list (slot T)).

Section AdvancedVector.

Context {T : Type}.
Variable E : Element T.
(* whether [operator new] satisfies a request for this many bytes *)
Variable heap : N -> bool.

(* sizeof(T) as a size_t *)
Definition sizeof_T : N := N.pos (sizeof E).

(** ** Objects in raw memory *)

(* the object living at offset [i], if there is one *)
Definition live (b : block T) (i : nat) : option T :=
  match b !! i with
  | Some (Some x) => Some x
  | _ => None
  end.

(* new (b + i) T(...) once the constructor has produced [x] *)
Definition construct_at (b : block T) (i : nat) (x : T) : option (block T) :=
  if decide (i < length b)%nat then Some (<[i := Some x]> b) else None.

(* std::destroy_at(b + i) *)
Definition destroy_at (b : block T) (i : nat) : option (block T) :=
  match live b i with
  | Some _ => Some (<[i := None]> b)
  | None => None
  end.

(* T(std::move(x)) throws *)
Definition move_ctor_throws (x : T) : bool :=
  if is_nothrow_move_constructible E then false else move_throws E x.

(* the constexpr condition that selects relocation by move *)
Definition relocate_by_move : bool :=
  is_nothrow_move_constructible E || negb (is_copy_constructible E).

(** ** The standard algorithms the classes call *)

(* std::destroy_n(b + first, n) *)
Fixpoint destroy_n (b : block T) (first n : nat) : option (block T) :=
  match n with
  | O => Some b
  | S n' =>
      match destroy_at b first with
      | Some b' => destroy_n b' (S first) n'
      | None => None
      end
  end.

(* the construction loop of std::uninitialized_copy_n; an exception carries
   the destination and the position [cur] reached *)
Fixpoint copy_construct_loop (src : block T) (first n : nat) (dst : block T) (cur : nat)
  : outcome (block T) (block T * nat) :=
  match n with
  | O => Normal dst
  | S n' =>
      match live src first with
      | Some x =>
          if copy_throws E x then Throws element_error (dst, cur)
          else match construct_at dst cur x with
               | Some dst' => copy_construct_loop src (S first) n' dst' (S cur)
               | None => Undefined
               end
      | None => Undefined
      end
  end.

(* std::uninitialized_copy_n(src + first, n, dst + d_first): on an exception
   the objects already constructed are destroyed and the exception goes on *)
Definition uninitialized_copy_n (src : block T) (first n : nat) (dst : block T) (d_first : nat)
  : outcome (block T) (block T) :=
  match copy_construct_loop src first n dst d_first with
  | Normal dst' => Normal dst'
  | Throws e (dst', cur) =>
      match destroy_n dst' d_first (cur - d_first) with
      | Some dst'' => Throws e dst''
      | None => Undefined
      end
  | Undefined => Undefined
  end.

(* the construction loop of std::uninitialized_move_n: each source object is
   left moved-from *)
Fixpoint move_construct_loop (src : block T) (first n : nat) (dst : block T) (cur : nat)
  : outcome (block T * block T) (block T * block T * nat) :=
  match n with
  | O => Normal (src, dst)
  | S n' =>
      match live src first with
      | Some x =>
          if move_ctor_throws x then Throws element_error (src, dst, cur)
          else match construct_at dst cur x with
               | Some dst' =>
                   move_construct_loop (<[first := Some (moved_from E x)]> src)
                                       (S first) n' dst' (S cur)
               | None => Undefined
               end
      | None => Undefined
      end
  end.

(* std::uninitialized_move_n(src + first, n, dst + d_first); the result is
   the pair (source block, destination block) *)
Definition uninitialized_move_n (src : block T) (first n : nat) (dst : block T) (d_first : nat)
  : outcome (block T * block T) (block T * block T) :=
  match move_construct_loop src first n dst d_first with
  | Normal r => Normal r
  | Throws e (src', dst', cur) =>
      match destroy_n dst' d_first (cur - d_first) with
      | Some dst'' => Throws e (src', dst'')
      | None => Undefined
      end
  | Undefined => Undefined
  end.

(* the construction loop of std::uninitialized_value_construct_n *)
Fixpoint value_construct_loop (dst : block T) (cur n : nat) : outcome (block T) (block T * nat) :=
  match n with
  | O => Normal dst
  | S n' =>
      match value_init E with
      | Some x =>
          match construct_at dst cur x with
          | Some dst' => value_construct_loop dst' (S cur) n'
          | None => Undefined
          end
      | None => Throws element_error (dst, cur)
      end
  end.

(* std::uninitialized_value_construct_n(dst + first, n) *)
Definition uninitialized_value_construct_n (dst : block T) (first n : nat)
  : outcome (block T) (block T) :=
  match value_construct_loop dst first n with
  | Normal dst' => Normal dst'
  | Throws e (dst', cur) =>
      match destroy_n dst' first (cur - first) with
      | Some dst'' => Throws e dst''
      | None => Undefined
      end
  | Undefined => Undefined
  end.

(* the loop of std::copy: [n] copy assignments from [src] into [dst]; an
   exception leaves the assignments already made in place *)
Fixpoint copy_assign_loop (src : block T) (first n : nat) (dst : block T) (d_first : nat)
  : outcome (block T) (block T) :=
  match n with
  | O => Normal dst
  | S n' =>
      match live src first, live dst d_first with
      | Some x, Some y =>
          if copy_assign_throws E y x then Throws element_error dst
          else copy_assign_loop src (S first) n' (<[d_first := Some x]> dst) (S d_first)
      | _, _ => Undefined
      end
  end.

(* std::copy(src + first, src + last, dst + d_first) *)
Definition std_copy (src : block T) (first last : nat) (dst : block T) (d_first : nat)
  : outcome (block T) (block T) :=
  if decide (first <= last)%nat then copy_assign_loop src first (last - first) dst d_first
  else Undefined.

(* the loop of std::move inside one block: *d_first++ = std::move( *first++ ) *)
Fixpoint move_assign_loop (b : block T) (first n d_first : nat) : outcome (block T) (block T) :=
  match n with
  | O => Normal b
  | S n' =>
      match live b first, live b d_first with
      | Some x, Some y =>
          if move_assign_throws E y x then Throws element_error b
          else move_assign_loop
                 (<[first := Some (moved_from E x)]> (<[d_first := Some x]> b))
                 (S first) n' (S d_first)
      | _, _ => Undefined
      end
  end.

(* std::move(b + first, b + last, b + d_first) *)
Definition std_move (b : block T) (first last d_first : nat) : outcome (block T) (block T) :=
  if decide (first <= last)%nat then move_assign_loop b first (last - first) d_first
  else Undefined.

(* the loop of std::move_backward inside one block, [n] elements left to
   move: *--d_last = std::move( *--last ) with last = first + n *)
Fixpoint move_backward_loop (b : block T) (first n d_last : nat) : outcome (block T) (block T) :=
  match n with
  | O => Normal b
  | S n' =>
      match d_last with
      | O => Undefined
      | S d =>
          match live b (first + n')%nat, live b d with
          | Some x, Some y =>
              if move_assign_throws E y x then Throws element_error b
              else move_backward_loop
                     (<[(first + n')%nat := Some (moved_from E x)]> (<[d := Some x]> b))
                     first n' d
          | _, _ => Undefined
          end
      end
  end.

(* std::move_backward(b + first, b + last, b + d_last) *)
Definition std_move_backward (b : block T) (first last d_last : nat) : outcome (block T) (block T) :=
  if decide (first <= last)%nat then move_backward_loop b first (last - first) d_last
  else Undefined.

(** ** RawMemory<T> *)

Record RawMemory : Type := { buffer_ : block T; capacity_ : N }.

(* whether operator new(bytes) returns: nothing above PTRDIFF_MAX bytes is
   ever granted, below that the heap decides *)
Definition heap_grants (bytes : N) : bool := (bytes <=? PTRDIFF_MAX) && heap bytes.

(* operator new(bytes): storage for as many objects of T as the bytes hold *)
Definition operator_new (bytes : N) : outcome (block T) unit :=
  if heap_grants bytes then Normal (replicate (N.to_nat (bytes / sizeof_T)) None)
  else Throws bad_alloc tt.

(* RawMemory::Allocate(size_t n): n * sizeof(T) is a product in size_t; a
   number that is not a size_t cannot be passed, and the model leaves such a
   call undefined *)
Definition Allocate (n : N) : outcome (block T) unit :=
  if SIZE_MOD <=? n then Undefined
  else if negb (n =? 0) then operator_new (size_t_mul n sizeof_T) else Normal [].

(* operator new grants the request Allocate makes for [n] objects *)
Definition grants (n : N) : bool := heap_grants (size_t_mul n sizeof_T).

(* n * sizeof(T) does not fit into size_t *)
Definition overflows (n : N) : bool := SIZE_MOD <=? n * sizeof_T.

(* the largest number of objects whose bytes operator new can grant *)
Definition max_size : N := PTRDIFF_MAX / sizeof_T.

(* RawMemory() = default *)
Definition RawMemory_default : RawMemory := {| buffer_ := []; capacity_ := 0 |}.

(* explicit RawMemory(size_t capacity) *)
Definition RawMemory_new (capacity : N) : outcome RawMemory unit :=
  match Allocate capacity with
  | Normal b => Normal {| buffer_ := b; capacity_ := capacity |}
  | Throws e u => Throws e u
  | Undefined => Undefined
  end.

(* T* operator+(size_t offset): assert(offset <= capacity_) *)
Definition RawMemory_plus (m : RawMemory) (offset : N) : option nat :=
  if offset <=? capacity_ m then Some (N.to_nat offset) else None.

(* T& operator[](size_t index): assert(index < capacity_) *)
Definition RawMemory_index (m : RawMemory) (index : N) : option nat :=
  if index <? capacity_ m then Some (N.to_nat index) else None.

(* void RawMemory::Swap(RawMemory& other) *)
Definition RawMemory_Swap (m other : RawMemory) : RawMemory * RawMemory := (other, m).

(* a write through a pointer changes the block, not the fields *)
Definition with_buffer (m : RawMemory) (b : block T) : RawMemory :=
  {| buffer_ := b; capacity_ := capacity_ m |}.

(** ** Vector<T> *)

Record Vector : Type := { data_ : RawMemory; size_ : N }.

Definition with_block (v : Vector) (b : block T) : Vector :=
  {| data_ := with_buffer (data_ v) b; size_ := size_ v |}.

(* the arguments handed to a constructor of T by EmplaceBack and Emplace *)
Inductive ctor_args : Type :=
| Args (r : option T)        (* arguments that do not refer to the vector: the
                                value built, or [None] when T(args...) throws *)
| CopyOfElement (i : N).     (* a const T& that refers to ( *this)[i] *)

(* T(std::forward<Args>(args)...), evaluated while the vector's block is [b] *)
Definition construct (args : ctor_args) (b : block T) : outcome T unit :=
  match args with
  | Args (Some x) => Normal x
  | Args None => Throws element_error tt
  | CopyOfElement i =>
      match live b (N.to_nat i) with
      | Some x => if copy_throws E x then Throws element_error tt else Normal x
      | None => Undefined
      end
  end.

(* the if constexpr statement that moves or copies [n] objects from
   [src + first] to [dst + d_first]; the result is (source, destination) *)
Definition relocate (src : block T) (first n : nat) (dst : block T) (d_first : nat)
  : outcome (block T * block T) (block T * block T) :=
  if relocate_by_move then uninitialized_move_n src first n dst d_first
  else match uninitialized_copy_n src first n dst d_first with
       | Normal dst' => Normal (src, dst')
       | Throws e dst' => Throws e (src, dst')
       | Undefined => Undefined
       end.

(* Vector() = default *)
Definition Vector_default : Vector := {| data_ := RawMemory_default; size_ := 0 |}.

(* explicit Vector(size_t size) *)
Definition Vector_sized (size : N) : outcome Vector unit :=
  match RawMemory_new size with
  | Normal data =>
      match uninitialized_value_construct_n (buffer_ data) 0 (N.to_nat size) with
      | Normal b => Normal {| data_ := with_buffer data b; size_ := size |}
      | Throws e _ => Throws e tt
      | Undefined => Undefined
      end
  | Throws e u => Throws e u
  | Undefined => Undefined
  end.

(* Vector(const Vector& other) *)
Definition Vector_copy (other : Vector) : outcome Vector unit :=
  match RawMemory_new (size_ other) with
  | Normal data =>
      match uninitialized_copy_n (buffer_ (data_ other)) 0 (N.to_nat (size_ other))
                                 (buffer_ data) 0 with
      | Normal b => Normal {| data_ := with_buffer data b; size_ := size_ other |}
      | Throws e _ => Throws e tt
      | Undefined => Undefined
      end
  | Throws e u => Throws e u
  | Undefined => Undefined
  end.

(* ~Vector(): std::destroy_n(data_.GetAddress(), size_), then the block is
   released; [None] when the destruction is not defined *)
Definition Vector_destructor (v : Vector) : option unit :=
  match destroy_n (buffer_ (data_ v)) 0 (N.to_nat (size_ v)) with
  | Some _ => Some tt
  | None => None
  end.

(* size_t Size() const *)
Definition Size (v : Vector) : N := size_ v.

(* size_t Capacity() const *)
Definition Capacity (v : Vector) : N := capacity_ (data_ v).

(* T& operator[](size_t index): assert(index < size_) *)
Definition Vector_index (v : Vector) (index : N) : option T :=
  if index <? size_ v then
    match RawMemory_index (data_ v) index with
    | Some p => live (buffer_ (data_ v)) p
    | None => None
    end
  else None.

(* void Swap(Vector& other): the pair is ( *this, other) afterwards *)
Definition Swap (this other : Vector) : Vector * Vector :=
  let '(d, od) := RawMemory_Swap (data_ this) (data_ other) in
  ({| data_ := d; size_ := size_ other |}, {| data_ := od; size_ := size_ this |}).

(* Vector(Vector&& other): the pair is (new object, other) afterwards *)
Definition Vector_move (other : Vector) : Vector * Vector :=
  Swap Vector_default other.

(* the two operands of an assignment: one object named twice, or two objects *)
Inductive operands : Type :=
| Same (v : Vector)
| Distinct (this rhs : Vector).

(* Vector& operator=(Vector&& rhs) *)
Definition move_assign (o : operands) : operands :=
  match o with
  | Same v => Same v
  | Distinct this rhs => let '(this', rhs') := Swap this rhs in Distinct this' rhs'
  end.

(* void handleAssignment(const Vector& rhs) *)
Definition handleAssignment (this rhs : Vector) : outcome Vector Vector :=
  let min_size := N.min (size_ this) (size_ rhs) in
  match std_copy (buffer_ (data_ rhs)) 0 (0 + N.to_nat min_size)
                 (buffer_ (data_ this)) 0 with
  | Normal b =>
      if size_ rhs <? size_ this then
        match destroy_n b (N.to_nat (size_ rhs))
                        (N.to_nat (size_t_sub (size_ this) (size_ rhs))) with
        | Some b' => Normal (with_block this b')
        | None => Undefined
        end
      else
        match uninitialized_copy_n (buffer_ (data_ rhs)) (N.to_nat min_size)
                                   (N.to_nat (size_t_sub (size_ rhs) min_size))
                                   b (N.to_nat min_size) with
        | Normal b' => Normal (with_block this b')
        | Throws e b' => Throws e (with_block this b')
        | Undefined => Undefined
        end
  | Throws e b => Throws e (with_block this b)
  | Undefined => Undefined
  end.

(* Vector& operator=(const Vector& rhs), as the state of *this afterwards;
   rhs is const *)
Definition copy_assign (o : operands) : outcome Vector Vector :=
  match o with
  | Same v => Normal v
  | Distinct this rhs =>
      if Capacity this <? size_ rhs then
        match Vector_copy rhs with
        | Normal rhs_copy =>
            let '(this', rhs_copy') := Swap this rhs_copy in
            match Vector_destructor rhs_copy' with
            | Some _ => Normal {| data_ := data_ this'; size_ := size_ rhs |}
            | None => Undefined
            end
        | Throws e _ => Throws e this
        | Undefined => Undefined
        end
      else
        match handleAssignment this rhs with
        | Normal this' => Normal {| data_ := data_ this'; size_ := size_ rhs |}
        | Throws e this' => Throws e this'
        | Undefined => Undefined
        end
  end.

(* void Reserve(size_t new_capacity) *)
Definition Reserve (new_capacity : N) (v : Vector) : outcome Vector Vector :=
  if new_capacity <=? capacity_ (data_ v) then Normal v
  else
    match RawMemory_new new_capacity with
    | Normal new_data =>
        match relocate (buffer_ (data_ v)) 0 (N.to_nat (size_ v)) (buffer_ new_data) 0 with
        | Normal (old, new) =>
            match destroy_n old 0 (N.to_nat (size_ v)) with
            | Some old' =>
                let '(d, _) := RawMemory_Swap (with_buffer (data_ v) old')
                                              (with_buffer new_data new) in
                Normal {| data_ := d; size_ := size_ v |}
            | None => Undefined
            end
        | Throws e (old, _) => Throws e (with_block v old)
        | Undefined => Undefined
        end
    | Throws e _ => Throws e v
    | Undefined => Undefined
    end.

(* void Resize(size_t new_size) *)
Definition Resize (new_size : N) (v : Vector) : outcome Vector Vector :=
  if size_ v <? new_size then
    match Reserve new_size v with
    | Normal v1 =>
        match uninitialized_value_construct_n
                (buffer_ (data_ v1)) (N.to_nat (size_ v1))
                (N.to_nat (size_t_sub new_size (size_ v1))) with
        | Normal b => Normal {| data_ := with_buffer (data_ v1) b; size_ := new_size |}
        | Throws e b => Throws e (with_block v1 b)
        | Undefined => Undefined
        end
    | Throws e v1 => Throws e v1
    | Undefined => Undefined
    end
  else
    match destroy_n (buffer_ (data_ v)) (N.to_nat new_size)
                    (N.to_nat (size_t_sub (size_ v) new_size)) with
    | Some b => Normal {| data_ := with_buffer (data_ v) b; size_ := new_size |}
    | None => Undefined
    end.

(* void PopBack() *)
Definition PopBack (v : Vector) : outcome Vector Vector :=
  if 0 <? size_ v then
    match destroy_at (buffer_ (data_ v)) (N.to_nat (size_ v) - 1) with
    | Some b => Normal {| data_ := with_buffer (data_ v) b;
                          size_ := size_t_sub (size_ v) 1 |}
    | None => Undefined
    end
  else Normal v.

(* T& EmplaceBack(Args&&... args); the reference returned is given as the
   index of the new element *)
Definition EmplaceBack (args : ctor_args) (v : Vector) : outcome (Vector * N) Vector :=
  if size_ v =? Capacity v then
    match RawMemory_new (if size_ v =? 0 then 1 else size_t_mul (size_ v) 2) with
    | Normal new_data =>
        match RawMemory_plus new_data (size_ v) with
        | Some p =>
            match construct args (buffer_ (data_ v)) with
            | Normal x =>
                match construct_at (buffer_ new_data) p x with
                | Some nb =>
                    let finish (old new : block T) : outcome (Vector * N) Vector :=
                      match destroy_n old 0 (N.to_nat (size_ v)) with
                      | Some old' =>
                          let '(d, _) := RawMemory_Swap (with_buffer (data_ v) old')
                                                        (with_buffer new_data new) in
                          Normal ({| data_ := d; size_ := size_t_add (size_ v) 1 |}, size_ v)
                      | None => Undefined
                      end in
                    if relocate_by_move then
                      match uninitialized_move_n (buffer_ (data_ v)) 0 (N.to_nat (size_ v))
                                                 nb 0 with
                      | Normal (old, new) => finish old new
                      | Throws e (old, _) => Throws e (with_block v old)
                      | Undefined => Undefined
                      end
                    else
                      match uninitialized_copy_n (buffer_ (data_ v)) 0 (N.to_nat (size_ v))
                                                 nb 0 with
                      | Normal new => finish (buffer_ (data_ v)) new
                      | Throws e new =>
                          (* catch (...) *)
                          match destroy_n new (N.to_nat (size_ v)) 1 with
                          | Some _ => Throws e v
                          | None => Undefined
                          end
                      | Undefined => Undefined
                      end
                | None => Undefined
                end
            | Throws e _ => Throws e v
            | Undefined => Undefined
            end
        | None => Undefined
        end
    | Throws e _ => Throws e v
    | Undefined => Undefined
    end
  else
    match RawMemory_plus (data_ v) (size_ v) with
    | Some p =>
        match construct args (buffer_ (data_ v)) with
        | Normal x =>
            match construct_at (buffer_ (data_ v)) p x with
            | Some b => Normal ({| data_ := with_buffer (data_ v) b;
                                   size_ := size_t_add (size_ v) 1 |}, size_ v)
            | None => Undefined
            end
        | Throws e _ => Throws e v
        | Undefined => Undefined
        end
    | None => Undefined
    end.

(* void PushBack(Type&& value) *)
Definition PushBack (value : ctor_args) (v : Vector) : outcome Vector Vector :=
  match EmplaceBack value v with
  | Normal (v', _) => Normal v'
  | Throws e v' => Throws e v'
  | Undefined => Undefined
  end.

(* iterator Emplace(const_iterator pos, Args&&... args); a position is given
   as its distance from begin(), and so is the iterator returned *)
Definition Emplace (pos : N) (args : ctor_args) (v : Vector) : outcome (Vector * N) Vector :=
  if negb (pos <=? size_ v) then Undefined
  else
    let offset := pos in
    if size_ v =? Capacity v then
      match RawMemory_new (if size_ v =? 0 then 1 else size_t_mul (size_ v) 2) with
      | Normal new_data =>
          match RawMemory_plus new_data offset with
          | Some p =>
              match construct args (buffer_ (data_ v)) with
              | Normal x =>
                  match construct_at (buffer_ new_data) p x with
                  | Some nb =>
                      match relocate (buffer_ (data_ v)) 0 (N.to_nat offset) nb 0 with
                      | Normal (old1, nb1) =>
                          match relocate old1 (N.to_nat offset)
                                         (N.to_nat (size_t_sub (size_ v) offset))
                                         nb1 (N.to_nat (size_t_add offset 1)) with
                          | Normal (old2, nb2) =>
                              match destroy_n old2 0 (N.to_nat (size_ v)) with
                              | Some old3 =>
                                  let '(d, _) :=
                                    RawMemory_Swap (with_buffer (data_ v) old3)
                                                   (with_buffer new_data nb2) in
                                  Normal ({| data_ := d;
                                             size_ := size_t_add (size_ v) 1 |}, offset)
                              | None => Undefined
                              end
                          | Throws e (old2, nb2) =>
                              (* second catch (...) *)
                              match destroy_n nb2 0 (N.to_nat (size_t_add offset 1)) with
                              | Some _ => Throws e (with_block v old2)
                              | None => Undefined
                              end
                          | Undefined => Undefined
                          end
                      | Throws e (old1, nb1) =>
                          (* first catch (...) *)
                          match destroy_n nb1 (N.to_nat offset) 1 with
                          | Some _ => Throws e (with_block v old1)
                          | None => Undefined
                          end
                      | Undefined => Undefined
                      end
                  | None => Undefined
                  end
              | Throws e _ => Throws e v
              | Undefined => Undefined
              end
          | None => Undefined
          end
      | Throws e _ => Throws e v
      | Undefined => Undefined
      end
    else if pos =? size_ v then
      match RawMemory_plus (data_ v) offset with
      | Some p =>
          match construct args (buffer_ (data_ v)) with
          | Normal x =>
              match construct_at (buffer_ (data_ v)) p x with
              | Some b => Normal ({| data_ := with_buffer (data_ v) b;
                                     size_ := size_t_add (size_ v) 1 |}, offset)
              | None => Undefined
              end
          | Throws e _ => Throws e v
          | Undefined => Undefined
          end
      | None => Undefined
      end
    else
      (* T temp_val(std::forward<Args>(args)...) *)
      match construct args (buffer_ (data_ v)) with
      | Normal temp_val =>
          let e := N.to_nat (size_ v) in
          (* new (end()) T(std::move( *(end() - 1))) *)
          match live (buffer_ (data_ v)) (e - 1) with
          | Some last =>
              if move_ctor_throws last then Throws element_error v
              else
                match construct_at (<[(e - 1)%nat := Some (moved_from E last)]>
                                      (buffer_ (data_ v))) e last with
                | Some b1 =>
                    match std_move_backward b1 (N.to_nat offset) (e - 1) e with
                    | Normal b2 =>
                        (* data_[offset] = std::move(temp_val) *)
                        match RawMemory_index (data_ v) offset with
                        | Some p =>
                            match live b2 p with
                            | Some y =>
                                if move_assign_throws E y temp_val
                                then Throws element_error (with_block v b2)
                                else Normal ({| data_ := with_buffer (data_ v)
                                                           (<[p := Some temp_val]> b2);
                                                size_ := size_t_add (size_ v) 1 |}, offset)
                            | None => Undefined
                            end
                        | None => Undefined
                        end
                    | Throws ex b2 => Throws ex (with_block v b2)
                    | Undefined => Undefined
                    end
                | None => Undefined
                end
          | None => Undefined
          end
      | Throws e _ => Throws e v
      | Undefined => Undefined
      end.

(* iterator Erase(const_iterator pos) *)
Definition Erase (pos : N) (v : Vector) : outcome (Vector * N) Vector :=
  if negb (pos <? size_ v) then Undefined
  else
    let shift := pos in
    match std_move (buffer_ (data_ v)) (N.to_nat shift + 1) (N.to_nat (size_ v))
                   (N.to_nat shift) with
    | Normal b =>
        match PopBack (with_block v b) with
        | Normal v' => Normal (v', shift)
        | Throws e v' => Throws e v'
        | Undefined => Undefined
        end
    | Throws e b => Throws e (with_block v b)
    | Undefined => Undefined
    end.

(* iterator Insert(const_iterator pos, const T& value), for a value outside
   the vector *)
Definition Insert (pos : N) (value : T) (v : Vector) : outcome (Vector * N) Vector :=
  Emplace pos (Args (if copy_throws E value then None else Some value)) v.

(* iterator Insert(const_iterator pos, const T& value), for value = ( *this)[i] *)
Definition Insert_element (pos : N) (i : N) (v : Vector) : outcome (Vector * N) Vector :=
  Emplace pos (CopyOfElement i) v.

(** ** What a vector shows *)

(* the slots [0, size) *)
Definition contents (v : Vector) : list (slot T) :=
  take (N.to_nat (size_ v)) (buffer_ (data_ v)).

(* the values of the live elements, in order *)
Definition elements (v : Vector) : list T := omap id (contents v).

Definition is_live (s : slot T) : bool :=
  match s with Some _ => true | None => false end.

(* the slots [size, capacity): the storage behind the elements *)
Definition spare (v : Vector) : block T :=
  drop (N.to_nat (size_ v)) (buffer_ (data_ v)).

(* the invariant of the data model *)
Definition size_le_capacity (v : Vector) : bool := size_ v <=? capacity_ (data_ v).

(* a vector as the class maintains it: the block has [capacity_] slots and
   was granted by operator new, [size_ <= capacity_], and the slots
   [0, size_) hold live objects *)
Definition well_formed (v : Vector) : bool :=
  (N.of_nat (length (buffer_ (data_ v))) =? capacity_ (data_ v))
  && (capacity_ (data_ v) <=? max_size)
  && size_le_capacity v
  && forallb is_live (contents v).

(** ** Closed forms: what the loops and the operations compute *)

(* the vector whose live elements are [xs], followed by the slots [rest] *)
Definition vector_of (xs : list T) (rest : block T) : Vector :=
  {| data_ := {| buffer_ := (Some <$> xs) ++ rest;
                 capacity_ := N.of_nat (length xs + length rest) |};
     size_ := N.of_nat (length xs) |}.

(* the same with a recorded capacity [c] that need not be the length of the
   block *)
Definition block_vector (xs : list T) (rest : block T) (c : N) : Vector :=
  {| data_ := {| buffer_ := (Some <$> xs) ++ rest; capacity_ := c |};
     size_ := N.of_nat (length xs) |}.

(* its block is one that operator new can have granted *)
Definition fits (xs : list T) (rest : block T) : Prop :=
  N.of_nat (length xs + length rest) <= max_size.

(* the number of slots in the block Allocate obtains for [n] objects *)
Definition slots (n : N) : nat := N.to_nat (size_t_mul n sizeof_T / sizeof_T).

(* the capacity asked for when a full vector of [size] elements grows:
   max(1, 2 * size) *)
Definition growth (size : N) : N := if size =? 0 then 1 else size * 2.

(* index of the first element on which [p] holds *)
Fixpoint first_throw (p : T -> bool) (xs : list T) : option nat :=
  match xs with
  | [] => None
  | x :: xs' => if p x then Some O else S <$> first_throw p xs'
  end.

(* index of the first pair (target, source) on which [p] holds *)
Fixpoint first_throw2 (p : T -> T -> bool) (ys xs : list T) : option nat :=
  match ys, xs with
  | y :: ys', x :: xs' => if p y x then Some O else S <$> first_throw2 p ys' xs'
  | _, _ => None
  end.

(* the constructor that relocation selects throws on [x] *)
Definition relocation_throws (x : T) : bool :=
  if relocate_by_move then move_ctor_throws x else copy_throws E x.

(* index of the first element whose relocation throws *)
Definition relocation_failure (xs : list T) : option nat :=
  if relocate_by_move then first_throw move_ctor_throws xs
  else first_throw (copy_throws E) xs.

(* the source elements after relocation has handled the first [k] of them *)
Definition left_behind (k : nat) (xs : list T) : list T :=
  if relocate_by_move then (moved_from E <$> take k xs) ++ drop k xs else xs.

(* a run of move assignments next to a hole: [y] is the value in the slot
   written first, [xs] the values moved into it one after the other, nearest
   first; the result says whether an assignment threw and gives the values
   left in the slots, in the same order *)
Fixpoint shift (y : T) (xs : list T) : bool * list T :=
  match xs with
  | [] => (false, [y])
  | x :: xs' =>
      if move_assign_throws E y x then (true, y :: x :: xs')
      else let '(t, r) := shift (moved_from E x) xs' in (t, x :: r)
  end.

(* the value left in the slot vacated last when [shift y xs] completes *)
Fixpoint hole (y : T) (xs : list T) : T :=
  match xs with
  | [] => y
  | x :: xs' => hole (moved_from E x) xs'
  end.

(* a reference handed to a constructor points at a live element *)
Definition refers_inside (args : ctor_args) (v : Vector) : bool :=
  match args with
  | Args _ => true
  | CopyOfElement i => i <? size_ v
  end.

(* PushBack called once for each value of [xs], in order *)
Fixpoint push_all (xs : list T) (v : Vector) : outcome Vector Vector :=
  match xs with
  | [] => Normal v
  | x :: xs' =>
      match PushBack (Args (Some x)) v with
      | Normal v' => push_all xs' v'
      | Throws e v' => Throws e v'
      | Undefined => Undefined
      end
  end.

(* the operation stays within defined behaviour, and the vector it leaves,
   on return as on an exception, satisfies [P] *)
Definition leaves {A : Type} (state : A -> Vector) (P : Vector -> Prop)
    (o : outcome A Vector) : Prop :=
  match o with
  | Normal a => P (state a)
  | Throws _ v => P v
  | Undefined => False
  end.

(* the same for a constructor: an exception leaves no object behind *)
Definition constructs (P : Vector -> Prop) (o : outcome Vector unit) : Prop :=
  match o with
  | Normal v => P v
  | Throws _ _ => True
  | Undefined => False
  end.

(* the invariant of the data model, on a vector as the class maintains it *)
Definition sound (v : Vector) : Prop :=
  well_formed v = true /\ size_ v <= Capacity v.

(* what holds of every vector a caller can hold, also of one whose block
   came from a request that wrapped: size_ <= capacity_, the capacity is a
   size_t, the elements lie inside the block, and the block is one operator
   new can have granted *)
Definition observable (v : Vector) : Prop :=
  size_ v <= Capacity v
  /\ Capacity v < SIZE_MOD
  /\ (N.to_nat (size_ v) <= length (buffer_ (data_ v)))%nat
  /\ N.of_nat (length (buffer_ (data_ v))) <= max_size.

(* [P] holds of the vector the operation leaves, on return as on an
   exception, whenever the call stays within what C++ defines *)
Definition whenever {A : Type} (state : A -> Vector) (P : Vector -> Prop)
    (o : outcome A Vector) : Prop :=
  match o with
  | Normal a => P (state a)
  | Throws _ v => P v
  | Undefined => True
  end.

(* the same for a constructor *)
Definition constructs_whenever (P : Vector -> Prop) (o : outcome Vector unit) : Prop :=
  match o with
  | Normal v => P v
  | _ => True
  end.

(** ** The rest of the two classes *)

(* RawMemory(RawMemory&& other) noexcept: the pair is (new object, other) *)
Definition RawMemory_move (other : RawMemory) : RawMemory * RawMemory :=
  let '(this, _) := RawMemory_Swap RawMemory_default other in
  (this, {| buffer_ := []; capacity_ := 0 |}).

(* the two operands of an assignment of RawMemory: one object named twice,
   or two objects *)
Inductive raw_operands : Type :=
| RawSame (m : RawMemory)
| RawDistinct (this rhs : RawMemory).

(* RawMemory& operator=(RawMemory&& rhs) noexcept *)
Definition RawMemory_move_assign (o : raw_operands) : raw_operands :=
  match o with
  | RawSame m => RawSame m
  | RawDistinct this rhs =>
      let '(this', rhs') := RawMemory_Swap this rhs in RawDistinct this' rhs'
  end.

(* T* GetAddress() noexcept: the offset of the block's first slot *)
Definition GetAddress (m : RawMemory) : nat := O.

(* size_t RawMemory::Capacity() const *)
Definition RawMemory_Capacity (m : RawMemory) : N := capacity_ m.

(* the state RawMemory keeps: the block has capacity_ slots (so the pointer
   is null exactly when capacity_ is 0) *)
Definition raw_ok (m : RawMemory) : bool :=
  N.of_nat (length (buffer_ m)) =? capacity_ m.

(* iterator begin() noexcept; an iterator is an offset into the block *)
Definition Vector_begin (v : Vector) : nat := GetAddress (data_ v).

(* iterator end() noexcept *)
Definition Vector_end (v : Vector) : nat :=
  (GetAddress (data_ v) + N.to_nat (size_ v))%nat.

(* const_iterator cbegin() const noexcept *)
Definition Vector_cbegin (v : Vector) : nat := Vector_begin v.

(* const_iterator cend() const noexcept *)
Definition Vector_cend (v : Vector) : nat := Vector_end v.

(* *it for an iterator into the vector's block *)
Definition dereference (v : Vector) (it : nat) : option T :=
  live (buffer_ (data_ v)) it.

(* iterator Insert(const_iterator pos, T&& value), for a value outside the
   vector *)
Definition Insert_rvalue (pos : N) (value : T) (v : Vector)
  : outcome (Vector * N) Vector :=
  Emplace pos (Args (if move_ctor_throws value then None else Some value)) v.

(* the element type is nothrow move constructible or copy constructible:
   the types for which relocation cannot lose an element *)
Definition relocation_is_safe : bool :=
  is_nothrow_move_constructible E || is_copy_constructible E.

(** * Proofs *)

(** ** Slots of a block *)

Lemma live_middle (pre post : block T) (x : T) :
  live (pre ++ Some x :: post) (length pre) = Some x.
Proof. unfold live. by rewrite list_lookup_middle. Qed.

Lemma insert_middle (pre post : block T) (s s' : slot T) :
  <[length pre := s']> (pre ++ s :: post) = pre ++ s' :: post.
Proof.
  rewrite insert_app_r_alt by lia. by rewrite Nat.sub_diag.
Qed.

Lemma construct_at_middle (pre post : block T) (s : slot T) (x : T) :
  construct_at (pre ++ s :: post) (length pre) x = Some (pre ++ Some x :: post).
Proof.
  unfold construct_at. rewrite insert_middle.
  case_decide as H; [done|]. rewrite length_app in H. simpl in H. lia.
Qed.

Lemma construct_at_at (pre post : block T) (s : slot T) (x : T) i :
  i = length pre -> construct_at (pre ++ s :: post) i x = Some (pre ++ Some x :: post).
Proof. intros ->. apply construct_at_middle. Qed.

Lemma destroy_at_middle (pre post : block T) (x : T) :
  destroy_at (pre ++ Some x :: post) (length pre) = Some (pre ++ None :: post).
Proof. unfold destroy_at. by rewrite live_middle, insert_middle. Qed.

Lemma snoc_length (pre : block T) (s : slot T) : length (pre ++ [s]) = S (length pre).
Proof. rewrite length_app. simpl. lia. Qed.

(* move the head of the middle part to the end of the prefix *)

Lemma shift_middle (pre post : block T) (s : slot T) :
  pre ++ s :: post = (pre ++ [s]) ++ post.
Proof. by rewrite <- app_assoc. Qed.

(** ** The standard algorithms in closed form *)

Lemma destroy_n_spec (xs : list T) : forall (pre post : block T),
  destroy_n (pre ++ (Some <$> xs) ++ post) (length pre) (length xs)
  = Some (pre ++ replicate (length xs) None ++ post).
Proof.
  induction xs as [|x xs IH]; intros pre post; [done|].
  cbn [length destroy_n fmap list_fmap app replicate].
  rewrite destroy_at_middle, shift_middle, <- (snoc_length pre None), IH.
  by rewrite <- app_assoc.
Qed.

Lemma destroy_n_one (pre post : block T) (x : T) i :
  i = length pre -> destroy_n (pre ++ Some x :: post) i 1 = Some (pre ++ None :: post).
Proof. intros ->. apply (destroy_n_spec [x]). Qed.

Lemma copy_construct_loop_spec (xs : list T) :
  forall (spre spost dpre mid dpost : block T),
  length mid = length xs ->
  copy_construct_loop (spre ++ (Some <$> xs) ++ spost) (length spre) (length xs)
                      (dpre ++ mid ++ dpost) (length dpre)
  = match first_throw (copy_throws E) xs with
    | None => Normal (dpre ++ (Some <$> xs) ++ dpost)
    | Some k => Throws element_error
                  (dpre ++ (Some <$> take k xs) ++ drop k mid ++ dpost,
                   (length dpre + k)%nat)
    end.
Proof.
  induction xs as [|x xs IH]; intros spre spost dpre mid dpost Hlen.
  - destruct mid; [done|discriminate].
  - destruct mid as [|s mid]; [discriminate|]. simpl in Hlen.
    cbn [length copy_construct_loop fmap list_fmap app first_throw].
    rewrite live_middle.
    destruct (copy_throws E x) eqn:Hx.
    + by rewrite Nat.add_0_r.
    + rewrite construct_at_middle.
      rewrite (shift_middle spre), (shift_middle dpre).
      rewrite <- (snoc_length spre (Some x)), <- (snoc_length dpre (Some x)).
      rewrite IH by lia.
      destruct (first_throw (copy_throws E) xs) as [k|]; simpl.
      * rewrite <- app_assoc, snoc_length, Nat.add_succ_r. done.
      * by rewrite <- app_assoc.
Qed.

Lemma first_throw_lt p (xs : list T) k : first_throw p xs = Some k -> (k < length xs)%nat.
Proof.
  revert k. induction xs as [|x xs IH]; intros k; simpl; [done|].
  destruct (p x); [intros [= <-]; lia|].
  destruct (first_throw p xs) as [j|]; [|done].
  intros [= <-]. specialize (IH j eq_refl). lia.
Qed.

Lemma first_throw_None p (xs : list T) :
  (forall x, p x = false) -> first_throw p xs = None.
Proof.
  intros Hp. induction xs as [|x xs IH]; simpl; [done|]. by rewrite Hp, IH.
Qed.

Lemma uninitialized_copy_n_spec (xs : list T) (spre spost dpre mid dpost : block T) first n cur :
  first = length spre -> n = length xs -> cur = length dpre -> length mid = length xs ->
  uninitialized_copy_n (spre ++ (Some <$> xs) ++ spost) first n (dpre ++ mid ++ dpost) cur
  = match first_throw (copy_throws E) xs with
    | None => Normal (dpre ++ (Some <$> xs) ++ dpost)
    | Some k => Throws element_error (dpre ++ replicate k None ++ drop k mid ++ dpost)
    end.
Proof.
  intros -> -> -> Hlen. unfold uninitialized_copy_n.
  rewrite copy_construct_loop_spec by done.
  destruct (first_throw (copy_throws E) xs) as [k|] eqn:Hk; [|done].
  apply first_throw_lt in Hk.
  replace (length dpre + k - length dpre)%nat with (length (take k xs))
    by (rewrite length_take; lia).
  rewrite destroy_n_spec. by rewrite length_take, Nat.min_l by lia.
Qed.

Lemma move_construct_loop_spec (xs : list T) :
  forall (spre spost dpre mid dpost : block T),
  length mid = length xs ->
  move_construct_loop (spre ++ (Some <$> xs) ++ spost) (length spre) (length xs)
                      (dpre ++ mid ++ dpost) (length dpre)
  = match first_throw (move_ctor_throws) xs with
    | None => Normal (spre ++ (Some <$> (moved_from E <$> xs)) ++ spost,
                      dpre ++ (Some <$> xs) ++ dpost)
    | Some k => Throws element_error
                  (spre ++ (Some <$> ((moved_from E <$> take k xs) ++ drop k xs)) ++ spost,
                   dpre ++ (Some <$> take k xs) ++ drop k mid ++ dpost,
                   (length dpre + k)%nat)
    end.
Proof.
  induction xs as [|x xs IH]; intros spre spost dpre mid dpost Hlen.
  - destruct mid; [done|discriminate].
  - destruct mid as [|s mid]; [discriminate|]. simpl in Hlen.
    cbn [length move_construct_loop fmap list_fmap app first_throw].
    rewrite live_middle.
    destruct (move_ctor_throws x) eqn:Hx.
    + by rewrite Nat.add_0_r.
    + rewrite construct_at_middle, insert_middle.
      rewrite (shift_middle spre), (shift_middle dpre).
      rewrite <- (snoc_length spre (Some (moved_from E x))), <- (snoc_length dpre (Some x)).
      rewrite IH by lia.
      destruct (first_throw (move_ctor_throws) xs) as [k|]; simpl.
      * rewrite <- !app_assoc, snoc_length, Nat.add_succ_r. done.
      * by rewrite <- !app_assoc.
Qed.

Lemma uninitialized_move_n_spec (xs : list T) (spre spost dpre mid dpost : block T) first n cur :
  first = length spre -> n = length xs -> cur = length dpre -> length mid = length xs ->
  uninitialized_move_n (spre ++ (Some <$> xs) ++ spost) first n (dpre ++ mid ++ dpost) cur
  = match first_throw (move_ctor_throws) xs with
    | None => Normal (spre ++ (Some <$> (moved_from E <$> xs)) ++ spost,
                      dpre ++ (Some <$> xs) ++ dpost)
    | Some k => Throws element_error
                  (spre ++ (Some <$> ((moved_from E <$> take k xs) ++ drop k xs)) ++ spost,
                   dpre ++ replicate k None ++ drop k mid ++ dpost)
    end.
Proof.
  intros -> -> -> Hlen. unfold uninitialized_move_n.
  rewrite move_construct_loop_spec by done.
  destruct (first_throw (move_ctor_throws) xs) as [k|] eqn:Hk; [|done].
  apply first_throw_lt in Hk.
  replace (length dpre + k - length dpre)%nat with (length (take k xs))
    by (rewrite length_take; lia).
  rewrite destroy_n_spec. by rewrite length_take, Nat.min_l by lia.
Qed.

Lemma length_left_behind k xs : length (left_behind k xs) = length xs.
Proof.
  unfold left_behind. destruct (relocate_by_move); [|done].
  rewrite length_app, length_fmap, <- length_app. by rewrite take_drop.
Qed.

Lemma relocate_spec (xs : list T) (spre spost dpre mid dpost : block T) first n cur :
  first = length spre -> n = length xs -> cur = length dpre -> length mid = length xs ->
  relocate (spre ++ (Some <$> xs) ++ spost) first n (dpre ++ mid ++ dpost) cur
  = match relocation_failure xs with
    | None => Normal (spre ++ (Some <$> left_behind (length xs) xs) ++ spost,
                      dpre ++ (Some <$> xs) ++ dpost)
    | Some k => Throws element_error
                  (spre ++ (Some <$> left_behind k xs) ++ spost,
                   dpre ++ replicate k None ++ drop k mid ++ dpost)
    end.
Proof.
  intros Hf Hn Hc Hlen. unfold relocate, relocation_failure, left_behind.
  destruct (relocate_by_move).
  - rewrite uninitialized_move_n_spec by done.
    destruct (first_throw _ xs); [done|].
    by rewrite take_ge, drop_ge, app_nil_r by lia.
  - rewrite uninitialized_copy_n_spec by done.
    by destruct (first_throw _ xs).
Qed.

(* the same loops when the destination block ends before the last object
   has its slot *)
Lemma construct_at_end (pre : block T) (x : T) :
  construct_at pre (length pre) x = None.
Proof. unfold construct_at. case_decide; [lia|done]. Qed.

Lemma first_throw_take p (xs : list T) j k :
  first_throw p (take j xs) = Some k -> first_throw p xs = Some k.
Proof.
  revert j k. induction xs as [|x xs IH]; intros [|j] k; simpl; try done.
  destruct (p x); [done|].
  destruct (first_throw p (take j xs)) as [i|] eqn:Hi; [|done].
  intros [= <-]. by rewrite (IH j i Hi).
Qed.

Lemma first_throw_take_lt p (xs : list T) j k :
  first_throw p (take j xs) = Some k -> (k < j)%nat.
Proof.
  intros H%first_throw_lt. rewrite length_take in H. lia.
Qed.

Lemma copy_construct_loop_short (xs : list T) :
  forall (spre spost dpre mid : block T),
  (length mid < length xs)%nat ->
  copy_construct_loop (spre ++ (Some <$> xs) ++ spost) (length spre) (length xs)
                      (dpre ++ mid) (length dpre)
  = match first_throw (copy_throws E) (take (S (length mid)) xs) with
    | Some k => Throws element_error
                  (dpre ++ (Some <$> take k xs) ++ drop k mid, (length dpre + k)%nat)
    | None => Undefined
    end.
Proof.
  induction xs as [|x xs IH]; intros spre spost dpre mid Hlen; [simpl in Hlen; lia|].
  cbn [length copy_construct_loop fmap list_fmap app first_throw take].
  rewrite live_middle.
  destruct (copy_throws E x) eqn:Hx; [by rewrite Nat.add_0_r|].
  destruct mid as [|s mid].
  - rewrite app_nil_r, construct_at_end. by rewrite take_0.
  - simpl in Hlen. rewrite construct_at_middle.
    rewrite (shift_middle spre), (shift_middle dpre).
    rewrite <- (snoc_length spre (Some x)), <- (snoc_length dpre (Some x)).
    rewrite IH by lia. cbn [length].
    destruct (first_throw (copy_throws E) (take (S (length mid)) xs)) as [k|]; simpl; [|done].
    by rewrite <- app_assoc, snoc_length, Nat.add_succ_r.
Qed.

Lemma move_construct_loop_short (xs : list T) :
  forall (spre spost dpre mid : block T),
  (length mid < length xs)%nat ->
  move_construct_loop (spre ++ (Some <$> xs) ++ spost) (length spre) (length xs)
                      (dpre ++ mid) (length dpre)
  = match first_throw (move_ctor_throws) (take (S (length mid)) xs) with
    | Some k => Throws element_error
                  (spre ++ (Some <$> ((moved_from E <$> take k xs) ++ drop k xs)) ++ spost,
                   dpre ++ (Some <$> take k xs) ++ drop k mid,
                   (length dpre + k)%nat)
    | None => Undefined
    end.
Proof.
  induction xs as [|x xs IH]; intros spre spost dpre mid Hlen; [simpl in Hlen; lia|].
  cbn [length move_construct_loop fmap list_fmap app first_throw take].
  rewrite live_middle.
  destruct (move_ctor_throws x) eqn:Hx; [by rewrite Nat.add_0_r|].
  destruct mid as [|s mid].
  - rewrite app_nil_r, construct_at_end. by rewrite take_0.
  - simpl in Hlen. rewrite construct_at_middle, insert_middle.
    rewrite (shift_middle spre), (shift_middle dpre).
    rewrite <- (snoc_length spre (Some (moved_from E x))), <- (snoc_length dpre (Some x)).
    rewrite IH by lia. cbn [length].
    destruct (first_throw (move_ctor_throws) (take (S (length mid)) xs)) as [k|]; simpl; [|done].
    by rewrite <- !app_assoc, snoc_length, Nat.add_succ_r.
Qed.

Lemma relocate_short (xs : list T) (spre spost dpre mid : block T) first n cur :
  first = length spre -> n = length xs -> cur = length dpre ->
  (length mid < length xs)%nat ->
  relocate (spre ++ (Some <$> xs) ++ spost) first n (dpre ++ mid) cur
  = match relocation_failure (take (S (length mid)) xs) with
    | Some k => Throws element_error
                  (spre ++ (Some <$> left_behind k xs) ++ spost,
                   dpre ++ replicate k None ++ drop k mid)
    | None => Undefined
    end.
Proof.
  intros -> -> -> Hlen.
  unfold relocate, relocation_failure, left_behind,
    uninitialized_move_n, uninitialized_copy_n.
  destruct (relocate_by_move).
  - rewrite move_construct_loop_short by done.
    destruct (first_throw _ (take _ xs)) as [k|] eqn:Hk; [|done].
    pose proof (first_throw_lt _ _ _ (first_throw_take _ _ _ _ Hk)) as Hlt.
    replace (length dpre + k - length dpre)%nat with (length (take k xs))
      by (rewrite length_take; lia).
    rewrite destroy_n_spec. by rewrite length_take, Nat.min_l by lia.
  - rewrite copy_construct_loop_short by done.
    destruct (first_throw _ (take _ xs)) as [k|] eqn:Hk; [|done].
    pose proof (first_throw_lt _ _ _ (first_throw_take _ _ _ _ Hk)) as Hlt.
    replace (length dpre + k - length dpre)%nat with (length (take k xs))
      by (rewrite length_take; lia).
    rewrite destroy_n_spec. by rewrite length_take, Nat.min_l by lia.
Qed.

Lemma uninitialized_value_construct_n_short (dpre mid : block T) first n :
  first = length dpre -> (length mid < n)%nat ->
  uninitialized_value_construct_n (dpre ++ mid) first n
  = match value_init E with
    | Some _ => Undefined
    | None => Throws element_error (dpre ++ mid)
    end.
Proof.
  intros -> Hlen. unfold uninitialized_value_construct_n.
  destruct (value_init E) as [x|] eqn:Hx.
  - assert (Hloop : value_construct_loop (dpre ++ mid) (length dpre) n = Undefined).
    { revert dpre mid Hlen. induction n as [|n IH]; intros dpre mid Hlen; [lia|].
      cbn [value_construct_loop]. rewrite Hx. destruct mid as [|s mid].
      - by rewrite app_nil_r, construct_at_end.
      - simpl in Hlen. rewrite construct_at_middle.
        rewrite (shift_middle dpre), <- (snoc_length dpre (Some x)). apply IH. lia. }
    by rewrite Hloop.
  - destruct n as [|n]; [lia|]. cbn [value_construct_loop]. rewrite Hx, Nat.sub_diag. done.
Qed.

Lemma value_construct_loop_Some (x : T) (n : nat) :
  value_init E = Some x ->
  forall (dpre mid dpost : block T), length mid = n ->
  value_construct_loop (dpre ++ mid ++ dpost) (length dpre) n
  = Normal (dpre ++ replicate n (Some x) ++ dpost).
Proof.
  intros Hx. induction n as [|n IH]; intros dpre mid dpost Hlen.
  - destruct mid; [done|discriminate].
  - destruct mid as [|s mid]; [discriminate|]. simpl in Hlen.
    cbn [value_construct_loop app replicate]. rewrite Hx, construct_at_middle.
    rewrite (shift_middle dpre), <- (snoc_length dpre (Some x)), IH by lia.
    by rewrite <- app_assoc.
Qed.

Lemma uninitialized_value_construct_n_spec (dpre mid dpost : block T) first n :
  first = length dpre -> length mid = n ->
  uninitialized_value_construct_n (dpre ++ mid ++ dpost) first n
  = match value_init E with
    | Some x => Normal (dpre ++ replicate n (Some x) ++ dpost)
    | None => if decide (n = O) then Normal (dpre ++ mid ++ dpost)
              else Throws element_error (dpre ++ mid ++ dpost)
    end.
Proof.
  intros -> Hlen. unfold uninitialized_value_construct_n.
  destruct (value_init E) as [x|] eqn:Hx.
  - by rewrite (value_construct_loop_Some x).
  - destruct n as [|n]; simpl; [by destruct mid|].
    rewrite Hx, Nat.sub_diag. done.
Qed.

Lemma first_throw2_lt p (ys xs : list T) k :
  first_throw2 p ys xs = Some k -> (k < length ys)%nat /\ (k < length xs)%nat.
Proof.
  revert xs k. induction ys as [|y ys IH]; intros [|x xs] k; simpl; try done.
  destruct (p y x); [intros [= <-]; lia|].
  destruct (first_throw2 p ys xs) as [j|] eqn:Hj; [|done].
  intros [= <-]. specialize (IH _ _ Hj). lia.
Qed.

Lemma copy_assign_loop_spec (xs : list T) :
  forall (ys : list T) (spre spost dpre dpost : block T),
  length ys = length xs ->
  copy_assign_loop (spre ++ (Some <$> xs) ++ spost) (length spre) (length xs)
                   (dpre ++ (Some <$> ys) ++ dpost) (length dpre)
  = match first_throw2 (copy_assign_throws E) ys xs with
    | None => Normal (dpre ++ (Some <$> xs) ++ dpost)
    | Some k => Throws element_error (dpre ++ (Some <$> take k xs ++ drop k ys) ++ dpost)
    end.
Proof.
  induction xs as [|x xs IH]; intros ys spre spost dpre dpost Hlen.
  - destruct ys; [done|discriminate].
  - destruct ys as [|y ys]; [discriminate|]. simpl in Hlen.
    cbn [length copy_assign_loop fmap list_fmap app first_throw2].
    rewrite !live_middle.
    destruct (copy_assign_throws E y x) eqn:Hx; [done|].
    rewrite insert_middle.
    rewrite (shift_middle spre), (shift_middle dpre).
    rewrite <- (snoc_length spre (Some x)), <- (snoc_length dpre (Some x)).
    rewrite IH by lia.
    destruct (first_throw2 (copy_assign_throws E) ys xs) as [k|]; simpl.
    * by rewrite <- app_assoc.
    * by rewrite <- app_assoc.
Qed.

Lemma std_copy_spec (xs ys : list T) (spre spost dpre dpost : block T) first last cur :
  first = length spre -> last = (first + length xs)%nat -> cur = length dpre ->
  length ys = length xs ->
  std_copy (spre ++ (Some <$> xs) ++ spost) first last (dpre ++ (Some <$> ys) ++ dpost) cur
  = match first_throw2 (copy_assign_throws E) ys xs with
    | None => Normal (dpre ++ (Some <$> xs) ++ dpost)
    | Some k => Throws element_error (dpre ++ (Some <$> take k xs ++ drop k ys) ++ dpost)
    end.
Proof.
  intros -> -> -> Hlen. unfold std_copy.
  case_decide; [|lia].
  replace (length spre + length xs - length spre)%nat with (length xs) by lia.
  by apply copy_assign_loop_spec.
Qed.

Lemma shift_length y xs : length (shift y xs).2 = S (length xs).
Proof.
  revert y. induction xs as [|x xs IH]; intros y; simpl; [done|].
  destruct (move_assign_throws E y x); [done|].
  specialize (IH (moved_from E x)). destruct (shift (moved_from E x) xs). simpl in *. lia.
Qed.

Lemma shift_nothrow y xs :
  (forall a b, move_assign_throws E a b = false) ->
  exists z, shift y xs = (false, xs ++ [z]).
Proof.
  intros Hn. revert y. induction xs as [|x xs IH]; intros y; simpl; [by exists y|].
  rewrite Hn. destruct (IH (moved_from E x)) as [z ->]. by exists z.
Qed.

Lemma live_at (pre post : block T) (x : T) i :
  i = length pre -> live (pre ++ Some x :: post) i = Some x.
Proof. intros ->. apply live_middle. Qed.

Lemma insert_at (pre post : block T) (s s' : slot T) i :
  i = length pre -> <[i := s']> (pre ++ s :: post) = pre ++ s' :: post.
Proof. intros ->. apply insert_middle. Qed.

Lemma live_second (pre post : block T) (s : slot T) (x : T) :
  live (pre ++ s :: Some x :: post) (S (length pre)) = Some x.
Proof.
  rewrite shift_middle. apply live_at. by rewrite snoc_length.
Qed.

Lemma insert_second (pre post : block T) (s0 s s' : slot T) :
  <[S (length pre) := s']> (pre ++ s0 :: s :: post) = pre ++ s0 :: s' :: post.
Proof.
  rewrite shift_middle, (insert_at (pre ++ [s0])) by (by rewrite snoc_length).
  by rewrite <- app_assoc.
Qed.

Lemma move_assign_loop_spec (xs : list T) :
  forall (y : T) (pre post : block T),
  move_assign_loop (pre ++ (Some <$> y :: xs) ++ post) (S (length pre)) (length xs)
                   (length pre)
  = (if (shift y xs).1 then Throws element_error else Normal)
      (pre ++ (Some <$> (shift y xs).2) ++ post).
Proof.
  induction xs as [|x xs IH]; intros y pre post; [done|].
  cbn [length move_assign_loop fmap list_fmap app shift].
  rewrite live_middle, live_second.
  destruct (move_assign_throws E y x) eqn:Hx; [done|].
  rewrite insert_middle, insert_second.
  rewrite (shift_middle pre), <- (snoc_length pre (Some x)).
  specialize (IH (moved_from E x) (pre ++ [Some x]) post).
  cbn [fmap list_fmap app] in IH. rewrite IH.
  destruct (shift (moved_from E x) xs) as [t r]. cbn [fst snd fmap list_fmap].
  rewrite <- app_assoc. by destruct t.
Qed.

Lemma std_move_spec (xs : list T) (y : T) (pre post : block T) first last d_first :
  d_first = length pre -> first = S d_first -> last = (first + length xs)%nat ->
  std_move (pre ++ (Some <$> y :: xs) ++ post) first last d_first
  = (if (shift y xs).1 then Throws element_error else Normal)
      (pre ++ (Some <$> (shift y xs).2) ++ post).
Proof.
  intros -> -> ->. unfold std_move. case_decide; [|lia].
  replace (S (length pre) + length xs - S (length pre))%nat with (length xs) by lia.
  apply move_assign_loop_spec.
Qed.

Lemma move_backward_loop_spec (rxs : list T) :
  forall (y : T) (pre post : block T),
  move_backward_loop (pre ++ (Some <$> rev rxs) ++ Some y :: post) (length pre)
                     (length rxs) (S (length pre + length rxs))
  = (if (shift y rxs).1 then Throws element_error else Normal)
      (pre ++ (Some <$> rev (shift y rxs).2) ++ post).
Proof.
  induction rxs as [|x rxs IH]; intros y pre post; [done|].
  assert (Hl : length (pre ++ (Some <$> rev rxs)) = (length pre + length rxs)%nat)
    by (by rewrite length_app, length_fmap, length_rev).
  cbn [length move_backward_loop rev shift].
  rewrite fmap_app. cbn [fmap list_fmap]. rewrite <- !app_assoc. cbn [app].
  rewrite (app_assoc pre).
  replace (length pre + S (length rxs))%nat with (S (length pre + length rxs)) by lia.
  rewrite <- Hl.
  rewrite live_middle. rewrite (live_second (pre ++ (Some <$> rev rxs)) post (Some x) y).
  destruct (move_assign_throws E y x) eqn:Hx.
  - cbn [fst snd rev]. rewrite !fmap_app, <- !app_assoc. done.
  - rewrite insert_second, insert_middle, <- (app_assoc pre), Hl.
    rewrite IH.
    destruct (shift (moved_from E x) rxs) as [t r]. cbn [fst snd rev].
    rewrite fmap_app, <- !app_assoc. by destruct t.
Qed.

(** ** size_t arithmetic that does not wrap *)

Lemma size_t_add_small a b : a + b < SIZE_MOD -> size_t_add a b = a + b.
Proof. intros H. unfold size_t_add. by apply N.mod_small. Qed.

Lemma size_t_mul_small a b : a * b < SIZE_MOD -> size_t_mul a b = a * b.
Proof. intros H. unfold size_t_mul. by apply N.mod_small. Qed.

Lemma size_t_sub_small a b : b <= a -> a < SIZE_MOD -> size_t_sub a b = a - b.
Proof.
  intros Hb Ha. unfold size_t_sub. rewrite (N.mod_small b) by lia.
  replace (a + SIZE_MOD - b) with ((a - b) + 1 * SIZE_MOD) by lia.
  rewrite N.Div0.mod_add. apply N.mod_small. lia.
Qed.

(** ** Well-formed vectors *)

Lemma contents_vector_of xs rest : contents (vector_of xs rest) = Some <$> xs.
Proof.
  unfold contents, vector_of. cbn [size_ data_ buffer_].
  rewrite Nat2N.id. rewrite take_app_length'; [done|by rewrite length_fmap].
Qed.

Lemma elements_vector_of xs rest : elements (vector_of xs rest) = xs.
Proof.
  unfold elements. rewrite contents_vector_of.
  induction xs as [|x xs IH]; [done|]. cbn. by rewrite IH.
Qed.

Lemma size_vector_of xs rest : size_ (vector_of xs rest) = N.of_nat (length xs).
Proof. done. Qed.

Lemma Capacity_vector_of xs rest :
  Capacity (vector_of xs rest) = N.of_nat (length xs + length rest).
Proof. done. Qed.

Lemma elements_block_vector xs rest c : elements (block_vector xs rest c) = xs.
Proof. apply (elements_vector_of xs rest). Qed.

Lemma forallb_is_live_fmap (xs : list T) : forallb is_live (Some <$> xs) = true.
Proof. by induction xs. Qed.

Lemma well_formed_vector_of xs rest : fits xs rest -> well_formed (vector_of xs rest) = true.
Proof.
  intros Hfit. unfold well_formed, size_le_capacity.
  rewrite contents_vector_of, forallb_is_live_fmap.
  unfold vector_of; cbn [size_ data_ buffer_ capacity_].
  rewrite length_app, length_fmap.
  rewrite N.eqb_refl. unfold fits in Hfit.
  rewrite (proj2 (N.leb_le _ _)) by done.
  rewrite (proj2 (N.leb_le _ _)) by lia. done.
Qed.

Lemma well_formed_default : well_formed Vector_default = true.
Proof. apply (well_formed_vector_of [] []). unfold fits. cbn [length]. lia. Qed.

Lemma forallb_is_live_inv (l : block T) :
  forallb is_live l = true -> l = Some <$> omap id l.
Proof.
  induction l as [|[x|] l IH]; cbn; [done| |done].
  intros H. by rewrite <- IH.
Qed.

Lemma well_formed_inv v :
  well_formed v = true ->
  exists rest, v = vector_of (elements v) rest /\ fits (elements v) rest.
Proof.
  unfold well_formed, size_le_capacity. intros H.
  apply andb_prop in H as [H Hlive]. apply andb_prop in H as [H Hsz].
  apply andb_prop in H as [Hlen Hmax].
  apply N.eqb_eq in Hlen. apply N.leb_le in Hmax, Hsz.
  apply forallb_is_live_inv in Hlive. fold (elements v) in Hlive.
  destruct v as [[b c] s]. cbn [size_ data_ buffer_ capacity_] in *.
  assert (Hl : length (elements {| data_ := {| buffer_ := b; capacity_ := c |}; size_ := s |})
               = N.to_nat s).
  { rewrite <- (length_fmap Some), <- Hlive. unfold contents. cbn [size_ data_ buffer_].
    rewrite length_take. lia. }
  exists (drop (N.to_nat s) b). split.
  - unfold vector_of. rewrite <- Hlive. unfold contents. cbn [size_ data_ buffer_].
    rewrite take_drop, Hl, length_drop. f_equal; [f_equal|]; lia.
  - unfold fits. rewrite Hl, length_drop. lia.
Qed.

Lemma well_formed_vector v :
  well_formed v = true -> exists xs rest, v = vector_of xs rest /\ fits xs rest.
Proof. intros (rest & Hv & Hfit)%well_formed_inv. by exists (elements v), rest. Qed.

Lemma well_formed_capacity v : well_formed v = true -> size_ v <= Capacity v.
Proof.
  unfold well_formed, size_le_capacity, Capacity.
  intros [[_ H]%andb_prop _]%andb_prop. by apply N.leb_le.
Qed.

Lemma length_elements v :
  well_formed v = true -> length (elements v) = N.to_nat (size_ v).
Proof.
  intros (rest & Hv & _)%well_formed_inv.
  rewrite Hv at 2. rewrite size_vector_of. lia.
Qed.

(** ** Requests in bytes *)

Lemma sizeof_T_pos : 0 < sizeof_T.
Proof. unfold sizeof_T. lia. Qed.

Lemma sizeof_T_le : sizeof_T <= PTRDIFF_MAX.
Proof. unfold sizeof_T. apply N.leb_le, sizeof_le. Qed.

Lemma le_max_size n : n <= max_size <-> n * sizeof_T <= PTRDIFF_MAX.
Proof.
  pose proof sizeof_T_pos as Hs. unfold max_size. split; intros H.
  - etrans; [apply N.mul_le_mono_r, H|].
    rewrite N.mul_comm. apply N.Div0.mul_div_le.
  - apply N.div_le_lower_bound; [lia|]. by rewrite N.mul_comm.
Qed.

Lemma max_size_le : max_size <= PTRDIFF_MAX.
Proof.
  pose proof sizeof_T_pos as Hs.
  pose proof (proj1 (le_max_size max_size) (N.le_refl _)) as H. nia.
Qed.

Lemma overflows_false n : overflows n = false <-> n * sizeof_T < SIZE_MOD.
Proof. unfold overflows. by rewrite N.leb_gt. Qed.

Lemma overflows_size_t n : overflows n = false -> n < SIZE_MOD.
Proof. intros H%overflows_false. pose proof sizeof_T_pos. nia. Qed.

Lemma overflows_max_size n : n <= max_size -> overflows n = false.
Proof.
  intros H%le_max_size. apply overflows_false. unfold SIZE_MOD, PTRDIFF_MAX in *. lia.
Qed.

Lemma overflows_gt n : overflows n = true -> max_size < n.
Proof.
  intros H. destruct (N.lt_ge_cases max_size n) as [|Hle]; [done|].
  apply overflows_max_size in Hle. congruence.
Qed.

Lemma overflows_twice n : n <= max_size -> overflows (n * 2) = false.
Proof.
  intros H%le_max_size. apply overflows_false. unfold SIZE_MOD, PTRDIFF_MAX in *. lia.
Qed.

Lemma overflows_one : overflows 1 = false.
Proof.
  pose proof sizeof_T_le. apply overflows_false. unfold SIZE_MOD, PTRDIFF_MAX in *. lia.
Qed.

Lemma request_small n : overflows n = false -> size_t_mul n sizeof_T = n * sizeof_T.
Proof. intros H%overflows_false. unfold size_t_mul. by apply N.mod_small. Qed.

Lemma slots_small n : overflows n = false -> slots n = N.to_nat n.
Proof.
  intros H. pose proof sizeof_T_pos. unfold slots.
  rewrite request_small by done. rewrite N.div_mul by lia. done.
Qed.

Lemma slots_overflow n : overflows n = true -> (slots n < N.to_nat n)%nat.
Proof.
  unfold overflows, slots, size_t_mul. intros H%N.leb_le.
  pose proof sizeof_T_pos.
  assert ((n * sizeof_T) mod SIZE_MOD / sizeof_T < n); [|lia].
  apply N.Div0.div_lt_upper_bound.
  pose proof (N.mod_upper_bound (n * sizeof_T) SIZE_MOD). unfold SIZE_MOD in *. lia.
Qed.

Lemma slots_le n : (slots n <= N.to_nat n)%nat.
Proof.
  destruct (overflows n) eqn:H.
  - apply slots_overflow in H. lia.
  - rewrite slots_small by done. lia.
Qed.

Lemma grants_le n : overflows n = false -> grants n = true -> n <= max_size.
Proof.
  intros Hn. unfold grants, heap_grants. rewrite request_small by done.
  intros [H _]%andb_prop. by apply le_max_size, N.leb_le.
Qed.

Lemma grants_slots n : grants n = true -> N.of_nat (slots n) <= max_size.
Proof.
  unfold grants, heap_grants, slots, max_size. intros [H%N.leb_le _]%andb_prop.
  rewrite N2Nat.id. by apply N.Div0.div_le_mono.
Qed.

(** ** The operations in closed form *)

Lemma RawMemory_new_slots n :
  n < SIZE_MOD ->
  RawMemory_new n
  = if (n =? 0) || grants n
    then Normal {| buffer_ := replicate (slots n) (None : slot T); capacity_ := n |}
    else Throws bad_alloc tt.
Proof.
  intros Hlt. unfold RawMemory_new, Allocate, operator_new, grants, slots.
  destruct (N.leb_spec SIZE_MOD n) as [|_]; [lia|].
  destruct (N.eqb_spec n 0) as [->|Hn]; [done|]. simpl.
  by destruct (heap_grants _).
Qed.

Lemma RawMemory_new_large n : SIZE_MOD <= n -> RawMemory_new n = Undefined.
Proof.
  intros Hn. unfold RawMemory_new, Allocate.
  by destruct (N.leb_spec SIZE_MOD n) as [_|]; [|lia].
Qed.

Lemma RawMemory_new_spec n :
  overflows n = false ->
  RawMemory_new n
  = if (n =? 0) || grants n
    then Normal {| buffer_ := replicate (N.to_nat n) (None : slot T); capacity_ := n |}
    else Throws bad_alloc tt.
Proof.
  intros Hn. rewrite RawMemory_new_slots by (by apply overflows_size_t).
  by rewrite slots_small.
Qed.

Lemma vector_of_eq xs rest b c s :
  b = (Some <$> xs) ++ rest -> c = N.of_nat (length xs + length rest) ->
  s = N.of_nat (length xs) ->
  {| data_ := {| buffer_ := b; capacity_ := c |}; size_ := s |} = vector_of xs rest.
Proof. by intros -> -> ->. Qed.

Lemma fits_lt xs rest : fits xs rest -> N.of_nat (length xs + length rest) < SIZE_MOD.
Proof. pose proof max_size_le. unfold fits, PTRDIFF_MAX, SIZE_MOD in *. lia. Qed.

Lemma PopBack_nil rest : PopBack (vector_of [] rest) = Normal (vector_of [] rest).
Proof. done. Qed.

Lemma PopBack_snoc xs x rest :
  fits (xs ++ [x]) rest ->
  PopBack (vector_of (xs ++ [x]) rest) = Normal (vector_of xs (None :: rest)).
Proof.
  intros Hfit. apply fits_lt in Hfit. rewrite length_app in Hfit. simpl in Hfit.
  unfold PopBack, vector_of. cbn [size_ data_ buffer_ capacity_ with_buffer].
  rewrite length_app. cbn [length].
  destruct (N.ltb_spec 0 (N.of_nat (length xs + 1))) as [_|?]; [|lia].
  rewrite Nat2N.id. replace (length xs + 1 - 1)%nat with (length (Some <$> xs))
    by (rewrite length_fmap; lia).
  rewrite fmap_app, <- app_assoc. cbn [fmap list_fmap app].
  rewrite destroy_at_middle.
  f_equal. apply vector_of_eq; [done|simpl; lia|].
  rewrite size_t_sub_small; unfold SIZE_MOD in *; lia.
Qed.

Lemma destroy_n_prefix (xs : list T) (post : block T) n :
  n = length xs ->
  destroy_n ((Some <$> xs) ++ post) 0 n = Some (replicate (length xs) None ++ post).
Proof. intros ->. apply (destroy_n_spec xs [] post). Qed.

(* Reserve for every request, in terms of the slots the block obtained has *)
Lemma Reserve_slots xs rest n :
  fits xs rest ->
  n < SIZE_MOD ->
  Reserve n (vector_of xs rest)
  = if n <=? N.of_nat (length xs + length rest) then Normal (vector_of xs rest)
    else if grants n then
      if decide (length xs <= slots n)%nat then
        match relocation_failure xs with
        | None => Normal (block_vector xs (replicate (slots n - length xs) None) n)
        | Some k => Throws element_error (vector_of (left_behind k xs) rest)
        end
      else
        match relocation_failure (take (S (slots n)) xs) with
        | Some k => Throws element_error (vector_of (left_behind k xs) rest)
        | None => Undefined
        end
    else Throws bad_alloc (vector_of xs rest).
Proof.
  intros Hfit Hsz. unfold Reserve.
  cbn [vector_of size_ data_ buffer_ capacity_].
  destruct (N.leb_spec n (N.of_nat (length xs + length rest))) as [|Hn]; [done|].
  rewrite RawMemory_new_slots by done.
  destruct (N.eqb_spec n 0) as [->|_]; [lia|]. cbn [orb].
  destruct (grants n); [|done].
  cbn [buffer_ capacity_]. rewrite Nat2N.id.
  case_decide as Hm.
  - replace (slots n) with (length xs + (slots n - length xs))%nat at 1 by lia.
    rewrite replicate_add.
    pose proof (relocate_spec xs [] rest [] (replicate (length xs) None)
                  (replicate (slots n - length xs) None) 0 (length xs) 0
                  eq_refl eq_refl eq_refl (length_replicate _ _)) as Hr.
    cbn [app] in Hr. rewrite Hr. clear Hr.
    destruct (relocation_failure xs) as [k|].
    + unfold with_block, with_buffer. cbn [size_ data_ buffer_ capacity_].
      f_equal. apply vector_of_eq; [done| |].
      * by rewrite length_left_behind.
      * by rewrite length_left_behind.
    + rewrite destroy_n_prefix by (by rewrite length_left_behind).
      done.
  - pose proof (relocate_short xs [] rest [] (replicate (slots n) None) 0 (length xs) 0
                  eq_refl eq_refl eq_refl) as Hr.
    rewrite length_replicate in Hr. cbn [app] in Hr. rewrite Hr by lia. clear Hr.
    destruct (relocation_failure (take (S (slots n)) xs)) as [k|]; [|done].
    unfold with_block, with_buffer. cbn [size_ data_ buffer_ capacity_].
    f_equal. apply vector_of_eq; [done| |].
    + by rewrite length_left_behind.
    + by rewrite length_left_behind.
Qed.

Lemma Reserve_large xs rest n :
  fits xs rest -> SIZE_MOD <= n -> Reserve n (vector_of xs rest) = Undefined.
Proof.
  intros Hfit Hn. pose proof (fits_lt _ _ Hfit). unfold Reserve.
  cbn [vector_of size_ data_ buffer_ capacity_].
  destruct (N.leb_spec n (N.of_nat (length xs + length rest))) as [|_]; [lia|].
  by rewrite RawMemory_new_large.
Qed.

Lemma block_vector_eq xs rest c :
  c = N.of_nat (length xs + length rest) -> block_vector xs rest c = vector_of xs rest.
Proof. by intros ->. Qed.

Lemma Reserve_spec xs rest n :
  fits xs rest ->
  overflows n = false ->
  Reserve n (vector_of xs rest)
  = if n <=? N.of_nat (length xs + length rest) then Normal (vector_of xs rest)
    else if grants n then
      match relocation_failure xs with
      | None => Normal (vector_of xs (replicate (N.to_nat n - length xs) None))
      | Some k => Throws element_error (vector_of (left_behind k xs) rest)
      end
    else Throws bad_alloc (vector_of xs rest).
Proof.
  intros Hfit Hn. rewrite Reserve_slots by (done || by apply overflows_size_t).
  rewrite slots_small by done.
  destruct (N.leb_spec n (N.of_nat (length xs + length rest))) as [|Hlt]; [done|].
  destruct (grants n); [|done].
  case_decide as Hm; [|lia].
  destruct (relocation_failure xs); [done|].
  f_equal. apply block_vector_eq. rewrite length_replicate. lia.
Qed.

Lemma growth_fits xs : fits xs [] ->
  (if N.of_nat (length xs) =? 0 then 1 else size_t_mul (N.of_nat (length xs)) 2)
  = growth (N.of_nat (length xs)).
Proof.
  unfold fits, growth. intros H. destruct (_ =? 0); [done|].
  pose proof max_size_le.
  apply size_t_mul_small. unfold SIZE_MOD, PTRDIFF_MAX in *. lia.
Qed.

Lemma overflows_growth n : n <= max_size -> overflows (growth n) = false.
Proof.
  intros H. unfold growth. destruct (n =? 0); [apply overflows_one|by apply overflows_twice].
Qed.

Lemma overflows_growth_fits xs rest :
  fits xs rest -> overflows (growth (N.of_nat (length xs))) = false.
Proof. unfold fits. intros H. apply overflows_growth. lia. Qed.

Lemma grants_growth xs rest :
  fits xs rest -> grants (growth (N.of_nat (length xs))) = true ->
  growth (N.of_nat (length xs)) <= max_size.
Proof. intros Hfit. apply grants_le. by eapply overflows_growth_fits. Qed.

Lemma overflows_fits xs rest : fits xs rest -> overflows (N.of_nat (length xs)) = false.
Proof. unfold fits. intros H. apply overflows_max_size. lia. Qed.

Lemma growth_pos n : (growth n =? 0) = false.
Proof. unfold growth. destruct (N.eqb_spec n 0); [done|]. apply N.eqb_neq. lia. Qed.

Lemma growth_gt n : n < growth n.
Proof. unfold growth. destruct (N.eqb_spec n 0); lia. Qed.

Ltac size_lia :=
  unfold fits, SIZE_MOD in *; pose proof max_size_le; unfold PTRDIFF_MAX in *; lia.

Ltac len_lia :=
  unfold fits in *;
  repeat (progress
    (rewrite ?length_app, ?length_fmap, ?length_rev, ?length_replicate,
             ?length_left_behind, ?length_take, ?length_drop in *;
     cbn [length] in * ));
  size_lia.

Ltac vec_simpl :=
  unfold with_block, with_buffer, RawMemory_Swap, Capacity, Size;
  cbn [vector_of size_ data_ buffer_ capacity_ fst snd].

Lemma EmplaceBack_room xs s rest args :
  fits xs (s :: rest) ->
  EmplaceBack args (vector_of xs (s :: rest))
  = match construct args ((Some <$> xs) ++ s :: rest) with
    | Normal x => Normal (vector_of (xs ++ [x]) rest, N.of_nat (length xs))
    | Throws e _ => Throws e (vector_of xs (s :: rest))
    | Undefined => Undefined
    end.
Proof.
  intros Hfit. apply fits_lt in Hfit. cbn [length] in Hfit.
  unfold EmplaceBack, RawMemory_plus. vec_simpl. cbn [length].
  destruct (N.eqb_spec (N.of_nat (length xs)) (N.of_nat (length xs + S (length rest))))
    as [|_]; [lia|].
  destruct (N.leb_spec (N.of_nat (length xs)) (N.of_nat (length xs + S (length rest))))
    as [_|]; [|lia].
  destruct (construct args _) as [x|e u|]; [|done|done].
  rewrite Nat2N.id, <- (length_fmap Some xs), construct_at_middle.
  f_equal. f_equal. apply vector_of_eq.
  - rewrite fmap_app, <- app_assoc. done.
  - rewrite length_fmap, length_app. simpl. lia.
  - rewrite length_fmap, length_app, size_t_add_small; simpl; lia.
Qed.

Lemma EmplaceBack_full xs args :
  fits xs [] ->
  EmplaceBack args (vector_of xs [])
  = let c := growth (N.of_nat (length xs)) in
    if grants c then
      match construct args ((Some <$> xs) ++ []) with
      | Normal x =>
          match relocation_failure xs with
          | None => Normal (vector_of (xs ++ [x])
                                      (replicate (N.to_nat c - S (length xs)) None),
                            N.of_nat (length xs))
          | Some k => Throws element_error (vector_of (left_behind k xs) [])
          end
      | Throws e _ => Throws e (vector_of xs [])
      | Undefined => Undefined
      end
    else Throws bad_alloc (vector_of xs []).
Proof.
  intros Hfit. pose proof (fits_lt _ _ Hfit) as Hlt. cbn [length] in Hlt.
  pose proof (growth_gt (N.of_nat (length xs))) as Hgt.
  unfold EmplaceBack. vec_simpl. cbn [length].
  rewrite Nat.add_0_r, N.eqb_refl, growth_fits by done.
  rewrite RawMemory_new_spec, growth_pos by (by eapply overflows_growth_fits). cbn [orb].
  set (c := growth (N.of_nat (length xs))) in *. cbv zeta.
  destruct (grants c); [|done].
  unfold RawMemory_plus. vec_simpl.
  destruct (N.leb_spec (N.of_nat (length xs)) c) as [_|]; [|lia].
  destruct (construct args _) as [x|e u|]; [|done|done].
  rewrite Nat2N.id.
  set (m := (N.to_nat c - S (length xs))%nat).
  replace (N.to_nat c) with (length xs + S m)%nat by lia.
  rewrite replicate_add. cbn [replicate].
  rewrite construct_at_at by (by rewrite length_replicate).
  unfold relocation_failure, left_behind.
  destruct (relocate_by_move).
  - pose proof (uninitialized_move_n_spec xs [] [] [] (replicate (length xs) None)
                  (Some x :: replicate m None) 0 (length xs) 0
                  eq_refl eq_refl eq_refl (length_replicate _ _)) as Hr.
    cbn [app] in Hr. rewrite app_nil_r in Hr |- *. rewrite Hr. clear Hr.
    destruct (first_throw (move_ctor_throws) xs) as [k|].
    + f_equal. apply vector_of_eq.
      * by rewrite app_nil_r.
      * rewrite length_app, !length_fmap, <- length_app, take_drop. simpl. lia.
      * rewrite length_app, !length_fmap, <- length_app, take_drop. simpl. lia.
    + rewrite destroy_n_prefix by (by rewrite length_fmap).
      vec_simpl. f_equal. f_equal. apply vector_of_eq.
      * rewrite fmap_app, <- app_assoc. done.
      * rewrite length_app, length_replicate. simpl. lia.
      * rewrite length_app, size_t_add_small; simpl; size_lia.
  - pose proof (uninitialized_copy_n_spec xs [] [] [] (replicate (length xs) None)
                  (Some x :: replicate m None) 0 (length xs) 0
                  eq_refl eq_refl eq_refl (length_replicate _ _)) as Hr.
    cbn [app] in Hr. rewrite app_nil_r in Hr |- *. rewrite Hr. clear Hr.
    destruct (first_throw (copy_throws E) xs) as [k|] eqn:Hk.
    + apply first_throw_lt in Hk.
      rewrite drop_replicate, app_assoc, <- replicate_add.
      rewrite destroy_n_one by (rewrite length_replicate; lia).
      done.
    + pose proof (destroy_n_prefix xs [] _ eq_refl) as Hd.
      rewrite !app_nil_r in Hd. rewrite Hd. clear Hd.
      vec_simpl. f_equal. f_equal. apply vector_of_eq.
      * rewrite fmap_app, <- app_assoc. done.
      * rewrite length_app, length_replicate. simpl. lia.
      * rewrite length_app, size_t_add_small; simpl; size_lia.
Qed.

Lemma destroy_n_prefix' (xs : list T) n :
  n = length xs ->
  destroy_n (Some <$> xs) 0 n = Some (replicate (length xs) None).
Proof.
  intros ->. pose proof (destroy_n_spec xs [] []) as H.
  cbn [app length] in H. by rewrite !app_nil_r in H.
Qed.

Lemma Emplace_full a c args :
  fits (a ++ c) [] ->
  Emplace (N.of_nat (length a)) args (vector_of (a ++ c) [])
  = let cap := growth (N.of_nat (length (a ++ c))) in
    if grants cap then
      match construct args ((Some <$> a ++ c) ++ []) with
      | Normal x =>
          match relocation_failure a with
          | Some k => Throws element_error (vector_of (left_behind k a ++ c) [])
          | None =>
              match relocation_failure c with
              | Some k => Throws element_error
                            (vector_of (left_behind (length a) a ++ left_behind k c) [])
              | None => Normal (vector_of (a ++ x :: c)
                                  (replicate (N.to_nat cap - S (length (a ++ c))) None),
                                N.of_nat (length a))
              end
          end
      | Throws e _ => Throws e (vector_of (a ++ c) [])
      | Undefined => Undefined
      end
    else Throws bad_alloc (vector_of (a ++ c) []).
Proof.
  intros Hfit. pose proof (growth_gt (N.of_nat (length (a ++ c)))) as Hgt.
  assert (Hac : length (a ++ c) = (length a + length c)%nat) by apply length_app.
  unfold Emplace. vec_simpl. cbn [length].
  rewrite Nat.add_0_r, N.eqb_refl, growth_fits by done.
  destruct (N.leb_spec (N.of_nat (length a)) (N.of_nat (length (a ++ c)))) as [_|]; [|lia].
  cbn [negb].
  rewrite RawMemory_new_spec, growth_pos by (by eapply overflows_growth_fits). cbn [orb].
  set (cap := growth (N.of_nat (length (a ++ c)))) in *. cbv zeta.
  destruct (grants cap); [|done].
  unfold RawMemory_plus. vec_simpl.
  destruct (N.leb_spec (N.of_nat (length a)) cap) as [_|]; [|lia].
  destruct (construct args _) as [x|e u|]; [|done|done].
  rewrite !Nat2N.id.
  set (m := (N.to_nat cap - S (length (a ++ c)))%nat).
  replace (N.to_nat cap) with (length a + S (length c + m))%nat by lia.
  rewrite replicate_add. cbn [replicate].
  rewrite construct_at_at by (by rewrite length_replicate).
  rewrite fmap_app, <- app_assoc.
  pose proof (relocate_spec a [] ((Some <$> c) ++ []) [] (replicate (length a) None)
                (Some x :: replicate (length c + m) None) 0 (length a) 0
                eq_refl eq_refl eq_refl (length_replicate _ _)) as Hr.
  cbn [app] in Hr. rewrite Hr. clear Hr.
  destruct (relocation_failure a) as [k|] eqn:Hk.
  { assert (k < length a)%nat as Hlt.
    { unfold relocation_failure in Hk.
      destruct (relocate_by_move); by apply first_throw_lt in Hk. }
    rewrite drop_replicate, app_assoc, <- replicate_add.
    rewrite destroy_n_one by (rewrite length_replicate; lia).
    vec_simpl. f_equal. apply vector_of_eq.
    - by rewrite fmap_app, <- app_assoc.
    - rewrite !length_app, length_left_behind. simpl. lia.
    - rewrite !length_app, length_left_behind. lia. }
  rewrite size_t_sub_small, size_t_add_small by size_lia.
  replace (N.to_nat (N.of_nat (length (a ++ c)) - N.of_nat (length a))) with (length c) by lia.
  replace (N.to_nat (N.of_nat (length a) + 1)) with (S (length a)) by lia.
  rewrite replicate_add.
  assert (H1 : length a = length (Some <$> left_behind (length a) a))
    by (by rewrite length_fmap, length_left_behind).
  assert (H3 : S (length a) = length ((Some <$> a) ++ [Some x]))
    by (rewrite length_app, length_fmap; simpl; lia).
  pose proof (relocate_spec c _ [] _ (replicate (length c) None) (replicate m None)
                _ (length c) _ H1 eq_refl H3 (length_replicate _ _)) as Hr.
  rewrite <- !app_assoc in Hr. cbn [app] in Hr. rewrite Hr; clear Hr H1 H3.
  destruct (relocation_failure c) as [k|] eqn:Hk2.
  { replace ((Some <$> a) ++ [Some x]) with (Some <$> (a ++ [x])) by (by rewrite fmap_app).
    replace (S (length a)) with (length (a ++ [x])) by (rewrite length_app; simpl; lia).
    rewrite destroy_n_prefix by done.
    vec_simpl. f_equal. apply vector_of_eq.
    - by rewrite fmap_app, <- app_assoc.
    - rewrite !length_app, !length_left_behind. simpl. lia.
    - rewrite !length_app, !length_left_behind. lia. }
  rewrite app_nil_r, <- fmap_app.
  rewrite destroy_n_prefix'
    by (by rewrite !length_app, !length_left_behind).
  vec_simpl. f_equal. f_equal. apply vector_of_eq.
  - rewrite fmap_app, <- app_assoc. done.
  - rewrite length_app, length_replicate. simpl. lia.
  - rewrite size_t_add_small by size_lia. rewrite !length_app. simpl. lia.
Qed.

Lemma shift_ok y xs : (shift y xs).1 = false -> (shift y xs).2 = xs ++ [hole y xs].
Proof.
  revert y. induction xs as [|x xs IH]; intros y; [done|].
  cbn [shift hole].
  destruct (move_assign_throws E y x); [done|].
  specialize (IH (moved_from E x)).
  destruct (shift (moved_from E x) xs) as [t r]. cbn [fst snd] in *.
  intros Ht. by rewrite IH.
Qed.

Lemma shift_never y xs :
  (forall a b, move_assign_throws E a b = false) -> (shift y xs).1 = false.
Proof. intros Hn. by destruct (shift_nothrow y xs Hn) as [z ->]. Qed.

Lemma Emplace_end xs s rest args :
  fits xs (s :: rest) ->
  Emplace (N.of_nat (length xs)) args (vector_of xs (s :: rest))
  = match construct args ((Some <$> xs) ++ s :: rest) with
    | Normal x => Normal (vector_of (xs ++ [x]) rest, N.of_nat (length xs))
    | Throws e _ => Throws e (vector_of xs (s :: rest))
    | Undefined => Undefined
    end.
Proof.
  intros Hfit. pose proof (fits_lt _ _ Hfit) as Hlt. cbn [length] in Hlt.
  unfold Emplace, RawMemory_plus. vec_simpl. cbn [length].
  rewrite N.leb_refl, N.eqb_refl. cbn [negb].
  destruct (N.eqb_spec (N.of_nat (length xs)) (N.of_nat (length xs + S (length rest))))
    as [|_]; [lia|].
  destruct (N.leb_spec (N.of_nat (length xs)) (N.of_nat (length xs + S (length rest))))
    as [_|]; [|lia].
  destruct (construct args _) as [x|e u|]; [|done|done].
  rewrite Nat2N.id, construct_at_at by (by rewrite length_fmap).
  f_equal. f_equal. apply vector_of_eq.
  - rewrite fmap_app, <- app_assoc. done.
  - rewrite length_app. simpl. lia.
  - rewrite length_app, size_t_add_small; simpl; lia.
Qed.

Lemma Emplace_inside a m l s rest args :
  fits (a ++ m ++ [l]) (s :: rest) ->
  Emplace (N.of_nat (length a)) args (vector_of (a ++ m ++ [l]) (s :: rest))
  = match construct args ((Some <$> a ++ m ++ [l]) ++ s :: rest) with
    | Normal temp_val =>
        if move_ctor_throws l then
          Throws element_error (vector_of (a ++ m ++ [l]) (s :: rest))
        else if (shift (moved_from E l) (rev m)).1 then
          Throws element_error
            (vector_of (a ++ rev (shift (moved_from E l) (rev m)).2) (Some l :: rest))
        else if move_assign_throws E (hole (moved_from E l) (rev m)) temp_val then
          Throws element_error
            (vector_of (a ++ hole (moved_from E l) (rev m) :: m) (Some l :: rest))
        else Normal (vector_of (a ++ temp_val :: m ++ [l]) rest, N.of_nat (length a))
    | Throws e _ => Throws e (vector_of (a ++ m ++ [l]) (s :: rest))
    | Undefined => Undefined
    end.
Proof.
  intros Hfit. pose proof (fits_lt _ _ Hfit) as Hlt. cbn [length] in Hlt.
  assert (Hl : length (a ++ m ++ [l]) = S (length a + length m))
    by (rewrite !length_app; simpl; lia).
  rewrite Hl in Hlt.
  unfold Emplace, RawMemory_index. vec_simpl. cbn [length]. rewrite Hl.
  destruct (N.leb_spec (N.of_nat (length a)) (N.of_nat (S (length a + length m))))
    as [_|]; [|lia].
  cbn [negb].
  destruct (N.eqb_spec (N.of_nat (S (length a + length m)))
                       (N.of_nat (S (length a + length m) + S (length rest))))
    as [|_]; [lia|].
  destruct (N.eqb_spec (N.of_nat (length a)) (N.of_nat (S (length a + length m))))
    as [|_]; [lia|].
  destruct (N.ltb_spec (N.of_nat (length a))
                       (N.of_nat (S (length a + length m) + S (length rest))))
    as [_|]; [|lia].
  destruct (construct args _) as [temp_val|e u|]; [|done|done].
  rewrite !Nat2N.id.
  replace (S (length a + length m) - 1)%nat with (length a + length m)%nat by lia.
  assert (Hb : (Some <$> a ++ m ++ [l]) ++ s :: rest
               = ((Some <$> a) ++ (Some <$> m)) ++ Some l :: s :: rest).
  { rewrite !fmap_app, <- !app_assoc. done. }
  rewrite Hb. clear Hb.
  assert (Hp : (length a + length m)%nat = length ((Some <$> a) ++ (Some <$> m)))
    by (by rewrite length_app, !length_fmap).
  rewrite (live_at _ _ _ _ Hp).
  destruct (move_ctor_throws l); [done|].
  rewrite (insert_at _ _ _ _ _ Hp).
  rewrite Hp, (shift_middle (_ ++ _)), <- (snoc_length _ (Some (moved_from E l))).
  rewrite construct_at_middle.
  unfold std_move_backward. rewrite snoc_length, <- Hp.
  case_decide; [|lia].
  replace (length a + length m - length a)%nat with (length (rev m))
    by (rewrite length_rev; lia).
  rewrite <- app_assoc. cbn [app]. rewrite <- app_assoc.
  rewrite <- (rev_involutive m) at 1.
  replace (S (length a + length m)) with (S (length (Some <$> a) + length (rev m)))
    by (by rewrite length_fmap, length_rev).
  rewrite <- (length_fmap Some a) at 1.
  rewrite move_backward_loop_spec.
  destruct (shift (moved_from E l) (rev m)) as [t r] eqn:Hs. cbn [fst snd].
  destruct t.
  { assert (Hlen : length (a ++ rev r) = S (length a + length m)).
    { pose proof (shift_length (moved_from E l) (rev m)) as Hr. rewrite Hs in Hr.
      cbn [snd] in Hr. rewrite length_rev in Hr.
      rewrite length_app, length_rev, Hr. lia. }
    vec_simpl. f_equal. apply vector_of_eq.
    - rewrite fmap_app, <- app_assoc. done.
    - rewrite Hlen. len_lia.
    - rewrite Hlen. len_lia. }
  pose proof (shift_ok (moved_from E l) (rev m)) as Hr. rewrite Hs in Hr.
  cbn [fst snd] in Hr. rewrite (Hr eq_refl). clear Hr.
  rewrite rev_app_distr, rev_involutive. cbn [rev app fmap list_fmap].
  rewrite <- (length_fmap Some a) at 1. rewrite live_middle.
  destruct (move_assign_throws E _ temp_val).
  { vec_simpl. f_equal. apply vector_of_eq.
    - rewrite fmap_app, <- app_assoc. done.
    - len_lia.
    - len_lia. }
  rewrite <- (length_fmap Some a) at 1. rewrite insert_middle.
  f_equal. f_equal. apply vector_of_eq.
  - rewrite !fmap_app, <- !app_assoc. cbn [fmap list_fmap app].
    rewrite fmap_app, <- app_assoc. done.
  - len_lia.
  - rewrite size_t_add_small by len_lia. len_lia.
Qed.

Lemma Emplace_out_of_range pos args v :
  size_ v < pos -> Emplace pos args v = Undefined.
Proof.
  intros H. unfold Emplace. destruct (N.leb_spec pos (size_ v)); [lia|done].
Qed.

Lemma Erase_spec a y c rest :
  fits (a ++ y :: c) rest ->
  Erase (N.of_nat (length a)) (vector_of (a ++ y :: c) rest)
  = if (shift y c).1 then
      Throws element_error (vector_of (a ++ (shift y c).2) rest)
    else Normal (vector_of (a ++ c) (None :: rest), N.of_nat (length a)).
Proof.
  intros Hfit. pose proof (fits_lt _ _ Hfit) as Hlt.
  unfold Erase. vec_simpl.
  destruct (N.ltb_spec (N.of_nat (length a)) (N.of_nat (length (a ++ y :: c))))
    as [_|]; [|len_lia].
  cbn [negb]. rewrite !Nat2N.id, fmap_app, <- app_assoc.
  rewrite std_move_spec; [|by rewrite length_fmap|lia|len_lia].
  pose proof (shift_length y c) as Hlen.
  destruct (shift y c) as [t r] eqn:Hs. cbn [fst snd] in *.
  destruct t.
  { vec_simpl. f_equal. apply vector_of_eq.
    - by rewrite fmap_app, <- app_assoc.
    - len_lia.
    - len_lia. }
  pose proof (shift_ok y c) as Hr. rewrite Hs in Hr. cbn [fst snd] in Hr.
  rewrite (Hr eq_refl). clear Hr.
  vec_simpl.
  erewrite (vector_of_eq ((a ++ c) ++ [hole y c]) rest).
  - rewrite PopBack_snoc; [done|]. len_lia.
  - rewrite <- !app_assoc, !fmap_app, <- !app_assoc. done.
  - len_lia.
  - len_lia.
Qed.

Lemma Erase_out_of_range pos v :
  size_ v <= pos -> Erase pos v = Undefined.
Proof.
  intros H. unfold Erase. destruct (N.ltb_spec pos (size_ v)); [lia|done].
Qed.

Lemma destroy_n_at (xs : list T) (pre post : block T) first n :
  first = length pre -> n = length xs ->
  destroy_n (pre ++ (Some <$> xs) ++ post) first n
  = Some (pre ++ replicate (length xs) None ++ post).
Proof. intros -> ->. apply destroy_n_spec. Qed.

Lemma Resize_shrink xs ys rest :
  fits (xs ++ ys) rest ->
  Resize (N.of_nat (length xs)) (vector_of (xs ++ ys) rest)
  = Normal (vector_of xs (replicate (length ys) None ++ rest)).
Proof.
  intros Hfit. unfold Resize. vec_simpl.
  destruct (N.ltb_spec (N.of_nat (length (xs ++ ys))) (N.of_nat (length xs)))
    as [|_]; [len_lia|].
  rewrite size_t_sub_small by len_lia.
  rewrite fmap_app, <- app_assoc.
  rewrite destroy_n_at by len_lia.
  f_equal. apply vector_of_eq; [done|len_lia|done].
Qed.

Lemma fmap_replicate_Some (d : T) n :
  replicate n (Some d) = Some <$> replicate n d.
Proof. by rewrite fmap_replicate. Qed.

Lemma Resize_grow xs rest n :
  fits xs rest -> N.of_nat (length xs) < n ->
  n <= N.of_nat (length xs + length rest) \/ overflows n = false ->
  Resize n (vector_of xs rest)
  = let j := (N.to_nat n - length xs)%nat in
    if n <=? N.of_nat (length xs + length rest) then
      match value_init E with
      | Some d => Normal (vector_of (xs ++ replicate j d) (drop j rest))
      | None => Throws element_error (vector_of xs rest)
      end
    else if grants n then
      match relocation_failure xs with
      | None =>
          match value_init E with
          | Some d => Normal (vector_of (xs ++ replicate j d) [])
          | None => Throws element_error (vector_of xs (replicate j None))
          end
      | Some k => Throws element_error (vector_of (left_behind k xs) rest)
      end
    else Throws bad_alloc (vector_of xs rest).
Proof.
  intros Hfit Hn Hov.
  assert (Hov' : overflows n = false).
  { destruct Hov as [Hle|]; [|done]. apply overflows_max_size. unfold fits in Hfit. lia. }
  unfold Resize. cbv zeta.
  set (j := (N.to_nat n - length xs)%nat).
  replace (size_ (vector_of xs rest) <? n) with true
    by (symmetry; apply N.ltb_lt; done).
  rewrite Reserve_spec by done.
  destruct (N.leb_spec n (N.of_nat (length xs + length rest))) as [Hle|Hgt].
  - vec_simpl. rewrite size_t_sub_small by len_lia.
    rewrite Nat2N.id.
    replace (N.to_nat (n - N.of_nat (length xs))) with j by lia.
    rewrite <- (take_drop j rest) at 1.
    rewrite uninitialized_value_construct_n_spec; [|len_lia|len_lia].
    destruct (value_init E) as [d|].
    + f_equal. apply vector_of_eq.
      * rewrite fmap_app, <- app_assoc, fmap_replicate_Some. done.
      * unfold j. len_lia.
      * unfold j. len_lia.
    + case_decide; [lia|]. f_equal. apply vector_of_eq.
      * by rewrite take_drop.
      * done.
      * done.
  - destruct (grants n) eqn:Hg; [|done].
    destruct (relocation_failure xs) as [k|]; [done|].
    apply grants_le in Hg; [|done].
    vec_simpl. rewrite size_t_sub_small by len_lia.
    rewrite Nat2N.id.
    replace (N.to_nat (n - N.of_nat (length xs))) with j by lia.
    fold j.
    pose proof (uninitialized_value_construct_n_spec (Some <$> xs) (replicate j None) []
                  (length xs) j) as Hv.
    rewrite app_nil_r in Hv. rewrite Hv; [|len_lia|len_lia]. clear Hv.
    destruct (value_init E) as [d|].
    + f_equal. apply vector_of_eq.
      * rewrite fmap_app, fmap_replicate_Some, app_assoc. done.
      * unfold j. len_lia.
      * unfold j. len_lia.
    + case_decide; [lia|]. f_equal.
Qed.

(* Resize to a size whose byte count wraps *)
Lemma Resize_overflow xs rest n :
  fits xs rest -> overflows n = true -> n < SIZE_MOD ->
  Resize n (vector_of xs rest)
  = if grants n then
      if decide (length xs <= slots n)%nat then
        match relocation_failure xs with
        | None =>
            match value_init E with
            | Some _ => Undefined
            | None => Throws element_error
                        (block_vector xs (replicate (slots n - length xs) None) n)
            end
        | Some k => Throws element_error (vector_of (left_behind k xs) rest)
        end
      else
        match relocation_failure (take (S (slots n)) xs) with
        | Some k => Throws element_error (vector_of (left_behind k xs) rest)
        | None => Undefined
        end
    else Throws bad_alloc (vector_of xs rest).
Proof.
  intros Hfit Hov Hsz. pose proof (overflows_gt n Hov) as Hgt.
  pose proof (slots_overflow n Hov) as Hslots.
  unfold Resize.
  replace (size_ (vector_of xs rest) <? n) with true
    by (symmetry; apply N.ltb_lt; rewrite size_vector_of; len_lia).
  rewrite Reserve_slots by done.
  destruct (N.leb_spec n (N.of_nat (length xs + length rest))) as [|_]; [len_lia|].
  destruct (grants n); [|done].
  case_decide as Hm; [|by destruct (relocation_failure _)].
  destruct (relocation_failure xs); [done|].
  unfold block_vector, with_block, with_buffer. cbn [data_ size_ buffer_ capacity_].
  rewrite size_t_sub_small by lia. rewrite Nat2N.id.
  pose proof (uninitialized_value_construct_n_short (Some <$> xs)
                (replicate (slots n - length xs) None) (length xs)
                (N.to_nat (n - N.of_nat (length xs)))) as Hv.
  rewrite length_fmap, length_replicate in Hv. rewrite Hv by (done || lia).
  by destruct (value_init E).
Qed.

Lemma Resize_large xs rest n :
  fits xs rest -> SIZE_MOD <= n -> Resize n (vector_of xs rest) = Undefined.
Proof.
  intros Hfit Hn. pose proof (fits_lt _ _ Hfit) as Hlt. unfold Resize.
  replace (size_ (vector_of xs rest) <? n) with true
    by (symmetry; apply N.ltb_lt; rewrite size_vector_of; lia).
  by rewrite Reserve_large.
Qed.

Lemma Vector_sized_overflow n :
  overflows n = true -> n < SIZE_MOD ->
  Vector_sized n
  = if grants n then
      match value_init E with
      | Some _ => Undefined
      | None => Throws element_error tt
      end
    else Throws bad_alloc tt.
Proof.
  intros Hov Hn. pose proof (slots_overflow n Hov) as Hs.
  unfold Vector_sized. rewrite RawMemory_new_slots by done.
  destruct (N.eqb_spec n 0) as [->|_]; [done|]. cbn [orb].
  destruct (grants n); [|done]. vec_simpl.
  pose proof (uninitialized_value_construct_n_short [] (replicate (slots n) None)
                0 (N.to_nat n) eq_refl) as Hv.
  cbn [app] in Hv. rewrite Hv by (by rewrite length_replicate).
  by destruct (value_init E).
Qed.

Lemma Vector_sized_large n : SIZE_MOD <= n -> Vector_sized n = Undefined.
Proof. intros Hn. unfold Vector_sized. by rewrite RawMemory_new_large. Qed.

Lemma Vector_sized_spec n :
  overflows n = false ->
  Vector_sized n
  = if (n =? 0) || grants n then
      match value_init E with
      | Some d => Normal (vector_of (replicate (N.to_nat n) d) [])
      | None => if n =? 0 then Normal (vector_of [] []) else Throws element_error tt
      end
    else Throws bad_alloc tt.
Proof.
  intros Hov. unfold Vector_sized. rewrite RawMemory_new_spec by done.
  destruct ((n =? 0) || grants n); [|done]. vec_simpl.
  pose proof (uninitialized_value_construct_n_spec [] (replicate (N.to_nat n) None) []
                0 (N.to_nat n) eq_refl (length_replicate _ _)) as Hv.
  cbn [app] in Hv. rewrite app_nil_r in Hv. rewrite Hv. clear Hv.
  destruct (value_init E) as [d|].
  - f_equal. apply vector_of_eq.
    + rewrite ?app_nil_r, ?fmap_replicate_Some, ?app_nil_r. done.
    + len_lia.
    + len_lia.
  - case_decide as H0.
    + rewrite H0. replace n with 0 by lia. done.
    + destruct (N.eqb_spec n 0); [lia|done].
Qed.

Lemma Vector_copy_spec xs rest :
  fits xs rest ->
  Vector_copy (vector_of xs rest)
  = if (N.of_nat (length xs) =? 0) || grants (N.of_nat (length xs)) then
      match first_throw (copy_throws E) xs with
      | None => Normal (vector_of xs [])
      | Some _ => Throws element_error tt
      end
    else Throws bad_alloc tt.
Proof.
  intros Hfit. unfold Vector_copy. vec_simpl.
  rewrite RawMemory_new_spec by (by eapply overflows_fits).
  destruct (_ || _); [|done]. vec_simpl. rewrite Nat2N.id.
  pose proof (uninitialized_copy_n_spec xs [] rest [] (replicate (length xs) None) []
                0 (length xs) 0 eq_refl eq_refl eq_refl (length_replicate _ _)) as Hc.
  cbn [app] in Hc. rewrite app_nil_r in Hc. rewrite Hc. clear Hc.
  destruct (first_throw (copy_throws E) xs); [done|].
  f_equal. apply vector_of_eq; [done|len_lia|done].
Qed.

Lemma Vector_destructor_spec xs rest : Vector_destructor (vector_of xs rest) = Some tt.
Proof.
  unfold Vector_destructor. vec_simpl. by rewrite Nat2N.id, destroy_n_prefix.
Qed.

Lemma copy_assign_realloc xs rest zs rrest :
  fits xs rest ->
  fits zs rrest ->
  (length xs + length rest < length zs)%nat ->
  copy_assign (Distinct (vector_of xs rest) (vector_of zs rrest))
  = if grants (N.of_nat (length zs)) then
      match first_throw (copy_throws E) zs with
      | None => Normal (vector_of zs [])
      | Some _ => Throws element_error (vector_of xs rest)
      end
    else Throws bad_alloc (vector_of xs rest).
Proof.
  intros Hfit Hrfit Hlt. unfold copy_assign.
  replace (Capacity (vector_of xs rest) <? size_ (vector_of zs rrest)) with true
    by (symmetry; apply N.ltb_lt; vec_simpl; lia).
  rewrite Vector_copy_spec by done.
  destruct (N.eqb_spec (N.of_nat (length zs)) 0) as [|_]; [lia|]. cbn [orb].
  destruct (grants _); [|done].
  destruct (first_throw (copy_throws E) zs); [done|].
  unfold Swap. vec_simpl.
  erewrite (vector_of_eq xs rest) by done.
  rewrite Vector_destructor_spec.
  done.
Qed.

Lemma copy_assign_reuse xs rest zs rrest :
  fits xs rest ->
  (length zs <= length xs + length rest)%nat ->
  copy_assign (Distinct (vector_of xs rest) (vector_of zs rrest))
  = let mn := (length xs `min` length zs)%nat in
    match first_throw2 (copy_assign_throws E) (take mn xs) (take mn zs) with
    | Some k => Throws element_error (vector_of (take k zs ++ drop k xs) rest)
    | None =>
        if (length zs <? length xs)%nat then
          Normal (vector_of zs (replicate (length xs - length zs) None ++ rest))
        else
          match first_throw (copy_throws E) (drop (length xs) zs) with
          | None => Normal (vector_of zs (drop (length zs - length xs) rest))
          | Some k => Throws element_error
                        (vector_of (take (length xs) zs) (replicate k None ++ drop k rest))
          end
    end.
Proof.
  intros Hfit Hle. pose proof (fits_lt _ _ Hfit) as Hlt.
  unfold copy_assign. cbv zeta.
  replace (Capacity (vector_of xs rest) <? size_ (vector_of zs rrest)) with false
    by (symmetry; apply N.ltb_ge; vec_simpl; lia).
  unfold handleAssignment. vec_simpl.
  rewrite N2Nat.inj_min, !Nat2N.id.
  set (mn := (length xs `min` length zs)%nat).
  pose proof (std_copy_spec (take mn zs) (take mn xs) [] ((Some <$> drop mn zs) ++ rrest)
                [] ((Some <$> drop mn xs) ++ rest) 0 (0 + mn) 0) as Hc.
  cbn [app] in Hc.
  rewrite !app_assoc, <- !fmap_app, !take_drop in Hc.
  rewrite Hc; [|done|unfold mn; len_lia|done|unfold mn; len_lia]. clear Hc.
  destruct (first_throw2 _ _ _) as [k|] eqn:Hk.
  { apply first_throw2_lt in Hk as [Hk _]. rewrite length_take in Hk.
    vec_simpl. f_equal. apply vector_of_eq.
    - rewrite app_assoc, <- fmap_app, <- app_assoc, take_take, drop_take_drop by lia.
      by replace (k `min` mn)%nat with k by lia.
    - len_lia.
    - len_lia. }
  destruct (N.ltb_spec (N.of_nat (length zs)) (N.of_nat (length xs))) as [Hzx|Hzx].
  - destruct (Nat.ltb_spec (length zs) (length xs)) as [_|]; [|lia].
    replace mn with (length zs) by (unfold mn; lia).
    rewrite firstn_all, fmap_app, <- app_assoc.
    rewrite size_t_sub_small by len_lia.
    rewrite destroy_n_at by len_lia.
    vec_simpl. f_equal. apply vector_of_eq; [|len_lia|done].
    by rewrite length_drop.
  - destruct (Nat.ltb_spec (length zs) (length xs)) as [|_]; [lia|].
    replace mn with (length xs) by (unfold mn; lia).
    rewrite skipn_all, app_nil_r.
    rewrite N.min_l by lia.
    rewrite size_t_sub_small by len_lia.
    replace (N.to_nat (N.of_nat (length zs) - N.of_nat (length xs)))
      with (length (drop (length xs) zs)) by len_lia.
    set (j := (length zs - length xs)%nat).
    pose proof (uninitialized_copy_n_spec (drop (length xs) zs)
                  (Some <$> take (length xs) zs) rrest
                  (Some <$> take (length xs) zs) (take j rest) (drop j rest)
                  (length xs) (length (drop (length xs) zs)) (length xs)) as Hu.
    rewrite !app_assoc, <- !fmap_app, !take_drop, <- !app_assoc, take_drop in Hu.
    rewrite Hu; [|len_lia|done|len_lia|unfold j; len_lia]. clear Hu.
    destruct (first_throw (copy_throws E) (drop (length xs) zs)) as [k|] eqn:Hk2.
    + apply first_throw_lt in Hk2. rewrite length_drop in Hk2.
      vec_simpl. f_equal. apply vector_of_eq.
      * rewrite drop_take_drop by (unfold j; lia). done.
      * len_lia.
      * len_lia.
    + vec_simpl. f_equal. apply vector_of_eq; [done|unfold j; len_lia|done].
Qed.

(** ** The claims *)

(** C1. If the constructor that EmplaceBack (or PushBack) invokes for the new
    element throws, the call ends in an exception and the vector is in the
    state it had before the call: same size, same capacity, same block and
    so the same element values.  This holds on the path that grows the
    storage and on the path that does not; on the growing path the exception
    is bad_alloc when the allocation fails before the constructor runs. *)
Theorem EmplaceBack_constructor_throws (v : Vector) (args : ctor_args) (e : exn) :
  well_formed v = true ->
  construct args (buffer_ (data_ v)) = Throws e tt ->
  exists e', (e' = e \/ e' = bad_alloc)
             /\ EmplaceBack args v = Throws e' v
             /\ PushBack args v = Throws e' v.
Proof.
  intros Hwf Hc. apply well_formed_inv in Hwf as (rest & Hv & Hfit).
  unfold PushBack. rewrite Hv in Hc |- *. cbn [vector_of data_ buffer_] in Hc.
  destruct rest as [|s rest].
  - rewrite EmplaceBack_full by done. cbv zeta.
    destruct (grants _).
    + rewrite Hc. exists e. auto.
    + exists bad_alloc. auto.
  - rewrite EmplaceBack_room by done. rewrite Hc. exists e. auto.
Qed.

(** X12. Beyond the new element's constructor: whatever throws in
    EmplaceBack, the vector is left as it was, for every element type that is
    nothrow move constructible or copy constructible.  (For the remaining
    types, move-only with a throwing move constructor, relocation moves from
    the old block and a throw leaves moved-from elements behind.) *)
Lemma EmplaceBack_exception_state (v v' : Vector) (args : ctor_args) (e : exn) :
  well_formed v = true ->
  is_nothrow_move_constructible E = true \/ is_copy_constructible E = true ->
  EmplaceBack args v = Throws e v' ->
  v' = v.
Proof.
  intros (xs & rest & -> & Hfit)%well_formed_vector Htype.
  destruct rest as [|s rest].
  - rewrite EmplaceBack_full by done. cbv zeta.
    destruct (grants _); [|by intros [= _ <-]].
    destruct (construct args _) as [x|e' u|]; [|by intros [= _ <-]|done].
    unfold relocation_failure, left_behind, relocate_by_move.
    destruct (is_nothrow_move_constructible E) eqn:Hn; cbn [orb].
    + rewrite first_throw_None; [done|]. intros y. unfold move_ctor_throws. by rewrite Hn.
    + destruct Htype as [|Hc]; [done|]. rewrite Hc. cbn [negb].
      destruct (first_throw _ xs); [by intros [= _ <-]|done].
  - rewrite EmplaceBack_room by done.
    destruct (construct args _) as [x|e' u|]; [done|by intros [= _ <-]|done].
Qed.

Lemma relocation_failure_None xs :
  (forall y, relocation_throws y = false) -> relocation_failure xs = None.
Proof.
  unfold relocation_throws, relocation_failure. intros H.
  destruct relocate_by_move; by apply first_throw_None.
Qed.

Lemma full_iff xs rest :
  size_ (vector_of xs rest) = Capacity (vector_of xs rest) <-> rest = [].
Proof.
  unfold Capacity. cbn [vector_of size_ data_ capacity_]. split.
  - intros H. destruct rest; [done|]. cbn [length] in H. lia.
  - intros ->. cbn [length]. lia.
Qed.

(* what a PushBack that returns has done *)
Lemma PushBack_returns (v v' : Vector) (x : T) :
  well_formed v = true ->
  PushBack (Args (Some x)) v = Normal v' ->
  well_formed v' = true
  /\ elements v' = elements v ++ [x]
  /\ size_ v' = size_ v + 1
  /\ Capacity v' = if size_ v =? Capacity v then growth (size_ v) else Capacity v.
Proof.
  intros (xs & rest & -> & Hfit)%well_formed_vector.
  unfold PushBack. destruct rest as [|s rest].
  - rewrite EmplaceBack_full by done. cbv zeta.
    pose proof (growth_gt (N.of_nat (length xs))) as Hgt.
    destruct (grants _) eqn:Hg; [|done]. apply (grants_growth _ _ Hfit) in Hg.
    cbn [construct]. destruct (relocation_failure xs); [done|].
    intros [= <-].
    split; [apply well_formed_vector_of; len_lia|].
    rewrite !elements_vector_of, !size_vector_of, !Capacity_vector_of.
    cbn [length]. rewrite Nat.add_0_r, N.eqb_refl. repeat split; len_lia.
  - rewrite EmplaceBack_room by done. cbn [construct].
    intros [= <-].
    split; [apply well_formed_vector_of; len_lia|].
    rewrite !elements_vector_of, !size_vector_of, !Capacity_vector_of.
    cbn [length].
    destruct (N.eqb_spec (N.of_nat (length xs)) (N.of_nat (length xs + S (length rest))));
      [lia|].
    repeat split; len_lia.
Qed.

(* a PushBack whose constructor, relocation and allocation succeed returns *)
Lemma PushBack_ok (v : Vector) (x : T) :
  well_formed v = true ->
  (size_ v = Capacity v -> grants (growth (size_ v)) = true) ->
  (forall y, relocation_throws y = false) ->
  exists v', PushBack (Args (Some x)) v = Normal v'
             /\ well_formed v' = true
             /\ elements v' = elements v ++ [x]
             /\ size_ v' = size_ v + 1
             /\ Capacity v' = if size_ v =? Capacity v then growth (size_ v)
                              else Capacity v.
Proof.
  intros Hwf Hg Hr.
  assert (exists v', PushBack (Args (Some x)) v = Normal v') as [v' Hp].
  { destruct (well_formed_vector v Hwf) as (xs & rest & -> & Hfit).
    unfold PushBack. destruct rest as [|s rest].
    - rewrite EmplaceBack_full by done. cbv zeta.
      specialize (Hg (proj2 (full_iff xs []) eq_refl)).
      rewrite size_vector_of in Hg. rewrite Hg.
      cbn [construct]. rewrite relocation_failure_None by done. by eexists.
    - rewrite EmplaceBack_room by done. cbn [construct]. by eexists. }
  exists v'. split; [done|]. by apply PushBack_returns.
Qed.

Lemma Vector_destructor_defined v :
  well_formed v = true -> Vector_destructor v = Some tt.
Proof.
  intros (xs & rest & -> & _)%well_formed_vector. apply Vector_destructor_spec.
Qed.

(** C2, as amended.  Move construction leaves its source in the state of a
    default-constructed vector, so with size 0.  Move assignment between two
    vectors exchanges their storage and size: the source then holds what the
    target held, and its size is the target's former size; move assignment
    of a vector to itself changes nothing.  In each case the moved-from
    vector can be destroyed, and a PushBack on it whose constructor,
    relocation and allocation succeed returns with the value appended. *)
Theorem moved_from_vector (this rhs : Vector) (x : T) :
  well_formed this = true ->
  (forall y, relocation_throws y = false) ->
  grants 1 = true ->
  (size_ this = Capacity this -> grants (growth (size_ this)) = true) ->
  Vector_move rhs = (rhs, Vector_default)
  /\ size_ Vector_default = 0
  /\ move_assign (Distinct this rhs) = Distinct rhs this
  /\ move_assign (Same this) = Same this
  /\ forall m, m = Vector_default \/ m = this ->
       well_formed m = true
       /\ Vector_destructor m = Some tt
       /\ exists m', PushBack (Args (Some x)) m = Normal m'
                     /\ elements m' = elements m ++ [x].
Proof.
  intros Hwf Hr H1 Hg.
  split; [by destruct rhs as [[b c] s]|].
  split; [done|].
  split; [by destruct this as [[b c] s], rhs as [[b' c'] s']|].
  split; [done|].
  intros m [->| ->].
  - split; [apply well_formed_default|]. split; [done|].
    destruct (PushBack_ok Vector_default x) as (m' & Hp & _ & He & _);
      [apply well_formed_default|done|done|].
    by exists m'.
  - split; [done|]. split; [by apply Vector_destructor_defined|].
    destruct (PushBack_ok this x) as (m' & Hp & _ & He & _); [done|done|done|].
    by exists m'.
Qed.

Lemma growth_max n : growth n = N.max 1 (2 * n).
Proof. unfold growth. destruct (N.eqb_spec n 0); lia. Qed.

(* how 2^ceil(log2 k) moves from k to k + 1 *)
Lemma pow2_log2_up_succ k :
  1 <= k ->
  2 ^ N.log2_up (k + 1) = if k =? 2 ^ N.log2_up k then 2 * k else 2 ^ N.log2_up k.
Proof.
  intros Hk. destruct (N.eqb_spec k (2 ^ N.log2_up k)) as [Heq|Hne].
  - remember (N.log2_up k) as L eqn:HL. clear HL. subst k.
    rewrite N.add_1_r, N.log2_up_succ_pow2 by lia. by rewrite N.pow_succ_r'.
  - assert (1 < k) as Hk1.
    { destruct (N.eq_dec k 1) as [->|]; [|lia]. by rewrite N.log2_up_1 in Hne. }
    pose proof (N.log2_up_spec k Hk1) as [Hlo Hhi].
    pose proof (N.log2_up_pos k Hk1) as Hpos.
    f_equal. apply N.log2_up_unique; [done|]. lia.
Qed.

(* the capacity after a run of pushes that all return *)
Lemma push_all_returns (ys : list T) :
  forall v v' : Vector,
  well_formed v = true ->
  1 <= size_ v ->
  Capacity v = 2 ^ N.log2_up (size_ v) ->
  push_all ys v = Normal v' ->
  elements v' = elements v ++ ys
  /\ size_ v' = size_ v + N.of_nat (length ys)
  /\ Capacity v' = 2 ^ N.log2_up (size_ v').
Proof.
  induction ys as [|y ys IH]; intros v v' Hwf H1 Hcap.
  - cbn [push_all length]. intros [= <-]. rewrite app_nil_r, N.add_0_r. done.
  - cbn [push_all].
    destruct (PushBack (Args (Some y)) v) as [v1|e v1|] eqn:Hp; [|done|done].
    destruct (PushBack_returns v v1 y Hwf Hp) as (Hwf1 & He1 & Hs1 & Hc1).
    intros Hrest.
    destruct (IH v1 v' Hwf1) as (He' & Hs' & Hc'); [lia| |done|].
    + rewrite Hc1, Hs1, (pow2_log2_up_succ (size_ v) H1), Hcap.
      destruct (N.eqb_spec (size_ v) (2 ^ N.log2_up (size_ v))); [|done].
      rewrite growth_max. lia.
    + split; [by rewrite He', He1, <- app_assoc|].
      split; [rewrite Hs', Hs1; cbn [length]; lia|done].
Qed.

(* a run of pushes returns when nothing throws and the heap grants every
   request up to the final capacity *)
Lemma push_all_from (ys : list T) :
  forall v : Vector,
  well_formed v = true ->
  1 <= size_ v ->
  Capacity v = 2 ^ N.log2_up (size_ v) ->
  (forall y, relocation_throws y = false) ->
  (forall c, c <= 2 ^ N.log2_up (size_ v + N.of_nat (length ys)) -> grants c = true) ->
  exists v', push_all ys v = Normal v'.
Proof.
  induction ys as [|y ys IH]; intros v Hwf H1 Hcap Hr Hg.
  - by exists v.
  - cbn [push_all]. cbn [length] in Hg.
    assert (Hmono : 2 ^ N.log2_up (size_ v + 1)
                    <= 2 ^ N.log2_up (size_ v + N.of_nat (S (length ys)))).
    { apply N.pow_le_mono_r; [done|]. apply N.log2_up_le_mono. lia. }
    pose proof (pow2_log2_up_succ (size_ v) H1) as Hstep.
    destruct (PushBack_ok v y Hwf) as (v1 & Hp & Hwf1 & He1 & Hs1 & Hc1); [|done|].
    { intros Hfull. apply Hg. rewrite growth_max.
      destruct (N.eqb_spec (size_ v) (2 ^ N.log2_up (size_ v))); [lia|congruence]. }
    rewrite Hp. apply IH; [done|lia| |done|].
    + rewrite Hc1, Hs1, Hstep, Hcap.
      destruct (N.eqb_spec (size_ v) (2 ^ N.log2_up (size_ v))); [|done].
      rewrite growth_max. lia.
    + intros c Hc. apply Hg. rewrite Hs1 in Hc.
      by replace (size_ v + N.of_nat (S (length ys)))
        with (size_ v + 1 + N.of_nat (length ys)) by lia.
Qed.

(** C3. Start from a default-constructed vector and call PushBack n > 0
    times in a row, each time with a constructor that succeeds.  Whenever
    the n calls all return, the size is n, the capacity is 2^ceil(log2 n),
    and the vector holds the pushed values in order.  They do all return
    when relocation does not throw and the heap grants every request up to
    that capacity.  A PushBack on a full vector asks for max(1, 2 * size)
    slots, and that is the capacity afterwards. *)
Theorem push_back_doubles (xs : list T) :
  xs <> [] ->
  (forall v, push_all xs Vector_default = Normal v ->
     size_ v = N.of_nat (length xs)
     /\ Capacity v = 2 ^ N.log2_up (N.of_nat (length xs))
     /\ elements v = xs)
  /\ ((forall y, relocation_throws y = false) ->
      (forall c, c <= 2 ^ N.log2_up (N.of_nat (length xs)) -> grants c = true) ->
      exists v, push_all xs Vector_default = Normal v)
  /\ (forall (v v' : Vector) (x : T),
        well_formed v = true -> size_ v = Capacity v ->
        PushBack (Args (Some x)) v = Normal v' ->
        Capacity v' = N.max 1 (2 * size_ v)).
Proof.
  intros Hne. destruct xs as [|x ys]; [done|]. clear Hne.
  split; [|split].
  - intros v. cbn [push_all].
    destruct (PushBack (Args (Some x)) Vector_default) as [v1|e v1|] eqn:Hp; [|done|done].
    destruct (PushBack_returns Vector_default v1 x well_formed_default Hp) as (Hwf1 & He1 & Hs1 & Hc1).
    cbn in Hs1, Hc1, He1. intros Hrest.
    destruct (push_all_returns ys v1 v Hwf1) as (He & Hs & Hc); [lia| |done|].
    { by rewrite Hc1, Hs1. }
    split; [rewrite Hs, Hs1; cbn [length]; lia|].
    split; [|by rewrite He, He1].
    rewrite Hc, Hs, Hs1. cbn [length]. f_equal. f_equal. lia.
  - intros Hr Hg. cbn [push_all].
    destruct (PushBack_ok Vector_default x) as (v1 & Hp & Hwf1 & He1 & Hs1 & Hc1);
      [apply well_formed_default| |done|].
    { intros _. apply Hg. cbn [length].
      pose proof (N.log2_up_nonneg (N.of_nat (S (length ys)))).
      assert (2 ^ 0 <= 2 ^ N.log2_up (N.of_nat (S (length ys))))
        by (apply N.pow_le_mono_r; lia).
      done. }
    rewrite Hp. cbn in Hs1, Hc1.
    apply push_all_from; [done|lia| |done|].
    + by rewrite Hc1, Hs1.
    + intros c Hc. apply Hg. rewrite Hs1 in Hc. cbn [length].
      by replace (N.of_nat (S (length ys))) with (1 + N.of_nat (length ys)) by lia.
  - intros v v' y Hwf Hfull Hp.
    destruct (PushBack_returns v v' y Hwf Hp) as (_ & _ & _ & Hc).
    by rewrite Hc, Hfull, N.eqb_refl, growth_max.
Qed.

(* the two strategies of copy assignment between two vectors *)
Lemma copy_assign_strategies (this rhs : Vector) :
  well_formed this = true -> well_formed rhs = true ->
  (Capacity this < size_ rhs ->
     (exists this', copy_assign (Distinct this rhs) = Normal this'
                    /\ well_formed this' = true
                    /\ elements this' = elements rhs
                    /\ size_ this' = size_ rhs
                    /\ Capacity this' = size_ rhs)
     \/ (exists e, copy_assign (Distinct this rhs) = Throws e this))
  /\ (size_ rhs <= Capacity this ->
     (exists this', copy_assign (Distinct this rhs) = Normal this'
                    /\ well_formed this' = true
                    /\ elements this' = elements rhs
                    /\ size_ this' = size_ rhs
                    /\ Capacity this' = Capacity this)
     \/ (exists e this' k,
           copy_assign (Distinct this rhs) = Throws e this'
           /\ well_formed this' = true
           /\ size_ this' = size_ this
           /\ Capacity this' = Capacity this
           /\ elements this' = take k (elements rhs) ++ drop k (elements this))).
Proof.
  intros (rest & Hv & Hfit)%well_formed_inv (rrest & Hr & Hrfit)%well_formed_inv.
  set (xs := elements this) in *. set (zs := elements rhs) in *.
  clearbody xs zs. subst this rhs.
  rewrite !size_vector_of, !Capacity_vector_of. split; intros Hcmp.
  - rewrite copy_assign_realloc by (done || lia).
    destruct (grants _) eqn:Hg; [|right; by eexists].
    destruct (first_throw _ zs); [right; by eexists|].
    left. eexists. split; [done|].
    split; [apply well_formed_vector_of; len_lia|].
    rewrite elements_vector_of, size_vector_of, Capacity_vector_of.
    cbn [length]. repeat split. lia.
  - rewrite copy_assign_reuse by (done || lia). cbv zeta.
    destruct (first_throw2 _ _ _) as [k|] eqn:Hk.
    { apply first_throw2_lt in Hk as [Hkx Hkz]. rewrite length_take in Hkx, Hkz.
      right. exists element_error, (vector_of (take k zs ++ drop k xs) rest), k.
      assert (length (take k zs ++ drop k xs) = length xs) as Hl by len_lia.
      split; [done|].
      split; [apply well_formed_vector_of; unfold fits in *; by rewrite Hl|].
      rewrite elements_vector_of, size_vector_of, Capacity_vector_of, Hl. done. }
    destruct (Nat.ltb_spec (length zs) (length xs)) as [Hlt|Hge].
    { left. eexists. split; [done|].
      split; [apply well_formed_vector_of; len_lia|].
      rewrite elements_vector_of, size_vector_of, Capacity_vector_of.
      repeat split. len_lia. }
    destruct (first_throw _ (drop _ zs)) as [k|] eqn:Hk2.
    { apply first_throw_lt in Hk2. rewrite length_drop in Hk2.
      right. exists element_error,
               (vector_of (take (length xs) zs) (replicate k None ++ drop k rest)),
               (length xs).
      split; [done|].
      split; [apply well_formed_vector_of; len_lia|].
      rewrite elements_vector_of, size_vector_of, Capacity_vector_of.
      rewrite drop_all, app_nil_r. repeat split; len_lia. }
    left. eexists. split; [done|].
    split; [apply well_formed_vector_of; len_lia|].
    rewrite elements_vector_of, size_vector_of, Capacity_vector_of.
    repeat split. len_lia.
Qed.

Lemma spare_vector_of xs rest : spare (vector_of xs rest) = rest.
Proof.
  unfold spare, vector_of. cbn [size_ data_ buffer_]. rewrite Nat2N.id.
  rewrite drop_app_length'; [done|by rewrite length_fmap].
Qed.

(* copy assignment between two vectors in full: which strategy runs, when
   it returns and what it throws, and every slot of the target afterwards *)
Lemma copy_assign_outcomes (this rhs : Vector) :
  well_formed this = true -> well_formed rhs = true ->
  (Capacity this < size_ rhs ->
     copy_assign (Distinct this rhs)
     = if grants (size_ rhs) then
         match first_throw (copy_throws E) (elements rhs) with
         | None => Normal (vector_of (elements rhs) [])
         | Some _ => Throws element_error this
         end
       else Throws bad_alloc this)
  /\ (size_ rhs <= Capacity this ->
      copy_assign (Distinct this rhs)
      = let xs := elements this in
        let zs := elements rhs in
        let mn := (length xs `min` length zs)%nat in
        match first_throw2 (copy_assign_throws E) (take mn xs) (take mn zs) with
        | Some k => Throws element_error (vector_of (take k zs ++ drop k xs) (spare this))
        | None =>
            if (length zs <? length xs)%nat then
              Normal (vector_of zs (replicate (length xs - length zs) None ++ spare this))
            else
              match first_throw (copy_throws E) (drop (length xs) zs) with
              | None => Normal (vector_of zs (drop (length zs - length xs) (spare this)))
              | Some k => Throws element_error
                            (vector_of (take (length xs) zs)
                                       (replicate k None ++ drop k (spare this)))
              end
        end)
  /\ (forall this', copy_assign (Distinct this rhs) = Normal this' ->
        well_formed this' = true
        /\ elements this' = elements rhs
        /\ size_ this' = size_ rhs
        /\ Capacity this'
           = if Capacity this <? size_ rhs then size_ rhs else Capacity this)
  /\ (forall e this', copy_assign (Distinct this rhs) = Throws e this' ->
        well_formed this' = true
        /\ size_ this' = size_ this
        /\ Capacity this' = Capacity this
        /\ (Capacity this < size_ rhs -> this' = this)
        /\ exists k, elements this' = take k (elements rhs) ++ drop k (elements this)).
Proof.
  intros Hwf Hwr.
  destruct (copy_assign_strategies this rhs Hwf Hwr) as [H1 H2].
  pose proof Hwf as (rest & Hv & Hfit)%well_formed_inv.
  pose proof Hwr as (rrest & Hr & Hrfit)%well_formed_inv.
  split; [|split; [|split]].
  - intros Hlt. rewrite Hv, Hr in Hlt |- *.
    rewrite !elements_vector_of, size_vector_of.
    rewrite Capacity_vector_of, size_vector_of in Hlt.
    by rewrite copy_assign_realloc by (done || lia).
  - intros Hle. rewrite Hv, Hr in Hle |- *.
    rewrite !elements_vector_of, spare_vector_of.
    rewrite Capacity_vector_of, size_vector_of in Hle.
    by rewrite copy_assign_reuse by (done || lia).
  - intros this' Hn.
    destruct (N.ltb_spec (Capacity this) (size_ rhs)) as [Hlt|Hge].
    + destruct (H1 Hlt) as [(v' & Hv' & Hp)|(e & He)]; [|congruence].
      rewrite Hv' in Hn. injection Hn as <-. exact Hp.
    + destruct (H2 Hge) as [(v' & Hv' & Hp)|(e & v' & k & He & _)]; [|congruence].
      rewrite Hv' in Hn. injection Hn as <-. exact Hp.
  - intros e this' Ht.
    destruct (N.lt_ge_cases (Capacity this) (size_ rhs)) as [Hlt|Hge].
    + destruct (H1 Hlt) as [(v' & Hv' & Hp)|(e' & He)]; [congruence|].
      rewrite He in Ht. injection Ht as <- <-.
      split; [done|]. split; [done|]. split; [done|]. split; [done|].
      exists O. by rewrite take_0, drop_0.
    + destruct (H2 Hge) as [(v' & Hv' & Hp)|(e' & v' & k & He & Hw & Hs & Hc & Hel)];
        [congruence|].
      rewrite He in Ht. injection Ht as <- <-.
      split; [done|]. split; [done|]. split; [done|]. split; [lia|].
      by exists k.
Qed.

Lemma shift_never_throws y xs :
  (forall a b, move_assign_throws E a b = false) ->
  shift y xs = (false, xs ++ [hole y xs]).
Proof.
  intros Hn. pose proof (shift_never y xs Hn) as H1.
  pose proof (shift_ok y xs H1) as H2.
  destruct (shift y xs) as [t r]. cbn [fst snd] in *. by subst.
Qed.

(* what an Emplace that returns has done *)
Lemma Emplace_returns (v v' : Vector) (pos p : N) (args : ctor_args) :
  well_formed v = true ->
  pos <= size_ v ->
  Emplace pos args v = Normal (v', p) ->
  exists x, construct args (buffer_ (data_ v)) = Normal x
            /\ p = pos
            /\ well_formed v' = true
            /\ elements v' = take (N.to_nat pos) (elements v)
                             ++ x :: drop (N.to_nat pos) (elements v)
            /\ size_ v' = size_ v + 1.
Proof.
  intros (xs & rest & -> & Hfit)%well_formed_vector Hpos.
  rewrite size_vector_of in Hpos |- *. rewrite elements_vector_of.
  cbn [vector_of data_ buffer_].
  set (a := take (N.to_nat pos) xs). set (c := drop (N.to_nat pos) xs).
  assert (Hxs : xs = a ++ c) by (symmetry; apply take_drop).
  assert (Hla : pos = N.of_nat (length a)) by (unfold a; rewrite length_take; lia).
  clearbody a c. subst xs pos.
  destruct rest as [|s rest].
  - rewrite Emplace_full by done. cbv zeta.
    pose proof (growth_gt (N.of_nat (length (a ++ c)))) as Hgt.
    destruct (grants _) eqn:Hg; [|done]. apply (grants_growth _ _ Hfit) in Hg.
    destruct (construct args _) as [x|e u|]; [|done|done].
    destruct (relocation_failure a); [done|].
    destruct (relocation_failure c); [done|].
    intros [= <- <-]. exists x. split; [done|]. split; [done|].
    split; [apply well_formed_vector_of; len_lia|].
    rewrite elements_vector_of, size_vector_of. split; [done|len_lia].
  - destruct (decide (c = [])) as [->|Hne].
    + rewrite app_nil_r in *. rewrite Emplace_end by done.
      destruct (construct args _) as [x|e u|]; [|done|done].
      intros [= <- <-]. exists x. split; [done|]. split; [done|].
      split; [apply well_formed_vector_of; len_lia|].
      rewrite elements_vector_of, size_vector_of. split; [done|len_lia].
    + destruct (exists_last Hne) as (m & l & ->).
      rewrite Emplace_inside by done.
      destruct (construct args _) as [x|e u|]; [|done|done].
      destruct (move_ctor_throws l); [done|].
      destruct (shift _ _).1; [done|].
      destruct (move_assign_throws E _ x); [done|].
      intros [= <- <-]. exists x. split; [done|]. split; [done|].
      split; [apply well_formed_vector_of; len_lia|].
      rewrite elements_vector_of, size_vector_of. split; [done|len_lia].
Qed.

(* an Emplace in which nothing throws and the heap grants the request returns *)
Lemma Emplace_ok (v : Vector) (pos : N) (args : ctor_args) (x : T) :
  well_formed v = true ->
  pos <= size_ v ->
  construct args (buffer_ (data_ v)) = Normal x ->
  (size_ v = Capacity v -> grants (growth (size_ v)) = true) ->
  (forall y, relocation_throws y = false) ->
  (forall y, move_ctor_throws y = false) ->
  (forall a b, move_assign_throws E a b = false) ->
  exists v', Emplace pos args v = Normal (v', pos).
Proof.
  intros (xs & rest & -> & Hfit)%well_formed_vector Hpos Hc Hg Hr Hm Ha.
  rewrite size_vector_of in Hpos, Hg. cbn [vector_of data_ buffer_] in Hc.
  set (a := take (N.to_nat pos) xs). set (c := drop (N.to_nat pos) xs).
  assert (Hxs : xs = a ++ c) by (symmetry; apply take_drop).
  assert (Hla : pos = N.of_nat (length a)) by (unfold a; rewrite length_take; lia).
  clearbody a c. subst xs pos.
  destruct rest as [|s rest].
  - rewrite Emplace_full by done. cbv zeta.
    rewrite Hg by (by apply full_iff). rewrite Hc.
    rewrite !relocation_failure_None by done. by eexists.
  - destruct (decide (c = [])) as [->|Hne].
    + rewrite app_nil_r in *. rewrite Emplace_end by done. rewrite Hc. by eexists.
    + destruct (exists_last Hne) as (m & l & ->).
      rewrite Emplace_inside by done. rewrite Hc, Hm.
      rewrite shift_never_throws by done. cbn [fst]. rewrite Ha. by eexists.
Qed.

(* what an Erase that returns has done *)
Lemma Erase_returns (v v' : Vector) (pos p : N) :
  well_formed v = true ->
  pos < size_ v ->
  Erase pos v = Normal (v', p) ->
  p = pos
  /\ well_formed v' = true
  /\ elements v' = take (N.to_nat pos) (elements v)
                   ++ drop (S (N.to_nat pos)) (elements v)
  /\ size_ v' = size_ v - 1
  /\ Capacity v' = Capacity v.
Proof.
  intros (xs & rest & -> & Hfit)%well_formed_vector Hpos.
  rewrite size_vector_of in Hpos |- *. rewrite elements_vector_of.
  set (a := take (N.to_nat pos) xs).
  assert (Hla : pos = N.of_nat (length a)) by (unfold a; rewrite length_take; lia).
  destruct (drop (N.to_nat pos) xs) as [|y c] eqn:Hd.
  { apply (f_equal length) in Hd. rewrite length_drop in Hd. cbn [length] in Hd. lia. }
  assert (Hxs : xs = a ++ y :: c) by (rewrite <- Hd; symmetry; apply take_drop).
  assert (Hc : drop (S (N.to_nat pos)) xs = c).
  { replace (S (N.to_nat pos)) with (N.to_nat pos + 1)%nat by lia.
    by rewrite <- drop_drop, Hd. }
  rewrite Hc. clearbody a. clear Hd Hc. subst xs pos.
  rewrite Erase_spec by done.
  destruct (shift y c).1; [done|]. intros [= <- <-].
  split; [done|]. split; [apply well_formed_vector_of; len_lia|].
  rewrite elements_vector_of, size_vector_of, !Capacity_vector_of.
  repeat split; len_lia.
Qed.

(* an Erase in which no move assignment throws returns *)
Lemma Erase_ok (v : Vector) (pos : N) :
  well_formed v = true ->
  pos < size_ v ->
  (forall a b, move_assign_throws E a b = false) ->
  exists v', Erase pos v = Normal (v', pos).
Proof.
  intros (xs & rest & -> & Hfit)%well_formed_vector Hpos Ha.
  rewrite size_vector_of in Hpos.
  set (a := take (N.to_nat pos) xs).
  assert (Hla : pos = N.of_nat (length a)) by (unfold a; rewrite length_take; lia).
  destruct (drop (N.to_nat pos) xs) as [|y c] eqn:Hd.
  { apply (f_equal length) in Hd. rewrite length_drop in Hd. cbn [length] in Hd. lia. }
  assert (Hxs : xs = a ++ y :: c) by (rewrite <- Hd; symmetry; apply take_drop).
  clearbody a. clear Hd. subst xs pos.
  rewrite Erase_spec by done. rewrite shift_never_throws by done. by eexists.
Qed.

(* Emplace at k, then Erase at k, when both return *)
Lemma Emplace_Erase (v v1 v2 : Vector) (k p1 p2 : N) (args : ctor_args) :
  well_formed v = true ->
  k <= size_ v ->
  Emplace k args v = Normal (v1, p1) ->
  Erase k v1 = Normal (v2, p2) ->
  elements v2 = elements v /\ size_ v2 = size_ v.
Proof.
  intros Hwf Hk He Hr.
  destruct (Emplace_returns v v1 k p1 args Hwf Hk He) as (x & _ & _ & Hwf1 & Hel1 & Hs1).
  destruct (Erase_returns v1 v2 k p2 Hwf1) as (_ & _ & Hel2 & Hs2 & _); [lia|done|].
  split; [|lia].
  assert (Hlen : length (take (N.to_nat k) (elements v)) = N.to_nat k).
  { pose proof (length_elements v Hwf). rewrite length_take. lia. }
  rewrite Hel2, Hel1.
  rewrite take_app_length' by done.
  replace (S (N.to_nat k)) with (N.to_nat k + 1)%nat by lia.
  rewrite <- drop_drop, drop_app_length' by done.
  cbn [drop]. rewrite drop_0. apply take_drop.
Qed.

(** C5. For a vector v and an offset k <= size: whenever an insertion at
    begin() + k (Emplace with any constructor arguments, or Insert of any
    value) returns and the erasure at begin() + k that follows returns, the
    vector shows the element values and the size that v showed before the
    insertion.  Both do return when no element operation throws and the
    heap grants what growth asks for. *)
Theorem insert_then_erase (v : Vector) (k : N) :
  well_formed v = true ->
  k <= size_ v ->
  (forall args v1 v2 p1 p2,
     Emplace k args v = Normal (v1, p1) ->
     Erase k v1 = Normal (v2, p2) ->
     elements v2 = elements v /\ size_ v2 = size_ v)
  /\ (forall x v1 v2 p1 p2,
        Insert k x v = Normal (v1, p1) ->
        Erase k v1 = Normal (v2, p2) ->
        elements v2 = elements v /\ size_ v2 = size_ v)
  /\ ((size_ v = Capacity v -> grants (growth (size_ v)) = true) ->
      (forall y, relocation_throws y = false) ->
      (forall y, move_ctor_throws y = false) ->
      (forall a b, move_assign_throws E a b = false) ->
      forall args x,
        construct args (buffer_ (data_ v)) = Normal x ->
        exists v1 v2, Emplace k args v = Normal (v1, k)
                      /\ Erase k v1 = Normal (v2, k)).
Proof.
  intros Hwf Hk. split; [|split].
  - intros args v1 v2 p1 p2. by apply Emplace_Erase.
  - intros x v1 v2 p1 p2. by apply Emplace_Erase.
  - intros Hg Hr Hm Ha args x Hc.
    destruct (Emplace_ok v k args x) as [v1 He]; try done.
    destruct (Emplace_returns v v1 k k args Hwf Hk He) as (_ & _ & _ & Hwf1 & _ & Hs1).
    destruct (Erase_ok v1 k) as [v2 Hr2]; [done|lia|done|].
    by exists v1, v2.
Qed.

Lemma Vector_index_live v i x :
  Vector_index v i = Some x ->
  i < size_ v /\ live (buffer_ (data_ v)) (N.to_nat i) = Some x.
Proof.
  unfold Vector_index, RawMemory_index.
  destruct (N.ltb_spec i (size_ v)); [|done].
  destruct (i <? capacity_ (data_ v)); [|done]. done.
Qed.

(* what an Insert of a reference to the vector's own element [i] has done
   when it returns *)
Lemma Insert_element_returns (v v' : Vector) (pos p i : N) (x : T) :
  well_formed v = true ->
  pos <= size_ v ->
  Vector_index v i = Some x ->
  Insert_element pos i v = Normal (v', p) ->
  p = pos
  /\ well_formed v' = true
  /\ elements v' = take (N.to_nat pos) (elements v)
                   ++ x :: drop (N.to_nat pos) (elements v).
Proof.
  intros Hwf Hpos [_ Hi]%Vector_index_live He.
  destruct (Emplace_returns v v' pos p (CopyOfElement i) Hwf Hpos He)
    as (x' & Hc & Hp & Hwf' & Hel & _).
  cbn [construct] in Hc. rewrite Hi in Hc.
  destruct (copy_throws E x); [done|]. injection Hc as <-. done.
Qed.

(* it returns when nothing throws *)
Lemma Insert_element_ok (v : Vector) (pos i : N) (x : T) :
  well_formed v = true ->
  pos <= size_ v ->
  Vector_index v i = Some x ->
  copy_throws E x = false ->
  (size_ v = Capacity v -> grants (growth (size_ v)) = true) ->
  (forall y, relocation_throws y = false) ->
  (forall y, move_ctor_throws y = false) ->
  (forall a b, move_assign_throws E a b = false) ->
  exists v', Insert_element pos i v = Normal (v', pos).
Proof.
  intros Hwf Hpos [_ Hi]%Vector_index_live Hx Hg Hr Hm Ha.
  apply (Emplace_ok v pos (CopyOfElement i) x); try done.
  cbn [construct]. by rewrite Hi, Hx.
Qed.

(** C7. Reserve(new_capacity) returns the vector unchanged when
    new_capacity <= capacity.  Otherwise, whenever it returns, the capacity
    is exactly new_capacity while the size and the sequence of live element
    values are as before, for every new_capacity; the block then has the
    slots that new_capacity * sizeof(T) bytes, taken in size_t, hold, and
    the vector is well formed when that product does not wrap.  Reserve does
    return when the product does not wrap, the heap grants the request and
    relocation does not throw.  When the product wraps and the block
    obtained is too short for the elements, relocation without a throwing
    element runs past the block. *)
Theorem Reserve_capacity (v : Vector) (new_capacity : N) :
  well_formed v = true ->
  (new_capacity <= Capacity v -> Reserve new_capacity v = Normal v)
  /\ (Capacity v < new_capacity ->
      forall v', Reserve new_capacity v = Normal v' ->
        Capacity v' = new_capacity
        /\ size_ v' = size_ v
        /\ elements v' = elements v
        /\ length (buffer_ (data_ v')) = slots new_capacity
        /\ (overflows new_capacity = false -> well_formed v' = true))
  /\ (Capacity v < new_capacity ->
      overflows new_capacity = false ->
      grants new_capacity = true ->
      (forall y, relocation_throws y = false) ->
      exists v', Reserve new_capacity v = Normal v')
  /\ (Capacity v < new_capacity ->
      new_capacity < SIZE_MOD ->
      grants new_capacity = true ->
      (forall y, relocation_throws y = false) ->
      (slots new_capacity < N.to_nat (size_ v))%nat ->
      Reserve new_capacity v = Undefined).
Proof.
  intros (rest & Hv & Hfit)%well_formed_inv.
  set (xs := elements v) in *. clearbody xs. subst v.
  rewrite Capacity_vector_of, size_vector_of.
  split; [|split; [|split]].
  - intros Hle. rewrite Reserve_spec by (done || apply overflows_max_size; len_lia).
    by destruct (N.leb_spec new_capacity (N.of_nat (length xs + length rest))); [|lia].
  - intros Hlt v'.
    destruct (N.lt_ge_cases new_capacity SIZE_MOD) as [Hsz|Hsz];
      [|by rewrite Reserve_large].
    rewrite Reserve_slots by done.
    destruct (N.leb_spec new_capacity (N.of_nat (length xs + length rest))); [lia|].
    destruct (grants new_capacity) eqn:Hg; [|done].
    case_decide as Hm; [|by destruct (relocation_failure _)].
    destruct (relocation_failure xs); [done|].
    intros [= <-].
    rewrite elements_block_vector, ?elements_vector_of.
    split; [done|]. split; [done|]. split; [done|].
    split.
    { cbn [block_vector data_ buffer_]. rewrite length_app, length_fmap, length_replicate. lia. }
    intros Hov. apply grants_le in Hg; [|done].
    rewrite slots_small by done.
    rewrite block_vector_eq by (rewrite length_replicate; lia).
    apply well_formed_vector_of. len_lia.
  - intros Hlt Hov Hg Hr. rewrite Reserve_spec by done.
    destruct (N.leb_spec new_capacity (N.of_nat (length xs + length rest))); [lia|].
    rewrite Hg, relocation_failure_None by done. by eexists.
  - intros Hlt Hsz Hg Hr Hshort. rewrite Nat2N.id in Hshort.
    rewrite Reserve_slots by done.
    destruct (N.leb_spec new_capacity (N.of_nat (length xs + length rest))); [lia|].
    rewrite Hg. case_decide; [lia|].
    by rewrite relocation_failure_None.
Qed.

(** C9. PopBack on an empty vector returns and leaves the vector as it was.
    PopBack on a non-empty vector returns; it destroys the object in the
    last live slot, size - 1, and changes no other slot; the size drops by
    one, the capacity stays, and the remaining element values are the
    former ones without the last. *)
Theorem PopBack_last (v : Vector) :
  (size_ v = 0 -> PopBack v = Normal v)
  /\ (well_formed v = true -> 0 < size_ v ->
      exists v', PopBack v = Normal v'
                 /\ is_Some (live (buffer_ (data_ v)) (N.to_nat (size_ v) - 1))
                 /\ buffer_ (data_ v') = <[(N.to_nat (size_ v) - 1)%nat := None]>
                                           (buffer_ (data_ v))
                 /\ size_ v' = size_ v - 1
                 /\ Capacity v' = Capacity v
                 /\ elements v' = take (N.to_nat (size_ v) - 1) (elements v)).
Proof.
  split.
  - intros H0. unfold PopBack. by rewrite H0.
  - intros (rest & Hv & Hfit)%well_formed_inv.
    set (xs := elements v) in *. clearbody xs. subst v.
    rewrite size_vector_of. intros Hpos.
    destruct (decide (xs = [])) as [->|Hne]; [cbn [length] in Hpos; lia|].
    destruct (exists_last Hne) as (ys & x & ->).
    rewrite PopBack_snoc by done. eexists. split; [done|].
    assert (Hi : (N.to_nat (N.of_nat (length (ys ++ [x]))) - 1)%nat
                 = length (Some <$> ys)) by len_lia.
    rewrite Hi. cbn [vector_of data_ buffer_].
    rewrite fmap_app, <- app_assoc. cbn [fmap list_fmap app].
    rewrite live_middle, insert_middle, length_fmap.
    split; [by eexists|]. split; [done|].
    rewrite size_vector_of, !Capacity_vector_of, !elements_vector_of.
    split; [len_lia|]. split; [len_lia|].
    by rewrite take_app_length.
Qed.

(** C10. The operations that shrink a vector keep its storage: Resize to a
    size not above the current one, PopBack, and Erase each leave the
    capacity as it was, whether Erase returns or a move assignment throws
    in it. *)
Theorem shrinking_keeps_capacity (v : Vector) (new_size pos : N) :
  well_formed v = true ->
  (new_size <= size_ v ->
     exists v', Resize new_size v = Normal v'
                /\ size_ v' = new_size
                /\ elements v' = take (N.to_nat new_size) (elements v)
                /\ Capacity v' = Capacity v)
  /\ (exists v', PopBack v = Normal v' /\ Capacity v' = Capacity v)
  /\ (pos < size_ v ->
      leaves fst (fun v' => Capacity v' = Capacity v) (Erase pos v)).
Proof.
  intros (rest & Hv & Hfit)%well_formed_inv.
  set (xs := elements v) in *. clearbody xs. subst v.
  rewrite size_vector_of. split; [|split].
  - intros Hle.
    set (a := take (N.to_nat new_size) xs). set (b := drop (N.to_nat new_size) xs).
    assert (Hxs : xs = a ++ b) by (symmetry; apply take_drop).
    assert (Hla : new_size = N.of_nat (length a)) by (unfold a; rewrite length_take; lia).
    clearbody a b. subst xs new_size.
    rewrite Resize_shrink by done.
    eexists. split; [done|].
    rewrite size_vector_of, !Capacity_vector_of, elements_vector_of.
    split; [done|]. split; [done|]. len_lia.
  - destruct (decide (xs = [])) as [->|Hne].
    + rewrite PopBack_nil. by eexists.
    + destruct (exists_last Hne) as (ys & x & ->).
      rewrite PopBack_snoc by done. eexists. split; [done|].
      rewrite !Capacity_vector_of. len_lia.
  - intros Hpos.
    set (a := take (N.to_nat pos) xs).
    assert (Hla : pos = N.of_nat (length a)) by (unfold a; rewrite length_take; lia).
    destruct (drop (N.to_nat pos) xs) as [|y c] eqn:Hd.
    { apply (f_equal length) in Hd. rewrite length_drop in Hd. cbn [length] in Hd. lia. }
    assert (Hxs : xs = a ++ y :: c) by (rewrite <- Hd; symmetry; apply take_drop).
    clearbody a. clear Hd. subst xs pos.
    rewrite Erase_spec by done.
    pose proof (shift_length y c) as Hlen.
    destruct (shift y c) as [[] r]; cbn [fst snd leaves] in *;
      rewrite !Capacity_vector_of; len_lia.
Qed.

Lemma sound_vector_of xs rest : fits xs rest -> sound (vector_of xs rest).
Proof.
  intros Hfit. split; [by apply well_formed_vector_of|].
  rewrite size_vector_of, Capacity_vector_of. lia.
Qed.

Lemma well_formed_sound v : well_formed v = true -> sound v.
Proof. intros H. split; [done|by apply well_formed_capacity]. Qed.

Lemma construct_defined args xs rest :
  refers_inside args (vector_of xs rest) = true ->
  (exists x, construct args ((Some <$> xs) ++ rest) = Normal x)
  \/ construct args ((Some <$> xs) ++ rest) = Throws element_error tt.
Proof.
  destruct args as [[x|]|i]; cbn [refers_inside construct].
  - intros _. left. by exists x.
  - intros _. by right.
  - rewrite size_vector_of. intros Hi%N.ltb_lt.
    destruct (lookup_lt_is_Some_2 xs (N.to_nat i)) as [x Hx]; [lia|].
    unfold live. rewrite lookup_app_l by (rewrite length_fmap; lia).
    rewrite list_lookup_fmap, Hx. cbn.
    destruct (copy_throws E x); [by right|left; by exists x].
Qed.

Lemma Vector_sized_sound n :
  overflows n = false -> constructs sound (Vector_sized n).
Proof.
  intros Hov. rewrite Vector_sized_spec by done.
  destruct (N.eqb_spec n 0) as [->|Hn]; cbn [orb].
  - destruct (value_init E); cbn; apply sound_vector_of; len_lia.
  - destruct (grants n) eqn:Hg; [|done]. apply grants_le in Hg; [|done].
    destruct (value_init E); [|done]. apply sound_vector_of. len_lia.
Qed.

Lemma Vector_copy_sound other :
  well_formed other = true -> constructs sound (Vector_copy other).
Proof.
  intros (xs & rest & -> & Hfit)%well_formed_vector. rewrite Vector_copy_spec by done.
  destruct (_ || _); [|done]. destruct (first_throw _ _); [done|].
  apply sound_vector_of. len_lia.
Qed.

Lemma copy_assign_sound this rhs :
  well_formed this = true -> well_formed rhs = true ->
  leaves (fun v => v) sound (copy_assign (Distinct this rhs)).
Proof.
  intros Hwf Hwr.
  destruct (copy_assign_strategies this rhs Hwf Hwr) as [H1 H2].
  destruct (N.lt_ge_cases (Capacity this) (size_ rhs)) as [Hlt|Hge].
  - destruct (H1 Hlt) as [(v' & -> & Hw & _)|(e & ->)]; by apply well_formed_sound.
  - destruct (H2 Hge) as [(v' & -> & Hw & _)|(e & v' & k & -> & Hw & _)];
      by apply well_formed_sound.
Qed.

Lemma Reserve_sound n v :
  well_formed v = true -> overflows n = false ->
  leaves (fun v => v) sound (Reserve n v).
Proof.
  intros (xs & rest & -> & Hfit)%well_formed_vector Hov. rewrite Reserve_spec by done.
  destruct (_ <=? _); [by apply sound_vector_of|].
  destruct (grants n) eqn:Hg; [|by apply sound_vector_of]. apply grants_le in Hg; [|done].
  destruct (relocation_failure _); apply sound_vector_of; len_lia.
Qed.

Lemma Resize_sound n v :
  well_formed v = true -> overflows n = false ->
  leaves (fun v => v) sound (Resize n v).
Proof.
  intros (xs & rest & -> & Hfit)%well_formed_vector Hov.
  destruct (N.lt_ge_cases (N.of_nat (length xs)) n) as [Hlt|Hge].
  - rewrite Resize_grow by auto. cbv zeta.
    destruct (N.leb_spec n (N.of_nat (length xs + length rest))).
    + destruct (value_init E); apply sound_vector_of; len_lia.
    + destruct (grants n) eqn:Hg; [|by apply sound_vector_of].
      apply grants_le in Hg; [|done].
      destruct (relocation_failure _); [apply sound_vector_of; len_lia|].
      destruct (value_init E); apply sound_vector_of; len_lia.
  - set (a := take (N.to_nat n) xs). set (b := drop (N.to_nat n) xs).
    assert (Hxs : xs = a ++ b) by (symmetry; apply take_drop).
    assert (Hla : n = N.of_nat (length a)) by (unfold a; rewrite length_take; lia).
    clearbody a b. subst xs n.
    rewrite Resize_shrink by done. apply sound_vector_of. len_lia.
Qed.

Lemma EmplaceBack_sound args v :
  well_formed v = true -> refers_inside args v = true ->
  leaves fst sound (EmplaceBack args v).
Proof.
  intros (xs & rest & -> & Hfit)%well_formed_vector Hin.
  pose proof (construct_defined args xs rest Hin) as Hc.
  destruct rest as [|s rest].
  - rewrite EmplaceBack_full by done. cbv zeta.
    pose proof (growth_gt (N.of_nat (length xs))) as Hgt.
    destruct (grants _) eqn:Hg; [|by apply sound_vector_of]. apply (grants_growth _ _ Hfit) in Hg.
    destruct Hc as [[x ->]| ->]; [|by apply sound_vector_of].
    destruct (relocation_failure _); apply sound_vector_of; len_lia.
  - rewrite EmplaceBack_room by done.
    destruct Hc as [[x ->]| ->]; apply sound_vector_of; len_lia.
Qed.

Lemma PushBack_sound args v :
  well_formed v = true -> refers_inside args v = true ->
  leaves (fun v => v) sound (PushBack args v).
Proof.
  intros Hwf Hin. pose proof (EmplaceBack_sound args v Hwf Hin) as H.
  unfold PushBack. by destruct (EmplaceBack args v) as [[v' i]|e v'|].
Qed.

Lemma PopBack_sound v : well_formed v = true -> leaves (fun v => v) sound (PopBack v).
Proof.
  intros (xs & rest & -> & Hfit)%well_formed_vector.
  destruct (decide (xs = [])) as [->|Hne].
  - rewrite PopBack_nil. by apply sound_vector_of.
  - destruct (exists_last Hne) as (ys & x & ->).
    rewrite PopBack_snoc by done. apply sound_vector_of. len_lia.
Qed.

Lemma Emplace_sound pos args v :
  well_formed v = true -> pos <= size_ v -> refers_inside args v = true ->
  leaves fst sound (Emplace pos args v).
Proof.
  intros (xs & rest & -> & Hfit)%well_formed_vector Hpos Hin.
  pose proof (construct_defined args xs rest Hin) as Hc.
  rewrite size_vector_of in Hpos.
  set (a := take (N.to_nat pos) xs) in *. set (c := drop (N.to_nat pos) xs) in *.
  assert (Hxs : xs = a ++ c) by (symmetry; apply take_drop).
  assert (Hla : pos = N.of_nat (length a)) by (unfold a; rewrite length_take; lia).
  clearbody a c. subst xs pos.
  destruct rest as [|s rest].
  - rewrite Emplace_full by done. cbv zeta.
    pose proof (growth_gt (N.of_nat (length (a ++ c)))) as Hgt.
    destruct (grants _) eqn:Hg; [|by apply sound_vector_of]. apply (grants_growth _ _ Hfit) in Hg.
    destruct Hc as [[x ->]| ->]; [|by apply sound_vector_of].
    destruct (relocation_failure a); [apply sound_vector_of; len_lia|].
    destruct (relocation_failure c); apply sound_vector_of; len_lia.
  - destruct (decide (c = [])) as [->|Hne].
    + rewrite app_nil_r in *. rewrite Emplace_end by done.
      destruct Hc as [[x ->]| ->]; apply sound_vector_of; len_lia.
    + destruct (exists_last Hne) as (m & l & ->).
      rewrite Emplace_inside by done.
      destruct Hc as [[x ->]| ->]; [|by apply sound_vector_of].
      destruct (move_ctor_throws l); [by apply sound_vector_of|].
      pose proof (shift_length (moved_from E l) (rev m)) as Hlen.
      destruct (shift (moved_from E l) (rev m)) as [[] r]; cbn [fst snd] in *.
      { apply sound_vector_of. len_lia. }
      destruct (move_assign_throws E _ x); apply sound_vector_of; len_lia.
Qed.

Lemma Erase_sound pos v :
  well_formed v = true -> pos < size_ v -> leaves fst sound (Erase pos v).
Proof.
  intros (xs & rest & -> & Hfit)%well_formed_vector Hpos.
  rewrite size_vector_of in Hpos.
  set (a := take (N.to_nat pos) xs).
  assert (Hla : pos = N.of_nat (length a)) by (unfold a; rewrite length_take; lia).
  destruct (drop (N.to_nat pos) xs) as [|y c] eqn:Hd.
  { apply (f_equal length) in Hd. rewrite length_drop in Hd. cbn [length] in Hd. lia. }
  assert (Hxs : xs = a ++ y :: c) by (rewrite <- Hd; symmetry; apply take_drop).
  clearbody a. clear Hd. subst xs pos.
  rewrite Erase_spec by done.
  pose proof (shift_length y c) as Hlen.
  destruct (shift y c) as [[] r]; cbn [fst snd leaves] in *;
    apply sound_vector_of; len_lia.
Qed.

(** ** Blocks keep their length *)

Lemma construct_at_Some b i x b' :
  construct_at b i x = Some b' -> (i < length b)%nat /\ length b' = length b.
Proof.
  unfold construct_at. case_decide; [|done]. intros [= <-]. by rewrite length_insert.
Qed.

Lemma destroy_at_Some b i b' : destroy_at b i = Some b' -> length b' = length b.
Proof.
  unfold destroy_at. destruct (live b i); [|done]. intros [= <-]. by rewrite length_insert.
Qed.

Lemma destroy_n_Some n : forall b first b',
  destroy_n b first n = Some b' -> length b' = length b.
Proof.
  induction n as [|n IH]; intros b first b'; cbn [destroy_n]; [by intros [= <-]|].
  destruct (destroy_at b first) as [b1|] eqn:Hd; [|done].
  intros H%IH. rewrite H. by eapply destroy_at_Some.
Qed.

Lemma copy_construct_loop_length n : forall src first dst cur,
  match copy_construct_loop src first n dst cur with
  | Normal dst' => length dst' = length dst /\ (n = O \/ cur + n <= length dst)%nat
  | Throws _ (dst', _) => length dst' = length dst
  | Undefined => True
  end.
Proof.
  induction n as [|n IH]; intros src first dst cur; cbn [copy_construct_loop]; [by auto|].
  destruct (live src first) as [x|]; [|done].
  destruct (copy_throws E x); [done|].
  destruct (construct_at dst cur x) as [dst1|] eqn:Hc; [|done].
  apply construct_at_Some in Hc as [Hi Hl].
  specialize (IH src (S first) dst1 (S cur)).
  destruct (copy_construct_loop src (S first) n dst1 (S cur)) as [dst'|e [dst' c]|]; [| |done].
  - destruct IH as [IH1 IH2]. split; [congruence|]. right. lia.
  - congruence.
Qed.

Lemma uninitialized_copy_n_length n src first dst cur :
  match uninitialized_copy_n src first n dst cur with
  | Normal dst' => length dst' = length dst /\ (n = O \/ cur + n <= length dst)%nat
  | Throws _ dst' => length dst' = length dst
  | Undefined => True
  end.
Proof.
  unfold uninitialized_copy_n. pose proof (copy_construct_loop_length n src first dst cur) as H.
  destruct (copy_construct_loop src first n dst cur) as [dst'|e [dst' c]|]; [done| |done].
  destruct (destroy_n dst' cur (c - cur)) as [d|] eqn:Hd; [|done].
  apply destroy_n_Some in Hd. congruence.
Qed.

Lemma move_construct_loop_length n : forall src first dst cur,
  match move_construct_loop src first n dst cur with
  | Normal (src', dst') =>
      length src' = length src /\ length dst' = length dst
      /\ (n = O \/ cur + n <= length dst)%nat
  | Throws _ (src', dst', _) => length src' = length src /\ length dst' = length dst
  | Undefined => True
  end.
Proof.
  induction n as [|n IH]; intros src first dst cur; cbn [move_construct_loop]; [by auto|].
  destruct (live src first) as [x|]; [|done].
  destruct (move_ctor_throws x); [done|].
  destruct (construct_at dst cur x) as [dst1|] eqn:Hc; [|done].
  apply construct_at_Some in Hc as [Hi Hl].
  specialize (IH (<[first := Some (moved_from E x)]> src) (S first) dst1 (S cur)).
  rewrite length_insert in IH.
  destruct (move_construct_loop _ (S first) n dst1 (S cur)) as [[src' dst']|e [[src' dst'] c]|];
    [| |done].
  - destruct IH as (IH0 & IH1 & IH2). split; [done|]. split; [congruence|]. right. lia.
  - destruct IH as (IH0 & IH1). split; [done|congruence].
Qed.

Lemma uninitialized_move_n_length n src first dst cur :
  match uninitialized_move_n src first n dst cur with
  | Normal (src', dst') =>
      length src' = length src /\ length dst' = length dst
      /\ (n = O \/ cur + n <= length dst)%nat
  | Throws _ (src', dst') => length src' = length src /\ length dst' = length dst
  | Undefined => True
  end.
Proof.
  unfold uninitialized_move_n. pose proof (move_construct_loop_length n src first dst cur) as H.
  destruct (move_construct_loop src first n dst cur) as [[src' dst']|e [[src' dst'] c]|];
    [done| |done].
  destruct (destroy_n dst' cur (c - cur)) as [d|] eqn:Hd; [|done].
  apply destroy_n_Some in Hd. destruct H as [H0 H1]. split; [done|congruence].
Qed.

Lemma relocate_length n src first dst cur :
  match relocate src first n dst cur with
  | Normal (src', dst') =>
      length src' = length src /\ length dst' = length dst
      /\ (n = O \/ cur + n <= length dst)%nat
  | Throws _ (src', dst') => length src' = length src /\ length dst' = length dst
  | Undefined => True
  end.
Proof.
  unfold relocate. destruct relocate_by_move; [apply uninitialized_move_n_length|].
  pose proof (uninitialized_copy_n_length n src first dst cur) as H.
  destruct (uninitialized_copy_n src first n dst cur); [|done|done].
  by destruct H.
Qed.

Lemma value_construct_loop_length n : forall dst cur,
  match value_construct_loop dst cur n with
  | Normal dst' => length dst' = length dst /\ (n = O \/ cur + n <= length dst)%nat
  | Throws _ (dst', _) => length dst' = length dst
  | Undefined => True
  end.
Proof.
  induction n as [|n IH]; intros dst cur; cbn [value_construct_loop]; [by auto|].
  destruct (value_init E) as [x|]; [|done].
  destruct (construct_at dst cur x) as [dst1|] eqn:Hc; [|done].
  apply construct_at_Some in Hc as [Hi Hl].
  specialize (IH dst1 (S cur)).
  destruct (value_construct_loop dst1 (S cur) n) as [dst'|e [dst' c]|]; [| |done].
  - destruct IH as [IH1 IH2]. split; [congruence|]. right. lia.
  - congruence.
Qed.

Lemma uninitialized_value_construct_n_length n dst cur :
  match uninitialized_value_construct_n dst cur n with
  | Normal dst' => length dst' = length dst /\ (n = O \/ cur + n <= length dst)%nat
  | Throws _ dst' => length dst' = length dst
  | Undefined => True
  end.
Proof.
  unfold uninitialized_value_construct_n.
  pose proof (value_construct_loop_length n dst cur) as H.
  destruct (value_construct_loop dst cur n) as [dst'|e [dst' c]|]; [done| |done].
  destruct (destroy_n dst' cur (c - cur)) as [d|] eqn:Hd; [|done].
  apply destroy_n_Some in Hd. congruence.
Qed.

Lemma copy_assign_loop_length n : forall src first dst d,
  match copy_assign_loop src first n dst d with
  | Normal dst' | Throws _ dst' => length dst' = length dst
  | Undefined => True
  end.
Proof.
  induction n as [|n IH]; intros src first dst d; cbn [copy_assign_loop]; [done|].
  destruct (live src first) as [x|]; [|done].
  destruct (live dst d) as [y|]; [|done].
  destruct (copy_assign_throws E y x); [done|].
  specialize (IH src (S first) (<[d := Some x]> dst) (S d)).
  rewrite length_insert in IH. done.
Qed.

Lemma std_copy_length src first last dst d :
  match std_copy src first last dst d with
  | Normal dst' | Throws _ dst' => length dst' = length dst
  | Undefined => True
  end.
Proof. unfold std_copy. case_decide; [apply copy_assign_loop_length|done]. Qed.

Lemma move_assign_loop_length n : forall b first d,
  match move_assign_loop b first n d with
  | Normal b' | Throws _ b' => length b' = length b
  | Undefined => True
  end.
Proof.
  induction n as [|n IH]; intros b first d; cbn [move_assign_loop]; [done|].
  destruct (live b first) as [x|]; [|done].
  destruct (live b d) as [y|]; [|done].
  destruct (move_assign_throws E y x); [done|].
  specialize (IH (<[first := Some (moved_from E x)]> (<[d := Some x]> b)) (S first) (S d)).
  rewrite !length_insert in IH. done.
Qed.

Lemma std_move_length b first last d :
  match std_move b first last d with
  | Normal b' | Throws _ b' => length b' = length b
  | Undefined => True
  end.
Proof. unfold std_move. case_decide; [apply move_assign_loop_length|done]. Qed.

Lemma move_backward_loop_length n : forall b first d,
  match move_backward_loop b first n d with
  | Normal b' | Throws _ b' => length b' = length b
  | Undefined => True
  end.
Proof.
  induction n as [|n IH]; intros b first d; cbn [move_backward_loop]; [done|].
  destruct d as [|d]; [done|].
  destruct (live b (first + n)) as [x|]; [|done].
  destruct (live b d) as [y|]; [|done].
  destruct (move_assign_throws E y x); [done|].
  specialize (IH (<[(first + n)%nat := Some (moved_from E x)]> (<[d := Some x]> b)) first d).
  rewrite !length_insert in IH. done.
Qed.

Lemma std_move_backward_length b first last d :
  match std_move_backward b first last d with
  | Normal b' | Throws _ b' => length b' = length b
  | Undefined => True
  end.
Proof. unfold std_move_backward. case_decide; [apply move_backward_loop_length|done]. Qed.

(** ** The invariant on every vector a caller can hold *)

Ltac obs :=
  cbn [whenever constructs_whenever fst snd];
  unfold observable, Capacity, with_block, with_buffer in *;
  cbn [data_ size_ buffer_ capacity_] in *;
  rewrite ?length_replicate, ?length_insert in *;
  size_lia.

Lemma slots_max n : (n =? 0) || grants n = true -> N.of_nat (slots n) <= max_size.
Proof.
  destruct (N.eqb_spec n 0) as [->|_]; cbn [orb].
  - intros _. pose proof (slots_le 0). lia.
  - apply grants_slots.
Qed.

Lemma observable_default : observable Vector_default.
Proof. unfold observable, Capacity, SIZE_MOD. cbn. lia. Qed.

Lemma well_formed_observable v : well_formed v = true -> observable v.
Proof.
  intros (xs & rest & -> & Hfit)%well_formed_vector.
  unfold observable. rewrite size_vector_of, Capacity_vector_of.
  cbn [vector_of data_ buffer_]. rewrite length_app, length_fmap. len_lia.
Qed.

Lemma Vector_sized_observable n : constructs_whenever observable (Vector_sized n).
Proof.
  unfold Vector_sized.
  destruct (N.lt_ge_cases n SIZE_MOD) as [Hn|Hn]; [|by rewrite RawMemory_new_large].
  rewrite RawMemory_new_slots by done.
  destruct ((n =? 0) || grants n) eqn:Hg; [|done]. apply slots_max in Hg.
  cbn [buffer_].
  pose proof (uninitialized_value_construct_n_length (N.to_nat n)
                (replicate (slots n) None) 0) as H.
  destruct (uninitialized_value_construct_n _ 0 (N.to_nat n)) as [b|e b|]; [|done|done].
  destruct H as [Hl Hr]. obs.
Qed.

Lemma Vector_copy_observable other :
  observable other ->
  constructs_whenever (fun v => observable v /\ size_ v = size_ other) (Vector_copy other).
Proof.
  intros Ho. unfold Vector_copy.
  rewrite RawMemory_new_spec by (apply overflows_max_size; obs).
  destruct (_ || _); [|done]. cbn [buffer_].
  pose proof (uninitialized_copy_n_length (N.to_nat (size_ other)) (buffer_ (data_ other)) 0
                (replicate (N.to_nat (size_ other)) None) 0) as H.
  destruct (uninitialized_copy_n _ 0 _ _ 0) as [b|e b|]; [|done|done].
  destruct H as [Hl Hr]. cbn [constructs_whenever]. split; [obs|done].
Qed.

Lemma Swap_observable this rhs :
  observable this -> observable rhs ->
  observable (Swap this rhs).1 /\ observable (Swap this rhs).2.
Proof. by destruct this as [[b c] s], rhs as [[b' c'] s']. Qed.

Lemma copy_assign_observable this rhs :
  observable this -> observable rhs ->
  whenever (fun v => v) observable (copy_assign (Distinct this rhs)).
Proof.
  intros Ht Hr. unfold copy_assign.
  destruct (N.ltb_spec (Capacity this) (size_ rhs)) as [Hlt|Hge].
  - pose proof (Vector_copy_observable rhs Hr) as Hc.
    destruct (Vector_copy rhs) as [rc|e u|]; [|done|done].
    destruct Hc as [Hobs Hsz].
    destruct this as [[b c] s], rc as [[b' c'] s'].
    unfold Swap, RawMemory_Swap. cbn [data_ size_].
    destruct (Vector_destructor _); [|done]. cbn in Hsz. subst s'. exact Hobs.
  - unfold handleAssignment.
    pose proof (std_copy_length (buffer_ (data_ rhs)) 0
                  (0 + N.to_nat (N.min (size_ this) (size_ rhs)))
                  (buffer_ (data_ this)) 0) as Hcp.
    destruct (std_copy _ 0 _ _ 0) as [b|e b|]; [| |done].
    + destruct (N.ltb_spec (size_ rhs) (size_ this)) as [Hs|Hs].
      * destruct (destroy_n b _ _) as [b'|] eqn:Hd; [|done].
        apply destroy_n_Some in Hd. obs.
      * rewrite N.min_l by done.
        rewrite size_t_sub_small by obs.
        pose proof (uninitialized_copy_n_length (N.to_nat (size_ rhs - size_ this))
                      (buffer_ (data_ rhs)) (N.to_nat (size_ this)) b
                      (N.to_nat (size_ this))) as Hu.
        destruct (uninitialized_copy_n _ _ _ b _) as [b'|e b'|]; [| |done].
        -- destruct Hu as [Hl Hrg]. obs.
        -- obs.
    + obs.
Qed.

Lemma Reserve_observable n v :
  observable v ->
  match Reserve n v with
  | Normal v1 => observable v1 /\ size_ v1 = size_ v /\ n <= Capacity v1
  | Throws _ v1 => observable v1
  | Undefined => True
  end.
Proof.
  intros Hv. unfold Reserve.
  destruct (N.leb_spec n (capacity_ (data_ v))) as [Hle|Hgt]; [done|].
  destruct (N.lt_ge_cases n SIZE_MOD) as [Hn|Hn]; [|by rewrite RawMemory_new_large].
  rewrite RawMemory_new_slots by done.
  destruct ((n =? 0) || grants n) eqn:Hg; [|done]. apply slots_max in Hg.
  cbn [buffer_].
  pose proof (relocate_length (N.to_nat (size_ v)) (buffer_ (data_ v)) 0
                (replicate (slots n) None) 0) as H.
  destruct (relocate _ 0 _ _ 0) as [[old new]|e [old new]|]; [| |done].
  - destruct H as (Ho & Hnw & Hr).
    destruct (destroy_n old 0 _) as [old'|] eqn:Hd; [|done].
    unfold RawMemory_Swap. split; [obs|]. split; [done|]. unfold Capacity. cbn. lia.
  - destruct H as (Ho & Hnw). obs.
Qed.

Lemma Resize_observable n v :
  observable v -> whenever (fun v => v) observable (Resize n v).
Proof.
  intros Hv. unfold Resize.
  destruct (N.ltb_spec (size_ v) n) as [Hlt|Hge].
  - pose proof (Reserve_observable n v Hv) as Hr.
    destruct (Reserve n v) as [v1|e v1|]; [|done|done].
    destruct Hr as (Ho & Hs & Hc).
    assert (Hsub : size_t_sub n (size_ v1) = n - size_ v1)
      by (apply size_t_sub_small; obs).
    rewrite Hsub.
    pose proof (uninitialized_value_construct_n_length (N.to_nat (n - size_ v1))
                  (buffer_ (data_ v1)) (N.to_nat (size_ v1))) as H.
    destruct (uninitialized_value_construct_n _ _ _) as [b|e b|]; [| |done].
    + destruct H as [Hl Hrg]. obs.
    + obs.
  - destruct (destroy_n _ _ _) as [b|] eqn:Hd; [|done].
    apply destroy_n_Some in Hd. obs.
Qed.

Lemma PopBack_observable v :
  observable v -> whenever (fun v => v) observable (PopBack v).
Proof.
  intros Hv. unfold PopBack.
  destruct (N.ltb_spec 0 (size_ v)) as [Hpos|]; [|done].
  destruct (destroy_at _ _) as [b|] eqn:Hd; [|done].
  apply destroy_at_Some in Hd.
  rewrite size_t_sub_small by obs. obs.
Qed.

Lemma growth_request c :
  c <= max_size -> (if c =? 0 then 1 else size_t_mul c 2) = growth c.
Proof.
  intros Hc. unfold growth. destruct (c =? 0); [done|].
  apply size_t_mul_small. size_lia.
Qed.

Lemma EmplaceBack_observable args v :
  observable v -> whenever fst observable (EmplaceBack args v).
Proof.
  intros Hv. unfold EmplaceBack, RawMemory_plus.
  assert (Hs : size_ v <= max_size) by obs.
  assert (Hadd : size_t_add (size_ v) 1 = size_ v + 1)
    by (apply size_t_add_small; size_lia).
  rewrite Hadd.
  destruct (N.eqb_spec (size_ v) (Capacity v)) as [Hfull|Hroom].
  - rewrite growth_request by done.
    rewrite RawMemory_new_spec by (by apply overflows_growth).
    rewrite growth_pos. cbn [orb]. pose proof (growth_gt (size_ v)) as Hgt.
    destruct (grants _) eqn:Hg; [|done].
    apply grants_le in Hg; [|by apply overflows_growth].
    cbn [buffer_ capacity_].
    destruct (_ <=? _); [|done].
    destruct (construct args _) as [x|e u|]; [|done|done].
    destruct (construct_at _ _ x) as [nb|] eqn:Hnb; [|done].
    apply construct_at_Some in Hnb as [_ Hnb]. rewrite length_replicate in Hnb.
    unfold RawMemory_Swap.
    destruct relocate_by_move.
    + pose proof (uninitialized_move_n_length (N.to_nat (size_ v)) (buffer_ (data_ v)) 0
                    nb 0) as H.
      destruct (uninitialized_move_n _ 0 _ nb 0) as [[old new]|e [old new]|]; [| |done].
      * destruct H as (Ho & Hnw & _).
        destruct (destroy_n old 0 _) as [old'|] eqn:Hd; [|done]. obs.
      * destruct H as (Ho & Hnw). obs.
    + pose proof (uninitialized_copy_n_length (N.to_nat (size_ v)) (buffer_ (data_ v)) 0
                    nb 0) as H.
      destruct (uninitialized_copy_n _ 0 _ nb 0) as [new|e new|]; [| |done].
      * destruct H as (Hnw & _).
        destruct (destroy_n _ 0 _) as [old'|] eqn:Hd; [|done]. obs.
      * by destruct (destroy_n new _ 1).
  - destruct (_ <=? _); [|done].
    destruct (construct args _) as [x|e u|]; [|done|done].
    destruct (construct_at _ _ x) as [b|] eqn:Hb; [|done].
    apply construct_at_Some in Hb as [Hi Hb]. unfold Capacity in *. obs.
Qed.

Lemma PushBack_observable args v :
  observable v -> whenever (fun v => v) observable (PushBack args v).
Proof.
  intros Hv. unfold PushBack. pose proof (EmplaceBack_observable args v Hv) as H.
  by destruct (EmplaceBack args v) as [[v' r]|e v'|].
Qed.

Lemma Emplace_observable pos args v :
  observable v -> whenever fst observable (Emplace pos args v).
Proof.
  intros Hv. unfold Emplace, RawMemory_plus, RawMemory_index.
  destruct (N.leb_spec pos (size_ v)) as [Hpos|]; [|done]. cbn [negb].
  assert (Hs : size_ v <= max_size) by obs.
  assert (Hadd : size_t_add (size_ v) 1 = size_ v + 1)
    by (apply size_t_add_small; size_lia).
  rewrite Hadd.
  destruct (N.eqb_spec (size_ v) (Capacity v)) as [Hfull|Hroom].
  - rewrite growth_request by done.
    rewrite RawMemory_new_spec by (by apply overflows_growth).
    rewrite growth_pos. cbn [orb]. pose proof (growth_gt (size_ v)) as Hgt.
    destruct (grants _) eqn:Hg; [|done].
    apply grants_le in Hg; [|by apply overflows_growth].
    cbn [buffer_ capacity_].
    destruct (_ <=? _); [|done].
    destruct (construct args _) as [x|e u|]; [|done|done].
    destruct (construct_at _ _ x) as [nb|] eqn:Hnb; [|done].
    apply construct_at_Some in Hnb as [_ Hnb]. rewrite length_replicate in Hnb.
    unfold RawMemory_Swap.
    pose proof (relocate_length (N.to_nat pos) (buffer_ (data_ v)) 0 nb 0) as H1.
    destruct (relocate _ 0 (N.to_nat pos) nb 0) as [[old1 nb1]|e [old1 nb1]|]; [| |done].
    + destruct H1 as (Ho1 & Hn1 & _).
      pose proof (relocate_length (N.to_nat (size_t_sub (size_ v) pos)) old1 (N.to_nat pos)
                    nb1 (N.to_nat (size_t_add pos 1))) as H2.
      destruct (relocate old1 _ _ nb1 _) as [[old2 nb2]|e [old2 nb2]|]; [| |done].
      * destruct H2 as (Ho2 & Hn2 & _).
        destruct (destroy_n old2 0 _) as [old3|] eqn:Hd; [|done]. obs.
      * destruct H2 as (Ho2 & Hn2).
        destruct (destroy_n nb2 0 _); [|done]. obs.
    + destruct H1 as (Ho1 & Hn1).
      destruct (destroy_n nb1 _ 1); [|done]. obs.
  - destruct (N.eqb_spec pos (size_ v)) as [->|Hin].
    + destruct (_ <=? _); [|done].
      destruct (construct args _) as [x|e u|]; [|done|done].
      destruct (construct_at _ _ x) as [b|] eqn:Hb; [|done].
      apply construct_at_Some in Hb as [Hi Hb]. unfold Capacity in *. obs.
    + destruct (construct args _) as [x|e u|]; [|done|done].
      destruct (live _ _) as [last|]; [|done].
      destruct (move_ctor_throws last); [done|].
      destruct (construct_at _ _ last) as [b1|] eqn:Hb1; [|done].
      apply construct_at_Some in Hb1 as [Hi Hb1]. rewrite length_insert in Hi, Hb1.
      pose proof (std_move_backward_length b1 (N.to_nat pos) (N.to_nat (size_ v) - 1)
                    (N.to_nat (size_ v))) as H.
      destruct (std_move_backward b1 _ _ _) as [b2|e b2|]; [| |done].
      * destruct (_ <? _); [|done].
        destruct (live b2 _) as [y|]; [|done].
        destruct (move_assign_throws E y x); unfold Capacity in *; obs.
      * obs.
Qed.

Lemma Erase_observable pos v :
  observable v -> whenever fst observable (Erase pos v).
Proof.
  intros Hv. unfold Erase.
  destruct (_ <? _); [|done]. cbn [negb].
  pose proof (std_move_length (buffer_ (data_ v)) (N.to_nat pos + 1) (N.to_nat (size_ v))
                (N.to_nat pos)) as H.
  destruct (std_move _ _ _ _) as [b|e b|]; [| |done].
  - assert (Hb : observable (with_block v b)) by obs.
    pose proof (PopBack_observable _ Hb) as Hp.
    by destruct (PopBack (with_block v b)).
  - obs.
Qed.

(** C8. The invariant 0 <= size <= capacity (sizes are unsigned) holds for
    every vector at every point a caller can observe.  It is part of an
    invariant that the four constructors establish, for every size asked
    for, and that every public operation keeps, on every vector that has it
    and for every argument, whenever the call returns or throws.  Called on
    well-formed vectors within its preconditions, with a size or capacity
    whose byte count does not wrap, every operation moreover stays within
    defined behaviour and leaves a well-formed vector. *)
Theorem size_le_capacity_invariant :
  (forall v, observable v -> 0 <= size_ v /\ size_ v <= Capacity v)
  /\ (forall v, well_formed v = true -> observable v)
  /\ observable Vector_default
  /\ (forall n, constructs_whenever observable (Vector_sized n))
  /\ (forall other, observable other ->
        constructs_whenever observable (Vector_copy other)
        /\ observable (Vector_move other).1 /\ observable (Vector_move other).2)
  /\ (forall this rhs, observable this -> observable rhs ->
        whenever (fun v => v) observable (copy_assign (Distinct this rhs))
        /\ whenever (fun v => v) observable (copy_assign (Same this))
        /\ move_assign (Distinct this rhs) = Distinct rhs this
        /\ move_assign (Same this) = Same this
        /\ observable (Swap this rhs).1 /\ observable (Swap this rhs).2)
  /\ (forall v n, observable v ->
        whenever (fun v => v) observable (Reserve n v)
        /\ whenever (fun v => v) observable (Resize n v)
        /\ whenever (fun v => v) observable (PopBack v))
  /\ (forall v args, observable v ->
        whenever fst observable (EmplaceBack args v)
        /\ whenever (fun v => v) observable (PushBack args v))
  /\ (forall v pos args, observable v -> whenever fst observable (Emplace pos args v))
  /\ (forall v pos x, observable v ->
        whenever fst observable (Insert pos x v)
        /\ whenever fst observable (Insert_rvalue pos x v))
  /\ (forall v pos, observable v -> whenever fst observable (Erase pos v))
  /\ sound Vector_default
  /\ (forall n, overflows n = false -> constructs sound (Vector_sized n))
  /\ (forall other, well_formed other = true ->
        constructs sound (Vector_copy other)
        /\ sound (Vector_move other).1 /\ sound (Vector_move other).2)
  /\ (forall this rhs, well_formed this = true -> well_formed rhs = true ->
        leaves (fun v => v) sound (copy_assign (Distinct this rhs))
        /\ leaves (fun v => v) sound (copy_assign (Same this))
        /\ sound (Swap this rhs).1 /\ sound (Swap this rhs).2)
  /\ (forall v n, well_formed v = true -> overflows n = false ->
        leaves (fun v => v) sound (Reserve n v)
        /\ leaves (fun v => v) sound (Resize n v))
  /\ (forall v, well_formed v = true -> leaves (fun v => v) sound (PopBack v))
  /\ (forall v args, well_formed v = true -> refers_inside args v = true ->
        leaves fst sound (EmplaceBack args v)
        /\ leaves (fun v => v) sound (PushBack args v))
  /\ (forall v pos args, well_formed v = true -> pos <= size_ v ->
        refers_inside args v = true ->
        leaves fst sound (Emplace pos args v))
  /\ (forall v pos x, well_formed v = true -> pos <= size_ v ->
        leaves fst sound (Insert pos x v))
  /\ (forall v pos, well_formed v = true -> pos < size_ v ->
        leaves fst sound (Erase pos v)).
Proof.
  split; [intros v (H & _); split; [lia|done]|].
  split; [apply well_formed_observable|].
  split; [apply observable_default|].
  split; [apply Vector_sized_observable|].
  split.
  { intros other Ho. split.
    - pose proof (Vector_copy_observable other Ho) as H.
      destruct (Vector_copy other); [|done|done]. by destruct H.
    - apply Swap_observable; [apply observable_default|done]. }
  split.
  { intros this rhs Ht Hr. split; [by apply copy_assign_observable|].
    split; [done|].
    split; [by destruct this as [[b c] s], rhs as [[b' c'] s']|].
    split; [done|]. by apply Swap_observable. }
  split.
  { intros v n Hv. split.
    - pose proof (Reserve_observable n v Hv) as H.
      destruct (Reserve n v); [|done|done]. by destruct H.
    - split; [by apply Resize_observable|by apply PopBack_observable]. }
  split.
  { intros v args Hv. split; [by apply EmplaceBack_observable|by apply PushBack_observable]. }
  split; [intros v pos args Hv; by apply Emplace_observable|].
  split.
  { intros v pos x Hv. split; by apply Emplace_observable. }
  split; [intros v pos Hv; by apply Erase_observable|].
  split; [apply well_formed_sound, well_formed_default|].
  split; [apply Vector_sized_sound|].
  split.
  { intros other Hwf. split; [by apply Vector_copy_sound|].
    destruct other as [[b c] s]. split; [by apply well_formed_sound|].
    apply well_formed_sound, well_formed_default. }
  split.
  { intros this rhs Hwf Hwr. split; [by apply copy_assign_sound|].
    split; [by apply well_formed_sound|].
    destruct this as [[b c] s], rhs as [[b' c'] s'].
    split; by apply well_formed_sound. }
  split.
  { intros v n Hwf Hov. split; [by apply Reserve_sound|by apply Resize_sound]. }
  split; [intros v Hwf; by apply PopBack_sound|].
  split.
  { intros v args Hwf Hin. split; [by apply EmplaceBack_sound|by apply PushBack_sound]. }
  split; [intros v pos args Hwf Hpos Hin; by apply Emplace_sound|].
  split; [intros v pos x Hwf Hpos; by apply Emplace_sound|].
  intros v pos Hwf Hpos. by apply Erase_sound.
Qed.

(** ** Further properties of the two classes *)

Lemma live_vector_of xs rest (i : nat) :
  (i < length xs)%nat -> live ((Some <$> xs) ++ rest) i = xs !! i.
Proof.
  intros Hi. unfold live. rewrite lookup_app_l by (by rewrite length_fmap).
  rewrite list_lookup_fmap. by destruct (xs !! i).
Qed.

Lemma Vector_index_vector_of xs rest i :
  Vector_index (vector_of xs rest) i = xs !! N.to_nat i.
Proof.
  unfold Vector_index, RawMemory_index. rewrite size_vector_of.
  cbn [vector_of data_ buffer_ capacity_].
  destruct (N.ltb_spec i (N.of_nat (length xs))) as [Hi|Hi].
  - destruct (N.ltb_spec i (N.of_nat (length xs + length rest))); [|lia].
    apply live_vector_of. lia.
  - symmetry. apply lookup_ge_None. lia.
Qed.

(** X4. operator[] on a well-formed vector reads the element values in
    order: v[i] is the i-th live element for i < size, and an index at or
    beyond size fails the assertion. *)
Theorem Vector_index_elements (v : Vector) (i : N) :
  well_formed v = true ->
  Vector_index v i = elements v !! N.to_nat i
  /\ (i < size_ v -> is_Some (Vector_index v i))
  /\ (size_ v <= i -> Vector_index v i = None).
Proof.
  intros (xs & rest & -> & Hfit)%well_formed_vector.
  rewrite Vector_index_vector_of, elements_vector_of, size_vector_of.
  split; [done|]. split.
  - intros Hi. apply lookup_lt_is_Some. lia.
  - intros Hi. apply lookup_ge_None. lia.
Qed.

(** X2. The sized constructor Vector(n): whenever it returns, the byte count
    n * sizeof(T) did not wrap, the vector is well formed with
    size = capacity = n, and every element is the value-initialised one.
    Vector(0) always returns the empty vector; for n > 0 it throws bad_alloc
    when the heap refuses the request, and the element's exception when T()
    throws in a block that has a slot for the first element; it returns when
    the byte count does not wrap, the heap grants it and T() succeeds.  When
    the byte count wraps and the heap grants what is left of it, elements
    are constructed past the end of the block. *)
Theorem Vector_sized_outcome (n : N) :
  (forall v, Vector_sized n = Normal v ->
     overflows n = false
     /\ well_formed v = true /\ size_ v = n /\ Capacity v = n
     /\ forall i, i < n -> Vector_index v i = value_init E)
  /\ Vector_sized 0 = Normal Vector_default
  /\ (n <> 0 -> n < SIZE_MOD -> grants n = false ->
      Vector_sized n = Throws bad_alloc tt)
  /\ (n <> 0 -> n < SIZE_MOD -> grants n = true -> (0 < slots n)%nat ->
      value_init E = None ->
      Vector_sized n = Throws element_error tt)
  /\ (overflows n = false -> grants n = true -> is_Some (value_init E) ->
      exists v, Vector_sized n = Normal v)
  /\ (overflows n = true -> n < SIZE_MOD -> grants n = true ->
      is_Some (value_init E) ->
      Vector_sized n = Undefined).
Proof.
  split; [|split; [|split; [|split; [|split]]]].
  - intros v. destruct (overflows n) eqn:Hov.
    { destruct (N.lt_ge_cases n SIZE_MOD) as [Hsz|Hsz];
        [|by rewrite Vector_sized_large].
      rewrite Vector_sized_overflow by done.
      destruct (grants n); [|done]. by destruct (value_init E). }
    rewrite Vector_sized_spec by done. split; [done|]. revert H.
    destruct (N.eqb_spec n 0) as [->|Hn]; cbn [orb].
    + intros Hv. assert (v = vector_of [] []) as ->.
      { by destruct (value_init E); injection Hv as <-. }
      split; [apply well_formed_default|]. split; [done|]. split; [done|].
      intros i Hi. lia.
    + destruct (grants n) eqn:Hg; [|done]. apply grants_le in Hg; [|done].
      destruct (value_init E) as [d|]; [|done]. intros [= <-].
      split; [apply well_formed_vector_of; len_lia|].
      rewrite size_vector_of, Capacity_vector_of.
      split; [len_lia|]. split; [len_lia|].
      intros i Hi. rewrite Vector_index_vector_of.
      apply lookup_replicate_2. lia.
  - rewrite Vector_sized_spec by (apply overflows_max_size; lia).
    cbn [N.eqb orb]. by destruct (value_init E).
  - intros Hn Hsz Hg. destruct (overflows n) eqn:Hov.
    + rewrite Vector_sized_overflow by done. by rewrite Hg.
    + rewrite Vector_sized_spec by done.
      destruct (N.eqb_spec n 0); [done|]. by rewrite Hg.
  - intros Hn Hsz Hg _ Hv. destruct (overflows n) eqn:Hov.
    + rewrite Vector_sized_overflow by done. by rewrite Hg, Hv.
    + rewrite Vector_sized_spec by done.
      destruct (N.eqb_spec n 0); [done|]. by rewrite Hg, Hv.
  - intros Hov Hg [d Hd]. rewrite Vector_sized_spec by done.
    rewrite Hg, orb_true_r, Hd. by eexists.
  - intros Hov Hsz Hg [d Hd]. rewrite Vector_sized_overflow by done. by rewrite Hg, Hd.
Qed.

(** X3. The copy constructor: whenever it returns, the new vector is well
    formed, holds the source's element values in order, and both its size
    and its capacity are the source's size (slack is not copied).  It throws
    bad_alloc when the heap refuses a non-empty source's size, throws the
    element's exception when a copy does, and returns otherwise. *)
Theorem Vector_copy_outcome (other : Vector) :
  well_formed other = true ->
  (forall v, Vector_copy other = Normal v ->
     well_formed v = true /\ elements v = elements other
     /\ size_ v = size_ other /\ Capacity v = size_ other)
  /\ (size_ other <> 0 -> grants (size_ other) = false ->
      Vector_copy other = Throws bad_alloc tt)
  /\ (size_ other = 0 \/ grants (size_ other) = true ->
      forall k, first_throw (copy_throws E) (elements other) = Some k ->
      Vector_copy other = Throws element_error tt)
  /\ (size_ other = 0 \/ grants (size_ other) = true ->
      (forall y, copy_throws E y = false) ->
      exists v, Vector_copy other = Normal v).
Proof.
  intros (xs & rest & -> & Hfit)%well_formed_vector.
  rewrite !Vector_copy_spec by done. rewrite size_vector_of, elements_vector_of.
  assert (Hok : N.of_nat (length xs) = 0 \/ grants (N.of_nat (length xs)) = true ->
                (N.of_nat (length xs) =? 0) || grants (N.of_nat (length xs)) = true).
  { intros [->| ->]; [done|by rewrite orb_true_r]. }
  split; [|split; [|split]].
  - intros v. destruct (_ || _); [|done].
    destruct (first_throw _ xs); [done|]. intros [= <-].
    split; [apply well_formed_vector_of; len_lia|].
    rewrite elements_vector_of, size_vector_of, Capacity_vector_of.
    split; [done|]. split; [done|]. len_lia.
  - intros Hn Hg. destruct (N.eqb_spec (N.of_nat (length xs)) 0); [done|]. by rewrite Hg.
  - intros H k Hk. by rewrite (Hok H), Hk.
  - intros H Hc. rewrite (Hok H), first_throw_None by done. by eexists.
Qed.

(** X1. RawMemory(n) asks operator new for n * sizeof(T) bytes, a product
    taken in size_t.  It throws bad_alloc only for n > 0 and a heap that
    refuses that request.  Otherwise it records the capacity n and holds a
    block with the slots those bytes have room for, none of which holds an
    object: exactly n slots, and none only when n = 0, if the product did
    not wrap, and fewer than n if it did.  RawMemory(0) never asks the heap.
    Move construction hands the block over and leaves the source in the
    default state; move assignment exchanges two blocks and does nothing on
    self-assignment. *)
Theorem RawMemory_allocation (n : N) :
  (forall m, RawMemory_new n = Normal m ->
     RawMemory_Capacity m = n
     /\ length (buffer_ m) = slots n
     /\ (forall i, live (buffer_ m) i = None)
     /\ (overflows n = false -> raw_ok m = true /\ (buffer_ m = [] <-> n = 0))
     /\ (overflows n = true -> N.of_nat (length (buffer_ m)) < n))
  /\ RawMemory_new 0 = Normal RawMemory_default
  /\ (n <> 0 -> n < SIZE_MOD -> grants n = false -> RawMemory_new n = Throws bad_alloc tt)
  /\ (n < SIZE_MOD -> grants n = true -> exists m, RawMemory_new n = Normal m)
  /\ (forall m, RawMemory_move m = (m, RawMemory_default))
  /\ (forall a b, RawMemory_move_assign (RawDistinct a b) = RawDistinct b a)
  /\ (forall a, RawMemory_move_assign (RawSame a) = RawSame a).
Proof.
  split; [|split; [|split; [|split; [|split; [|split]]]]].
  - intros m.
    destruct (N.lt_ge_cases n SIZE_MOD) as [Hsz|Hsz]; [|by rewrite RawMemory_new_large].
    rewrite RawMemory_new_slots by done.
    destruct (_ || _); [|done]. intros [= <-].
    unfold raw_ok, RawMemory_Capacity. cbn [buffer_ capacity_].
    rewrite length_replicate.
    split; [done|]. split; [done|]. split; [|split].
    + intros i. unfold live.
      destruct (replicate (slots n) None !! i) as [s|] eqn:Hs; [|done].
      apply lookup_replicate in Hs as [-> _]. done.
    + intros Hov. rewrite slots_small by done. rewrite N2Nat.id, N.eqb_refl.
      split; [done|]. split.
      * intros H%(f_equal length). rewrite length_replicate in H. cbn in H. lia.
      * by intros ->.
    + intros Hov%slots_overflow. lia.
  - rewrite RawMemory_new_spec by (apply overflows_max_size; lia). done.
  - intros Hn Hsz Hg. rewrite RawMemory_new_slots by done.
    destruct (N.eqb_spec n 0); [done|]. by rewrite Hg.
  - intros Hsz Hg. rewrite RawMemory_new_slots by done.
    rewrite Hg, orb_true_r. by eexists.
  - by intros [b c].
  - done.
  - done.
Qed.

(** X15. On a well-formed vector, end() - begin() is the size, cbegin() and
    cend() are begin() and end(), and dereferencing the positions from
    begin() up to end() in turn reads exactly the element values, each from a
    live object. *)
Theorem Vector_iteration (v : Vector) :
  well_formed v = true ->
  (Vector_end v - Vector_begin v)%nat = N.to_nat (size_ v)
  /\ Vector_cbegin v = Vector_begin v
  /\ Vector_cend v = Vector_end v
  /\ dereference v <$> seq (Vector_begin v) (Vector_end v - Vector_begin v)
     = Some <$> elements v.
Proof.
  intros (xs & rest & -> & Hfit)%well_formed_vector.
  unfold Vector_cbegin, Vector_cend, Vector_end, Vector_begin, GetAddress, dereference.
  rewrite size_vector_of, elements_vector_of. cbn [vector_of data_ buffer_].
  rewrite Nat.add_0_l, Nat.sub_0_r, Nat2N.id.
  split; [done|]. split; [done|]. split; [done|].
  apply list_eq. intros i. rewrite !list_lookup_fmap.
  destruct (decide (i < length xs)%nat) as [Hi|Hi].
  - rewrite lookup_seq_lt by done. cbn. rewrite live_vector_of by done.
    by destruct (lookup_lt_is_Some_2 xs i Hi) as [x ->].
  - rewrite lookup_seq_ge by lia. by rewrite lookup_ge_None_2 by lia.
Qed.

Lemma split_position (xs : list T) (pos : N) :
  pos <= N.of_nat (length xs) ->
  exists a c, xs = a ++ c /\ pos = N.of_nat (length a).
Proof.
  intros Hpos. exists (take (N.to_nat pos) xs), (drop (N.to_nat pos) xs).
  split; [by rewrite take_drop|]. rewrite length_take. lia.
Qed.

Lemma relocation_is_safe_cases :
  relocation_is_safe = true ->
  (forall xs, relocation_failure xs = None) \/ (forall k xs, left_behind k xs = xs).
Proof.
  unfold relocation_is_safe, relocation_failure, left_behind, relocate_by_move.
  destruct (is_nothrow_move_constructible E) eqn:Hn; cbn [orb].
  - intros _. left. intros xs. apply first_throw_None.
    intros y. unfold move_ctor_throws. by rewrite Hn.
  - intros ->. by right.
Qed.

Lemma safe_left_behind k xs :
  relocation_is_safe = true -> relocation_failure xs = Some k -> left_behind k xs = xs.
Proof.
  intros [Hnone|Hid]%relocation_is_safe_cases Hk; [|apply Hid].
  by rewrite Hnone in Hk.
Qed.

Lemma first_throw_in_take p (xs : list T) j k :
  first_throw p xs = Some k -> (k < j)%nat -> first_throw p (take j xs) = Some k.
Proof.
  revert j k. induction xs as [|x xs IH]; intros j k; simpl; [done|].
  destruct j as [|j]; [lia|]. simpl.
  destruct (p x); [done|].
  destruct (first_throw p xs) as [i|] eqn:Hi; [|done].
  intros [= <-] Hlt. by rewrite (IH j i eq_refl) by lia.
Qed.

Lemma relocation_failure_take j xs k :
  relocation_failure (take j xs) = Some k -> relocation_failure xs = Some k.
Proof.
  unfold relocation_failure. destruct relocate_by_move; apply first_throw_take.
Qed.

(* the ways Reserve ends, for every request *)
Lemma Reserve_throws xs rest n e v' :
  fits xs rest ->
  Reserve n (vector_of xs rest) = Throws e v' ->
  (e = bad_alloc /\ v' = vector_of xs rest /\ grants n = false)
  \/ (e = element_error
      /\ exists k, relocation_failure xs = Some k /\ v' = vector_of (left_behind k xs) rest).
Proof.
  intros Hfit.
  destruct (N.lt_ge_cases n SIZE_MOD) as [Hsz|Hsz]; [|by rewrite Reserve_large].
  rewrite Reserve_slots by done.
  destruct (n <=? _); [done|].
  destruct (grants n); [|intros [= <- <-]; by left].
  case_decide.
  - destruct (relocation_failure xs) as [k|] eqn:Hk; [|done].
    intros [= <- <-]. right. split; [done|]. by exists k.
  - destruct (relocation_failure (take _ xs)) as [k|] eqn:Hk; [|done].
    apply relocation_failure_take in Hk.
    intros [= <- <-]. right. split; [done|]. by exists k.
Qed.

Lemma Reserve_returns_slots xs rest n v1 :
  fits xs rest ->
  Reserve n (vector_of xs rest) = Normal v1 ->
  (n <= N.of_nat (length xs + length rest) /\ v1 = vector_of xs rest)
  \/ (N.of_nat (length xs + length rest) < n /\ n < SIZE_MOD /\ grants n = true
      /\ (length xs <= slots n)%nat
      /\ v1 = block_vector xs (replicate (slots n - length xs) None) n).
Proof.
  intros Hfit.
  destruct (N.lt_ge_cases n SIZE_MOD) as [Hsz|Hsz]; [|by rewrite Reserve_large].
  rewrite Reserve_slots by done.
  destruct (N.leb_spec n (N.of_nat (length xs + length rest))) as [Hle|Hgt].
  { intros [= <-]. by left. }
  destruct (grants n); [|done].
  case_decide; [|by destruct (relocation_failure _)].
  destruct (relocation_failure xs); [done|].
  intros [= <-]. by right.
Qed.

(** X5. Reserve gives the strong guarantee for every element type that is
    nothrow move constructible or copy constructible: when it throws,
    whether from the allocation or from copying an element, the vector is
    exactly as it was. *)
Theorem Reserve_strong_guarantee (v v' : Vector) (n : N) (e : exn) :
  well_formed v = true ->
  relocation_is_safe = true ->
  Reserve n v = Throws e v' ->
  v' = v.
Proof.
  intros (xs & rest & -> & Hfit)%well_formed_vector Hsafe Hr.
  apply Reserve_throws in Hr; [|done].
  destruct Hr as [(_ & -> & _)|(_ & k & Hk & ->)]; [done|].
  by rewrite safe_left_behind.
Qed.

(** X6. For a move-only element type whose move constructor can throw,
    Reserve relocates by move, so a throw at element k is not rolled back:
    when the block obtained has a slot for element k, the vector keeps its
    block, size and capacity, but its first k elements are left in the
    moved-from state.  (The block has new_capacity slots unless
    new_capacity * sizeof(T) wrapped.) *)
Theorem Reserve_move_only_failure (v : Vector) (n : N) (k : nat) :
  well_formed v = true ->
  is_nothrow_move_constructible E = false ->
  is_copy_constructible E = false ->
  Capacity v < n ->
  n < SIZE_MOD ->
  grants n = true ->
  (k < slots n)%nat ->
  first_throw (move_throws E) (elements v) = Some k ->
  exists v', Reserve n v = Throws element_error v'
             /\ elements v' = (moved_from E <$> take k (elements v)) ++ drop k (elements v)
             /\ size_ v' = size_ v
             /\ Capacity v' = Capacity v
             /\ well_formed v' = true.
Proof.
  intros (xs & rest & -> & Hfit)%well_formed_vector Hn Hc.
  rewrite Capacity_vector_of, elements_vector_of. intros Hlt Hsz Hg Hslot Hk.
  rewrite Reserve_slots by done.
  destruct (N.leb_spec n (N.of_nat (length xs + length rest))) as [|_]; [lia|].
  assert (Hrf : forall j, (k < j)%nat -> relocation_failure (take j xs) = Some k).
  { intros j Hj. unfold relocation_failure, relocate_by_move, move_ctor_throws.
    rewrite Hn, Hc. by apply first_throw_in_take. }
  assert (Hrf' : relocation_failure xs = Some k).
  { apply (relocation_failure_take (S k)), Hrf. lia. }
  assert (Hlb : left_behind k xs = (moved_from E <$> take k xs) ++ drop k xs).
  { unfold left_behind, relocate_by_move. by rewrite Hn, Hc. }
  assert (Hout : (if decide (length xs <= slots n)%nat then
                    match relocation_failure xs with
                    | None => Normal (block_vector xs (replicate (slots n - length xs) None) n)
                    | Some k => Throws element_error (vector_of (left_behind k xs) rest)
                    end
                  else
                    match relocation_failure (take (S (slots n)) xs) with
                    | Some k => Throws element_error (vector_of (left_behind k xs) rest)
                    | None => Undefined
                    end)
                 = Throws element_error (vector_of (left_behind k xs) rest)).
  { case_decide; [by rewrite Hrf'|]. by rewrite Hrf by lia. }
  rewrite Hg, Hout, Hlb.
  eexists. split; [done|].
  rewrite elements_vector_of, !size_vector_of, !Capacity_vector_of.
  assert (Hlen : length ((moved_from E <$> take k xs) ++ drop k xs) = length xs).
  { rewrite length_app, length_fmap, <- length_app. by rewrite take_drop. }
  split; [done|]. rewrite Hlen. split; [done|]. split; [done|].
  apply well_formed_vector_of. unfold fits in *. by rewrite Hlen.
Qed.

(** X9. Resize to a larger size: whenever it returns, the old elements are
    followed by value-initialised ones up to the new size, and the capacity
    is the larger of the old capacity and the new size, so the block is
    replaced only when the new size does not fit. *)
Theorem Resize_grows (v v' : Vector) (n : N) :
  well_formed v = true ->
  size_ v < n ->
  Resize n v = Normal v' ->
  exists d, value_init E = Some d
            /\ elements v' = elements v ++ replicate (N.to_nat (n - size_ v)) d
            /\ size_ v' = n
            /\ Capacity v' = N.max (Capacity v) n
            /\ well_formed v' = true.
Proof.
  intros (xs & rest & -> & Hfit)%well_formed_vector.
  rewrite size_vector_of, Capacity_vector_of, elements_vector_of. intros Hlt.
  destruct (overflows n) eqn:Hov.
  { destruct (N.lt_ge_cases n SIZE_MOD) as [Hsz|Hsz]; [|by rewrite Resize_large].
    rewrite Resize_overflow by done.
    destruct (grants n); [|done].
    case_decide; [|by destruct (relocation_failure _)].
    destruct (relocation_failure xs); [done|]. by destruct (value_init E). }
  rewrite Resize_grow by auto. cbv zeta.
  replace (N.to_nat (n - N.of_nat (length xs))) with (N.to_nat n - length xs)%nat by lia.
  set (j := (N.to_nat n - length xs)%nat).
  destruct (N.leb_spec n (N.of_nat (length xs + length rest))) as [Hle|Hgt].
  - destruct (value_init E) as [d|]; [|done]. intros [= <-]. exists d.
    rewrite elements_vector_of, size_vector_of, Capacity_vector_of.
    assert (Hlen : (length (xs ++ replicate j d) + length (drop j rest)
                    = length xs + length rest)%nat).
    { rewrite length_app, length_replicate, length_drop. unfold j. lia. }
    split; [done|]. split; [done|].
    split; [rewrite length_app, length_replicate; unfold j; lia|].
    split; [rewrite Hlen; lia|].
    apply well_formed_vector_of. unfold fits in *. by rewrite Hlen.
  - destruct (grants n) eqn:Hg; [|done]. apply grants_le in Hg; [|done].
    destruct (relocation_failure xs); [done|].
    destruct (value_init E) as [d|]; [|done]. intros [= <-]. exists d.
    rewrite elements_vector_of, size_vector_of, Capacity_vector_of.
    assert (Hlen : N.of_nat (length (xs ++ replicate j d)) = n).
    { rewrite length_app, length_replicate. unfold j. lia. }
    split; [done|]. split; [done|]. split; [done|].
    cbn [length]. rewrite Nat.add_0_r, Hlen.
    split; [lia|].
    apply well_formed_vector_of. unfold fits. cbn [length]. rewrite Nat.add_0_r, Hlen. lia.
Qed.

(** X10. Resize throws only when growing.  For an element type that is
    nothrow move constructible or copy constructible the elements and the
    size are then as before; the vector as a whole is unchanged, unless the
    block had already been replaced when value initialisation threw, in
    which case the capacity has become the requested size. *)
Theorem Resize_exception_state (v v' : Vector) (n : N) (e : exn) :
  well_formed v = true ->
  relocation_is_safe = true ->
  Resize n v = Throws e v' ->
  size_ v < n
  /\ elements v' = elements v
  /\ size_ v' = size_ v
  /\ (v' = v \/ (value_init E = None /\ Capacity v < n /\ Capacity v' = n)).
Proof.
  intros (xs & rest & -> & Hfit)%well_formed_vector Hsafe.
  rewrite size_vector_of, Capacity_vector_of, elements_vector_of.
  destruct (N.lt_ge_cases (N.of_nat (length xs)) n) as [Hlt|Hge].
  - destruct (overflows n) eqn:Hov.
    { destruct (N.lt_ge_cases n SIZE_MOD) as [Hsz|Hsz]; [|by rewrite Resize_large].
      pose proof (overflows_gt n Hov) as Hmax.
      rewrite Resize_overflow by done.
      assert (Hsame : forall k, relocation_failure xs = Some k ->
                N.of_nat (length xs) < n
                /\ elements (vector_of (left_behind k xs) rest) = xs
                /\ size_ (vector_of (left_behind k xs) rest) = N.of_nat (length xs)
                /\ (vector_of (left_behind k xs) rest = vector_of xs rest
                    \/ (value_init E = None /\ N.of_nat (length xs + length rest) < n
                        /\ Capacity (vector_of (left_behind k xs) rest) = n))).
      { intros k Hk. rewrite safe_left_behind by done.
        rewrite elements_vector_of, size_vector_of. auto. }
      destruct (grants n).
      - case_decide.
        + destruct (relocation_failure xs) as [k|]; [intros [= _ <-]; by apply Hsame|].
          destruct (value_init E); [done|]. intros [= _ <-].
          rewrite elements_block_vector.
          split; [done|]. split; [done|]. split; [done|]. right.
          split; [done|]. split; [len_lia|done].
        + destruct (relocation_failure (take _ xs)) as [k|] eqn:Hk; [|done].
          apply relocation_failure_take in Hk. intros [= _ <-]. by apply Hsame.
      - intros [= _ <-]. rewrite elements_vector_of, size_vector_of. auto. }
    rewrite Resize_grow by auto. cbv zeta.
    destruct (N.leb_spec n (N.of_nat (length xs + length rest))) as [Hle|Hgt].
    + destruct (value_init E) as [d|]; [done|]. intros [= _ <-].
      rewrite elements_vector_of, size_vector_of. auto.
    + destruct (grants n) eqn:Hg.
      * apply grants_le in Hg; [|done].
        destruct (relocation_failure xs) as [k|] eqn:Hk.
        { intros [= _ <-]. rewrite safe_left_behind by done.
          rewrite elements_vector_of, size_vector_of. auto. }
        destruct (value_init E) as [d|]; [done|]. intros [= _ <-].
        rewrite elements_vector_of, size_vector_of, Capacity_vector_of.
        split; [done|]. split; [done|]. split; [done|]. right.
        split; [done|]. split; [done|]. rewrite length_replicate. lia.
      * intros [= _ <-]. rewrite elements_vector_of, size_vector_of. auto.
  - destruct (split_position xs n Hge) as (a & c & -> & ->).
    by rewrite Resize_shrink.
Qed.

(** X18. What Emplace leaves when it throws, for an element type that is
    nothrow move constructible or copy constructible: size and capacity are
    as before and the elements in front of the position are untouched; and
    the vector is exactly as it was when the call had to reallocate or
    inserted at the end. *)
Theorem Emplace_exception_state (v v' : Vector) (pos : N) (args : ctor_args) (e : exn) :
  well_formed v = true ->
  pos <= size_ v ->
  relocation_is_safe = true ->
  Emplace pos args v = Throws e v' ->
  size_ v' = size_ v
  /\ Capacity v' = Capacity v
  /\ take (N.to_nat pos) (elements v') = take (N.to_nat pos) (elements v)
  /\ (size_ v = Capacity v \/ pos = size_ v -> v' = v).
Proof.
  intros (xs & rest & -> & Hfit)%well_formed_vector.
  rewrite size_vector_of. intros Hpos Hsafe.
  destruct (split_position xs pos Hpos) as (a & c & -> & ->).
  assert (Hsame : size_ (vector_of (a ++ c) rest) = size_ (vector_of (a ++ c) rest)
                  /\ Capacity (vector_of (a ++ c) rest) = Capacity (vector_of (a ++ c) rest)
                  /\ take (N.to_nat (N.of_nat (length a))) (elements (vector_of (a ++ c) rest))
                     = take (N.to_nat (N.of_nat (length a))) (elements (vector_of (a ++ c) rest))
                  /\ (size_ (vector_of (a ++ c) rest) = Capacity (vector_of (a ++ c) rest)
                      \/ N.of_nat (length a) = N.of_nat (length (a ++ c)) ->
                      vector_of (a ++ c) rest = vector_of (a ++ c) rest)) by done.
  destruct rest as [|s rest].
  - rewrite Emplace_full by done. cbv zeta.
    destruct (grants _); [|by intros [= _ <-]].
    destruct (construct args _) as [x|e' u|]; [|by intros [= _ <-]|done].
    destruct (relocation_failure a) as [k|] eqn:Hk.
    { intros [= _ <-]. by rewrite safe_left_behind. }
    destruct (relocation_failure c) as [k|] eqn:Hk'; [|done].
    intros [= _ <-].
    destruct (relocation_is_safe_cases Hsafe) as [Hnone|Hid].
    + by rewrite Hnone in Hk'.
    + by rewrite !Hid.
  - destruct (decide (c = [])) as [->|Hne].
    + rewrite app_nil_r in *. rewrite Emplace_end by done.
      destruct (construct args _) as [x|e' u|]; [done| |done].
      by intros [= _ <-].
    + destruct (exists_last Hne) as (m & l & ->).
      rewrite Emplace_inside by done.
      destruct (construct args _) as [x|e' u|]; [|by intros [= _ <-]|done].
      destruct (move_ctor_throws l); [by intros [= _ <-]|].
      pose proof (shift_length (moved_from E l) (rev m)) as Hlen.
      assert (Hinside : forall r : list T,
                length r = S (length m) ->
                size_ (vector_of (a ++ r) (Some l :: rest))
                = size_ (vector_of (a ++ m ++ [l]) (s :: rest))
                /\ Capacity (vector_of (a ++ r) (Some l :: rest))
                   = Capacity (vector_of (a ++ m ++ [l]) (s :: rest))
                /\ take (N.to_nat (N.of_nat (length a)))
                     (elements (vector_of (a ++ r) (Some l :: rest)))
                   = take (N.to_nat (N.of_nat (length a)))
                       (elements (vector_of (a ++ m ++ [l]) (s :: rest)))
                /\ (size_ (vector_of (a ++ m ++ [l]) (s :: rest))
                    = Capacity (vector_of (a ++ m ++ [l]) (s :: rest))
                    \/ N.of_nat (length a) = N.of_nat (length (a ++ m ++ [l])) ->
                    vector_of (a ++ r) (Some l :: rest)
                    = vector_of (a ++ m ++ [l]) (s :: rest))).
      { intros r Hr. rewrite !size_vector_of, !Capacity_vector_of, !elements_vector_of.
        rewrite Nat2N.id, !take_app_length.
        assert (length (a ++ r) = length (a ++ m ++ [l])) as ->
            by (rewrite !length_app, Hr; simpl; lia).
        split; [done|]. split; [done|]. split; [done|].
        rewrite !length_app. cbn [length]. lia. }
      destruct (shift (moved_from E l) (rev m)) as [[] r]; cbn [fst snd] in *.
      { intros [= _ <-]. apply Hinside. by rewrite length_rev, Hlen, length_rev. }
      destruct (move_assign_throws E _ x); [|done].
      intros [= _ <-]. apply Hinside. done.
Qed.

Lemma shift_throws y xs :
  (shift y xs).1 = true -> exists a b, move_assign_throws E a b = true.
Proof.
  revert y. induction xs as [|x xs IH]; intros y; cbn [shift]; [done|].
  destruct (move_assign_throws E y x) eqn:Hyx; [by exists y, x|].
  specialize (IH (moved_from E x)).
  by destruct (shift (moved_from E x) xs).
Qed.

(** X21. Erase throws only what a move assignment of an element throws.  The
    vector then still has its size and capacity, and the elements in front
    of the erased position are untouched. *)
Theorem Erase_exception_state (v v' : Vector) (pos : N) (e : exn) :
  well_formed v = true ->
  pos < size_ v ->
  Erase pos v = Throws e v' ->
  e = element_error
  /\ (exists y x, move_assign_throws E y x = true)
  /\ size_ v' = size_ v
  /\ Capacity v' = Capacity v
  /\ take (N.to_nat pos) (elements v') = take (N.to_nat pos) (elements v)
  /\ well_formed v' = true.
Proof.
  intros (xs & rest & -> & Hfit)%well_formed_vector.
  rewrite size_vector_of. intros Hpos.
  destruct (split_position xs pos (N.lt_le_incl _ _ Hpos)) as (a & c & -> & ->).
  destruct c as [|y c]; [rewrite app_nil_r in Hpos; lia|].
  rewrite Erase_spec by done.
  pose proof (shift_length y c) as Hlen.
  pose proof (shift_throws y c) as Hthrows.
  destruct (shift y c) as [[] r]; cbn [fst snd] in *; [|done].
  intros [= <- <-]. split; [done|]. split; [by apply Hthrows|].
  rewrite !size_vector_of, !Capacity_vector_of, !elements_vector_of.
  rewrite Nat2N.id, !take_app_length.
  assert (length (a ++ r) = length (a ++ y :: c)) as Heq
      by (rewrite !length_app, Hlen; simpl; lia).
  rewrite Heq. split; [done|]. split; [done|]. split; [done|].
  apply well_formed_vector_of. unfold fits in *. by rewrite Heq.
Qed.

Lemma Vector_index_lookup v i :
  well_formed v = true -> Vector_index v i = elements v !! N.to_nat i.
Proof.
  intros (xs & rest & -> & Hfit)%well_formed_vector.
  by rewrite Vector_index_vector_of, elements_vector_of.
Qed.

Lemma dereference_lookup v (it : nat) :
  well_formed v = true -> (it < N.to_nat (size_ v))%nat ->
  dereference v it = elements v !! it.
Proof.
  intros (xs & rest & -> & Hfit)%well_formed_vector.
  rewrite size_vector_of, elements_vector_of. intros Hit.
  unfold dereference. cbn [vector_of data_ buffer_]. apply live_vector_of. lia.
Qed.

Lemma Reserve_returns (v v' : Vector) (n : N) :
  well_formed v = true ->
  overflows n = false ->
  Reserve n v = Normal v' ->
  well_formed v' = true
  /\ elements v' = elements v
  /\ size_ v' = size_ v
  /\ Capacity v' = N.max (Capacity v) n.
Proof.
  intros (xs & rest & -> & Hfit)%well_formed_vector Hov.
  rewrite Reserve_spec by done. rewrite Capacity_vector_of.
  destruct (N.leb_spec n (N.of_nat (length xs + length rest))) as [Hle|Hgt].
  - intros [= <-]. split; [by apply well_formed_vector_of|].
    rewrite Capacity_vector_of. split; [done|]. split; [done|]. lia.
  - destruct (grants n) eqn:Hg; [|done]. apply grants_le in Hg; [|done].
    destruct (relocation_failure xs); [done|]. intros [= <-].
    split; [apply well_formed_vector_of; len_lia|].
    rewrite !elements_vector_of, !size_vector_of, Capacity_vector_of.
    split; [done|]. split; [done|]. len_lia.
Qed.

Lemma PopBack_removes_last (v : Vector) (xs : list T) (x : T) :
  well_formed v = true ->
  elements v = xs ++ [x] ->
  exists v', PopBack v = Normal v'
             /\ well_formed v' = true
             /\ elements v' = xs
             /\ size_ v' + 1 = size_ v
             /\ Capacity v' = Capacity v.
Proof.
  intros (xs' & rest & -> & Hfit)%well_formed_vector.
  rewrite elements_vector_of. intros ->.
  rewrite PopBack_snoc by done. eexists. split; [done|].
  split; [apply well_formed_vector_of; len_lia|].
  rewrite elements_vector_of, !size_vector_of, !Capacity_vector_of.
  split; [done|]. split; len_lia.
Qed.

Lemma push_all_room (ys : list T) (v : Vector) :
  well_formed v = true ->
  size_ v + N.of_nat (length ys) <= Capacity v ->
  exists v', push_all ys v = Normal v'
             /\ well_formed v' = true
             /\ elements v' = elements v ++ ys
             /\ Capacity v' = Capacity v.
Proof.
  revert v. induction ys as [|y ys IH]; intros v Hwf Hroom.
  - exists v. cbn [push_all]. by rewrite app_nil_r.
  - destruct (well_formed_vector v Hwf) as (xs & rest & -> & Hfit).
    rewrite size_vector_of, Capacity_vector_of in Hroom.
    destruct rest as [|s rest]; [cbn [length] in Hroom; lia|].
    cbn [push_all]. unfold PushBack. rewrite EmplaceBack_room by done.
    cbn [construct].
    destruct (IH (vector_of (xs ++ [y]) rest)) as (v' & Hp & Hwf' & Hel & Hcap).
    { apply well_formed_vector_of. len_lia. }
    { rewrite size_vector_of, Capacity_vector_of. cbn [length] in Hroom. len_lia. }
    exists v'. rewrite Hp, Hel, Hcap, !elements_vector_of, <- app_assoc, !Capacity_vector_of.
    split; [done|]. split; [done|]. split; [done|]. len_lia.
Qed.

Lemma relocation_failure_nil : relocation_failure [] = None.
Proof. unfold relocation_failure. by destruct relocate_by_move. Qed.

Lemma leaves_whenever {A : Type} (state : A -> Vector) (P : Vector -> Prop)
    (o : outcome A Vector) :
  leaves state P o -> whenever state P o.
Proof. by destruct o. Qed.

Lemma capacity_vector_of_le xs rest xs' rest' :
  (length xs + length rest <= length xs' + length rest')%nat ->
  Capacity (vector_of xs rest) <= Capacity (vector_of xs' rest').
Proof. rewrite !Capacity_vector_of. lia. Qed.

(** X14. The reference EmplaceBack returns designates the new last element:
    its index is the old size, the element there is the value the
    constructor produced, and every old index still reads the value it read
    before, whether or not the block was replaced. *)
Theorem EmplaceBack_reference (v v' : Vector) (args : ctor_args) (r : N) :
  well_formed v = true ->
  EmplaceBack args v = Normal (v', r) ->
  r = size_ v
  /\ size_ v' = size_ v + 1
  /\ (exists x, construct args (buffer_ (data_ v)) = Normal x
                /\ Vector_index v' r = Some x)
  /\ (forall i, i < size_ v -> Vector_index v' i = Vector_index v i)
  /\ well_formed v' = true.
Proof.
  intros (xs & rest & -> & Hfit)%well_formed_vector.
  rewrite size_vector_of.
  assert (Hnew : forall x rest',
            fits (xs ++ [x]) rest' ->
            N.of_nat (length xs) = N.of_nat (length xs)
            /\ size_ (vector_of (xs ++ [x]) rest') = N.of_nat (length xs) + 1
            /\ Vector_index (vector_of (xs ++ [x]) rest') (N.of_nat (length xs)) = Some x
            /\ (forall i, i < N.of_nat (length xs) ->
                  Vector_index (vector_of (xs ++ [x]) rest') i
                  = Vector_index (vector_of xs rest) i)
            /\ well_formed (vector_of (xs ++ [x]) rest') = true).
  { intros x rest' Hfit'. rewrite size_vector_of, Vector_index_vector_of, Nat2N.id.
    split; [done|]. split; [len_lia|]. split; [by apply list_lookup_middle|].
    split; [|by apply well_formed_vector_of].
    intros i Hi. rewrite !Vector_index_vector_of. apply lookup_app_l. lia. }
  destruct rest as [|s rest].
  - rewrite EmplaceBack_full by done. cbv zeta.
    pose proof (growth_gt (N.of_nat (length xs))) as Hgt.
    destruct (grants _) eqn:Hg; [|done]. apply (grants_growth _ _ Hfit) in Hg.
    cbn [vector_of data_ buffer_].
    destruct (construct args _) as [x|e u|]; [|done|done].
    destruct (relocation_failure xs); [done|]. intros [= <- <-].
    destruct (Hnew x (replicate (N.to_nat (growth (N.of_nat (length xs))) - S (length xs)) None))
      as (H1 & H2 & H3 & H4 & H5); [len_lia|].
    split; [done|]. split; [done|]. split; [by exists x|]. done.
  - rewrite EmplaceBack_room by done. cbn [vector_of data_ buffer_].
    destruct (construct args _) as [x|e u|]; [|done|done]. intros [= <- <-].
    destruct (Hnew x rest) as (H1 & H2 & H3 & H4 & H5); [len_lia|].
    split; [done|]. split; [done|]. split; [by exists x|]. done.
Qed.

(** X17. The iterator Emplace returns lies in [begin(), end()) of the grown
    vector and points at the value the constructor produced; the elements in
    front of the position keep their indices and the elements from the
    position on are found one index further. *)
Theorem Emplace_iterator (v v' : Vector) (pos p : N) (args : ctor_args) :
  well_formed v = true ->
  pos <= size_ v ->
  Emplace pos args v = Normal (v', p) ->
  (Vector_begin v' + N.to_nat p < Vector_end v')%nat
  /\ (exists x, construct args (buffer_ (data_ v)) = Normal x
                /\ dereference v' (Vector_begin v' + N.to_nat p) = Some x)
  /\ (forall i, i < pos -> Vector_index v' i = Vector_index v i)
  /\ (forall i, pos <= i -> i < size_ v -> Vector_index v' (i + 1) = Vector_index v i).
Proof.
  intros Hwf Hpos He.
  destruct (Emplace_returns v v' pos p args Hwf Hpos He) as (x & Hx & -> & Hwf' & Hel & Hsz).
  pose proof (length_elements v Hwf) as Hlen.
  assert (Hlt : (length (take (N.to_nat pos) (elements v)) = N.to_nat pos)%nat)
    by (rewrite length_take; lia).
  unfold Vector_end, Vector_begin, GetAddress. cbn [Nat.add].
  split; [lia|]. split.
  - exists x. split; [done|]. rewrite dereference_lookup by (done || lia).
    rewrite Hel. by apply list_lookup_middle.
  - split.
    + intros i Hi. rewrite !Vector_index_lookup, Hel by done.
      rewrite lookup_app_l by lia. apply lookup_take_lt. lia.
    + intros i Hge Hi. rewrite !Vector_index_lookup, Hel by done.
      rewrite lookup_app_r by lia. rewrite Hlt.
      replace (N.to_nat (i + 1) - N.to_nat pos)%nat with (S (N.to_nat i - N.to_nat pos)) by lia.
      rewrite lookup_cons. cbn beta iota. rewrite lookup_drop. f_equal. lia.
Qed.

(** X11. PushBack followed by PopBack gives back the elements and the size
    the vector had; the capacity stays what PushBack made it. *)
Theorem PushBack_PopBack (v v1 : Vector) (x : T) :
  well_formed v = true ->
  PushBack (Args (Some x)) v = Normal v1 ->
  exists v2, PopBack v1 = Normal v2
             /\ elements v2 = elements v
             /\ size_ v2 = size_ v
             /\ Capacity v2 = Capacity v1
             /\ well_formed v2 = true.
Proof.
  intros Hwf Hp.
  destruct (PushBack_returns v v1 x Hwf Hp) as (Hwf1 & Hel & Hsz & _).
  destruct (PopBack_removes_last v1 (elements v) x Hwf1 Hel)
    as (v2 & Hpop & Hwf2 & Hel2 & Hsz2 & Hcap2).
  exists v2. split; [done|]. split; [done|]. split; [lia|]. done.
Qed.

(** X8. After Reserve(n) has returned for an n whose byte count
    n * sizeof(T) does not wrap, pushing values while the size stays within
    n never replaces the block: each PushBack returns whatever the heap
    would answer and whatever relocation would throw, the values are
    appended in order, and the capacity stays as Reserve left it. *)
Theorem Reserve_then_push (v v1 : Vector) (n : N) (ys : list T) :
  well_formed v = true ->
  overflows n = false ->
  Reserve n v = Normal v1 ->
  size_ v + N.of_nat (length ys) <= n ->
  exists v2, push_all ys v1 = Normal v2
             /\ elements v2 = elements v ++ ys
             /\ Capacity v2 = Capacity v1
             /\ well_formed v2 = true.
Proof.
  intros Hwf Hov Hr Hroom.
  destruct (Reserve_returns v v1 n Hwf Hov Hr) as (Hwf1 & Hel & Hsz & Hcap).
  destruct (push_all_room ys v1 Hwf1) as (v2 & Hp & Hwf2 & Hel2 & Hcap2); [lia|].
  exists v2. by rewrite Hel2, Hel.
Qed.

(** X16. Emplace at end() behaves exactly as EmplaceBack: the same vector
    and the same position on return, the same exception and the same vector
    left behind on a throw. *)
Theorem Emplace_at_end (v : Vector) (args : ctor_args) :
  well_formed v = true ->
  Emplace (size_ v) args v = EmplaceBack args v.
Proof.
  intros (xs & rest & -> & Hfit)%well_formed_vector. rewrite size_vector_of.
  destruct rest as [|s rest].
  - pose proof (Emplace_full xs [] args) as He.
    rewrite !app_nil_r in He. rewrite He by done.
    rewrite EmplaceBack_full by done. rewrite !app_nil_r. cbv zeta.
    rewrite relocation_failure_nil.
    destruct (grants _); [|done].
    destruct (construct args _); [|done|done].
    destruct (relocation_failure xs); [|done]. by rewrite app_nil_r.
  - by rewrite Emplace_end, EmplaceBack_room.
Qed.

(** X22. Erasing the last element is PopBack: no element is move assigned,
    so nothing can throw, and the iterator returned is the new end(). *)
Theorem Erase_last (v : Vector) :
  well_formed v = true ->
  0 < size_ v ->
  exists v', PopBack v = Normal v'
             /\ Erase (size_ v - 1) v = Normal (v', size_ v - 1)
             /\ Vector_end v' = (Vector_begin v' + N.to_nat (size_ v - 1))%nat.
Proof.
  intros (xs & rest & -> & Hfit)%well_formed_vector.
  rewrite size_vector_of. intros Hpos.
  destruct (decide (xs = [])) as [->|Hne]; [cbn [length] in Hpos; lia|].
  destruct (exists_last Hne) as (a & y & ->).
  replace (N.of_nat (length (a ++ [y])) - 1) with (N.of_nat (length a)) by len_lia.
  rewrite Erase_spec, PopBack_snoc by done. cbn [shift fst snd].
  rewrite app_nil_r. eexists. split; [done|]. split; [done|].
  unfold Vector_end, Vector_begin. by rewrite size_vector_of.
Qed.

Lemma Emplace_throwing_constructor (v : Vector) (pos : N) (args : ctor_args) (e : exn) :
  well_formed v = true ->
  pos <= size_ v ->
  construct args (buffer_ (data_ v)) = Throws e tt ->
  exists e', Emplace pos args v = Throws e' v /\ (e' = e \/ e' = bad_alloc).
Proof.
  intros (xs & rest & -> & Hfit)%well_formed_vector.
  rewrite size_vector_of. intros Hpos.
  destruct (split_position xs pos Hpos) as (a & c & -> & ->).
  cbn [vector_of data_ buffer_]. intros Hc.
  destruct rest as [|s rest].
  - rewrite Emplace_full by done. cbv zeta.
    destruct (grants _).
    + rewrite Hc. exists e. auto.
    + exists bad_alloc. auto.
  - destruct (decide (c = [])) as [->|Hne].
    + rewrite app_nil_r in *. rewrite Emplace_end by done.
      rewrite Hc. exists e. auto.
    + destruct (exists_last Hne) as (m & l & ->).
      rewrite Emplace_inside by done. rewrite Hc. exists e. auto.
Qed.

(** X20. When the constructor of the new element throws, Emplace leaves the
    vector exactly as it was on every path: with and without reallocation, at
    the end and in the middle.  The same holds for Insert of a value whose
    copy constructor throws and for Insert of an rvalue whose move
    constructor throws. *)
Theorem Emplace_constructor_throws (v : Vector) (pos : N) :
  well_formed v = true ->
  pos <= size_ v ->
  (forall args e, construct args (buffer_ (data_ v)) = Throws e tt ->
     exists e', Emplace pos args v = Throws e' v /\ (e' = e \/ e' = bad_alloc))
  /\ (forall x, copy_throws E x = true -> exists e', Insert pos x v = Throws e' v)
  /\ (forall x, move_ctor_throws x = true ->
        exists e', Insert_rvalue pos x v = Throws e' v).
Proof.
  intros Hwf Hpos. split; [|split].
  - intros args e Hc. by apply Emplace_throwing_constructor.
  - intros x Hx. unfold Insert. rewrite Hx.
    destruct (Emplace_throwing_constructor v pos (Args None) element_error Hwf Hpos eq_refl)
      as (e' & He & _).
    by exists e'.
  - intros x Hx. unfold Insert_rvalue. rewrite Hx.
    destruct (Emplace_throwing_constructor v pos (Args None) element_error Hwf Hpos eq_refl)
      as (e' & He & _).
    by exists e'.
Qed.

(** X23. Both overloads of Insert, whenever they return, have put the value
    at the position, in front of the element that was there: the iterator
    returned is the position, the elements before and after are as they
    were, and the size has grown by one.  The overload taking an rvalue
    differs only in the constructor it runs. *)
Theorem Insert_returns (v v' : Vector) (pos p : N) (x : T) :
  well_formed v = true ->
  pos <= size_ v ->
  Insert pos x v = Normal (v', p) \/ Insert_rvalue pos x v = Normal (v', p) ->
  p = pos
  /\ elements v' = take (N.to_nat pos) (elements v) ++ x :: drop (N.to_nat pos) (elements v)
  /\ size_ v' = size_ v + 1
  /\ Vector_index v' p = Some x
  /\ well_formed v' = true.
Proof.
  intros Hwf Hpos Hins.
  assert (Hemp : exists r, Emplace pos (Args r) v = Normal (v', p) /\ (r = None \/ r = Some x)).
  { destruct Hins as [H|H]; [unfold Insert in H|unfold Insert_rvalue in H];
      eexists; (split; [exact H|]).
    - destruct (copy_throws E x); auto.
    - destruct (move_ctor_throws x); auto. }
  destruct Hemp as (r & He & Hr).
  destruct (Emplace_returns v v' pos p (Args r) Hwf Hpos He) as (y & Hy & -> & Hwf' & Hel & Hsz).
  assert (y = x) as ->.
  { destruct Hr as [-> | ->]; cbn [construct] in Hy; congruence. }
  split; [done|]. split; [done|]. split; [done|]. split; [|done].
  rewrite Vector_index_lookup, Hel by done.
  apply list_lookup_middle. rewrite length_take.
  pose proof (length_elements v Hwf). lia.
Qed.

(** X24. No operation gives storage back: whatever Reserve, Resize,
    PopBack, EmplaceBack, Emplace, Erase and copy assignment do, on return
    and on an exception, the capacity they leave is at least the capacity
    they found.  For Reserve and Resize this holds of every return and
    every exception, for every argument; they stay within defined behaviour
    when the byte count of the argument does not wrap. *)
Theorem capacity_never_shrinks (v : Vector) :
  well_formed v = true ->
  (forall n, whenever (fun v' => v') (fun v' => Capacity v <= Capacity v') (Reserve n v))
  /\ (forall n, whenever (fun v' => v') (fun v' => Capacity v <= Capacity v') (Resize n v))
  /\ (forall n, overflows n = false ->
        leaves (fun v' => v') (fun v' => Capacity v <= Capacity v') (Reserve n v)
        /\ leaves (fun v' => v') (fun v' => Capacity v <= Capacity v') (Resize n v))
  /\ leaves (fun v' => v') (fun v' => Capacity v <= Capacity v') (PopBack v)
  /\ (forall args, refers_inside args v = true ->
        leaves fst (fun v' => Capacity v <= Capacity v') (EmplaceBack args v))
  /\ (forall pos args, pos <= size_ v -> refers_inside args v = true ->
        leaves fst (fun v' => Capacity v <= Capacity v') (Emplace pos args v))
  /\ (forall pos, pos < size_ v ->
        leaves fst (fun v' => Capacity v <= Capacity v') (Erase pos v))
  /\ (forall rhs, well_formed rhs = true ->
        leaves (fun v' => v') (fun v' => Capacity v <= Capacity v')
          (copy_assign (Distinct v rhs))).
Proof.
  intros Hwf. pose proof Hwf as (xs & rest & -> & Hfit)%well_formed_vector.
  assert (Hres : forall n, overflows n = false ->
            leaves (fun v' => v')
              (fun v' => Capacity (vector_of xs rest) <= Capacity v')
              (Reserve n (vector_of xs rest))).
  { intros n Hov. rewrite Reserve_spec by done.
    destruct (N.leb_spec n (N.of_nat (length xs + length rest))) as [Hle|Hgt];
      [cbn [leaves]; lia|].
    destruct (grants n) eqn:Hg; [|cbn [leaves]; lia]. apply grants_le in Hg; [|done].
    destruct (relocation_failure xs); cbn [leaves]; apply capacity_vector_of_le; len_lia. }
  assert (Hrsz : forall n, overflows n = false ->
            leaves (fun v' => v')
              (fun v' => Capacity (vector_of xs rest) <= Capacity v')
              (Resize n (vector_of xs rest))).
  { intros n Hov. destruct (N.lt_ge_cases (N.of_nat (length xs)) n) as [Hlt|Hge].
    + rewrite Resize_grow by auto. cbv zeta.
      destruct (N.leb_spec n (N.of_nat (length xs + length rest))).
      * destruct (value_init E); cbn [leaves]; apply capacity_vector_of_le;
          rewrite ?length_app, ?length_replicate, ?length_drop; lia.
      * destruct (grants n) eqn:Hg; [|cbn [leaves]; lia]. apply grants_le in Hg; [|done].
        destruct (relocation_failure xs);
          [cbn [leaves]; apply capacity_vector_of_le; len_lia|].
        destruct (value_init E); cbn [leaves]; apply capacity_vector_of_le;
          rewrite ?length_app, ?length_replicate; cbn [length]; lia.
    + destruct (split_position xs n Hge) as (a & c & -> & ->).
      rewrite Resize_shrink by done. cbn [leaves]. apply capacity_vector_of_le.
      rewrite !length_app, length_replicate. lia. }
  assert (Hkeep : forall k, Capacity (vector_of xs rest)
                            <= Capacity (vector_of (left_behind k xs) rest)).
  { intros k. apply capacity_vector_of_le. by rewrite length_left_behind. }
  split; [|split; [|split; [|split; [|split; [|split; [|split]]]]]].
  - intros n. destruct (overflows n) eqn:Hov; [|by apply leaves_whenever, Hres].
    destruct (Reserve n (vector_of xs rest)) as [v1|e v1|] eqn:Hr; [| |done];
      cbn [whenever].
    + apply Reserve_returns_slots in Hr; [|done].
      destruct Hr as [(_ & ->)|(Hlt & _ & _ & _ & ->)]; [lia|].
      rewrite Capacity_vector_of. unfold Capacity. cbn. lia.
    + apply Reserve_throws in Hr; [|done].
      destruct Hr as [(_ & -> & _)|(_ & k & _ & ->)]; [lia|apply Hkeep].
  - intros n. destruct (overflows n) eqn:Hov; [|by apply leaves_whenever, Hrsz].
    destruct (N.lt_ge_cases n SIZE_MOD) as [Hsz|Hsz]; [|by rewrite Resize_large].
    pose proof (overflows_gt n Hov) as Hmax.
    rewrite Resize_overflow by done.
    destruct (grants n); [|cbn [whenever]; lia].
    case_decide.
    + destruct (relocation_failure xs); [apply Hkeep|].
      destruct (value_init E); [done|]. cbn [whenever].
      rewrite Capacity_vector_of. unfold Capacity. cbn. len_lia.
    + destruct (relocation_failure (take _ xs)); [apply Hkeep|done].
  - intros n Hov. split; [by apply Hres|by apply Hrsz].
  - destruct (decide (xs = [])) as [->|Hne].
    + rewrite PopBack_nil. cbn [leaves]. lia.
    + destruct (exists_last Hne) as (a & y & ->).
      rewrite PopBack_snoc by done. cbn [leaves]. apply capacity_vector_of_le.
      rewrite length_app. cbn [length]. lia.
  - intros args Hin.
    pose proof (construct_defined args xs rest Hin) as Hc.
    destruct rest as [|s rest].
    + rewrite EmplaceBack_full by done. cbv zeta.
      pose proof (growth_gt (N.of_nat (length xs))) as Hgt.
      destruct (grants _) eqn:Hg; [|cbn [leaves]; lia]. apply (grants_growth _ _ Hfit) in Hg.
      destruct Hc as [[x ->]| ->]; [|cbn [leaves]; lia].
      destruct (relocation_failure xs); cbn [leaves fst];
        apply capacity_vector_of_le; len_lia.
    + rewrite EmplaceBack_room by done.
      destruct Hc as [[x ->]| ->]; cbn [leaves fst]; apply capacity_vector_of_le;
        rewrite ?length_app; cbn [length]; lia.
  - intros pos args Hpos Hin.
    pose proof (construct_defined args xs rest Hin) as Hc.
    rewrite size_vector_of in Hpos.
    destruct (split_position xs pos Hpos) as (a & c & -> & ->).
    destruct rest as [|s rest].
    + rewrite Emplace_full by done. cbv zeta.
      pose proof (growth_gt (N.of_nat (length (a ++ c)))) as Hgt.
      destruct (grants _) eqn:Hg; [|cbn [leaves]; lia]. apply (grants_growth _ _ Hfit) in Hg.
      destruct Hc as [[x ->]| ->]; [|cbn [leaves]; lia].
      destruct (relocation_failure a);
        [cbn [leaves]; apply capacity_vector_of_le; len_lia|].
      destruct (relocation_failure c); cbn [leaves fst];
        apply capacity_vector_of_le; len_lia.
    + destruct (decide (c = [])) as [->|Hne].
      * rewrite app_nil_r in *. rewrite Emplace_end by done.
        destruct Hc as [[x ->]| ->]; cbn [leaves fst]; apply capacity_vector_of_le;
          rewrite ?length_app; cbn [length]; lia.
      * destruct (exists_last Hne) as (m & l & ->).
        rewrite Emplace_inside by done.
        destruct Hc as [[x ->]| ->]; [|cbn [leaves]; lia].
        destruct (move_ctor_throws l); [cbn [leaves]; lia|].
        pose proof (shift_length (moved_from E l) (rev m)) as Hlen.
        destruct (shift (moved_from E l) (rev m)) as [[] r]; cbn [fst snd] in *.
        { cbn [leaves]. apply capacity_vector_of_le.
          rewrite !length_app, length_rev, Hlen, length_rev. cbn [length]. lia. }
        destruct (move_assign_throws E _ x); cbn [leaves fst];
          apply capacity_vector_of_le; rewrite !length_app; cbn [length];
          rewrite ?length_app; cbn [length]; lia.
  - intros pos Hpos. rewrite size_vector_of in Hpos.
    destruct (split_position xs pos (N.lt_le_incl _ _ Hpos)) as (a & c & -> & ->).
    destruct c as [|y c]; [rewrite app_nil_r in Hpos; lia|].
    rewrite Erase_spec by done.
    pose proof (shift_length y c) as Hlen.
    destruct (shift y c) as [[] r]; cbn [fst snd leaves] in *;
      apply capacity_vector_of_le; rewrite !length_app, ?Hlen; cbn [length]; lia.
  - intros rhs Hwr.
    destruct (copy_assign_strategies _ rhs Hwf Hwr) as [H1 H2].
    destruct (N.lt_ge_cases (Capacity (vector_of xs rest)) (size_ rhs)) as [Hlt|Hge].
    + destruct (H1 Hlt) as [(v' & -> & _ & _ & _ & Hc)|(e & ->)]; cbn [leaves]; lia.
    + destruct (H2 Hge) as [(v' & -> & _ & _ & _ & Hc)|(e & v' & k & -> & _ & _ & Hc & _)];
        cbn [leaves]; lia.
Qed.

(** X25. A refused allocation surfaces as bad_alloc with the vector exactly
    as it was, in every operation that allocates: Reserve and Resize beyond
    the capacity, also when the byte count of the argument wraps and the
    heap refuses what is left of it, EmplaceBack and Emplace on a full
    vector, for every constructor argument a caller can pass, and copy
    assignment from a vector larger than the capacity. *)
Theorem allocation_failure (v : Vector) :
  well_formed v = true ->
  (forall n, Capacity v < n -> n < SIZE_MOD -> grants n = false ->
     Reserve n v = Throws bad_alloc v /\ Resize n v = Throws bad_alloc v)
  /\ (forall args, refers_inside args v = true ->
        size_ v = Capacity v -> grants (growth (size_ v)) = false ->
        EmplaceBack args v = Throws bad_alloc v)
  /\ (forall pos args, pos <= size_ v -> refers_inside args v = true ->
        size_ v = Capacity v -> grants (growth (size_ v)) = false ->
        Emplace pos args v = Throws bad_alloc v)
  /\ (forall rhs, well_formed rhs = true -> Capacity v < size_ rhs ->
        grants (size_ rhs) = false ->
        copy_assign (Distinct v rhs) = Throws bad_alloc v).
Proof.
  intros (xs & rest & -> & Hfit)%well_formed_vector.
  rewrite size_vector_of, Capacity_vector_of. split; [|split; [|split]].
  - intros n Hn Hsz Hg. split.
    + rewrite Reserve_slots by done.
      destruct (N.leb_spec n (N.of_nat (length xs + length rest))) as [|_]; [lia|].
      by rewrite Hg.
    + destruct (overflows n) eqn:Hov.
      * rewrite Resize_overflow by done. by rewrite Hg.
      * rewrite Resize_grow by (done || lia || auto). cbv zeta.
        destruct (N.leb_spec n (N.of_nat (length xs + length rest))) as [|_]; [lia|].
        by rewrite Hg.
  - intros args _ Hfull Hg.
    destruct rest as [|s rest]; [|cbn [length] in Hfull; lia].
    rewrite EmplaceBack_full by done. cbv zeta. by rewrite Hg.
  - intros pos args Hpos _ Hfull Hg.
    destruct rest as [|s rest]; [|cbn [length] in Hfull; lia].
    destruct (split_position xs pos Hpos) as (a & c & -> & ->).
    rewrite Emplace_full by done. cbv zeta. by rewrite Hg.
  - intros rhs (zs & rrest & -> & Hrfit)%well_formed_vector.
    rewrite size_vector_of. intros Hlt Hg.
    rewrite copy_assign_realloc by (done || lia). by rewrite Hg.
Qed.

(** X7. Reserve is idempotent: once Reserve(n) has returned, a further
    Reserve(m) with m <= n returns at once and changes nothing, so it
    neither allocates nor touches an element. *)
Theorem Reserve_Reserve (v v1 : Vector) (n m : N) :
  well_formed v = true ->
  Reserve n v = Normal v1 ->
  m <= n ->
  Reserve m v1 = Normal v1.
Proof.
  intros (xs & rest & -> & Hfit)%well_formed_vector Hr Hm.
  apply Reserve_returns_slots in Hr; [|done].
  unfold Reserve.
  destruct Hr as [(Hle & ->)|(Hlt & _ & _ & _ & ->)];
    cbn [vector_of block_vector data_ capacity_].
  - by destruct (N.leb_spec m (N.of_nat (length xs + length rest))) as [_|]; [|lia].
  - by destruct (N.leb_spec m n) as [_|]; [|lia].
Qed.

(** X19. When Emplace inserts in front of an element without reallocating
    and a move assignment throws after the last element has been move
    constructed into the slot at end(), the size is not incremented: the
    object constructed at end() stays in the block beyond the elements the
    vector counts. *)
Theorem Emplace_throw_past_end (v v' : Vector) (pos : N) (args : ctor_args)
    (e : exn) (x l : T) :
  well_formed v = true ->
  pos < size_ v ->
  size_ v < Capacity v ->
  construct args (buffer_ (data_ v)) = Normal x ->
  elements v !! (N.to_nat (size_ v) - 1)%nat = Some l ->
  move_ctor_throws l = false ->
  Emplace pos args v = Throws e v' ->
  size_ v' = size_ v
  /\ live (buffer_ (data_ v')) (N.to_nat (size_ v')) = Some l.
Proof.
  intros (xs & rest & -> & Hfit)%well_formed_vector.
  rewrite size_vector_of, Capacity_vector_of, elements_vector_of, Nat2N.id.
  intros Hpos Hroom.
  destruct (split_position xs pos (N.lt_le_incl _ _ Hpos)) as (a & c & -> & ->).
  destruct rest as [|s rest]; [cbn [length] in Hroom; lia|].
  destruct (decide (c = [])) as [->|Hne]; [rewrite app_nil_r in Hpos; lia|].
  destruct (exists_last Hne) as (m & l' & ->).
  cbn [vector_of data_ buffer_]. intros Hc Hl Hmove.
  assert (l' = l) as ->.
  { rewrite !app_assoc in Hl.
    rewrite lookup_app_r in Hl by (rewrite !length_app; cbn [length]; lia).
    rewrite !length_app in Hl. cbn [length] in Hl.
    replace (length a + length m + 1 - 1 - (length a + length m))%nat with O in Hl by lia.
    by injection Hl. }
  rewrite Emplace_inside by done. rewrite Hc, Hmove.
  pose proof (shift_length (moved_from E l) (rev m)) as Hlen.
  assert (Hpast : forall r : list T,
            length r = S (length m) ->
            size_ (vector_of (a ++ r) (Some l :: rest)) = N.of_nat (length (a ++ m ++ [l]))
            /\ live (buffer_ (data_ (vector_of (a ++ r) (Some l :: rest))))
                 (N.to_nat (size_ (vector_of (a ++ r) (Some l :: rest)))) = Some l).
  { intros r Hr. rewrite size_vector_of, Nat2N.id. cbn [vector_of data_ buffer_].
    split; [rewrite !length_app, Hr; simpl; lia|].
    apply live_at. by rewrite length_fmap. }
  destruct (shift (moved_from E l) (rev m)) as [[] r]; cbn [fst snd] in *.
  { intros [= _ <-]. apply Hpast. by rewrite length_rev, Hlen, length_rev. }
  destruct (move_assign_throws E _ x); [|done].
  intros [= _ <-]. by apply Hpast.
Qed.

(** X13. For a move-only element type whose move constructor can throw,
    EmplaceBack on a full vector relocates by move without a handler, so a
    throw at element k leaves the vector with its old block, size and
    capacity but with its first k elements in the moved-from state. *)
Theorem EmplaceBack_move_only_failure (v : Vector) (x : T) (k : nat) :
  well_formed v = true ->
  is_nothrow_move_constructible E = false ->
  is_copy_constructible E = false ->
  size_ v = Capacity v ->
  grants (growth (size_ v)) = true ->
  first_throw (move_throws E) (elements v) = Some k ->
  exists v', EmplaceBack (Args (Some x)) v = Throws element_error v'
             /\ elements v' = (moved_from E <$> take k (elements v)) ++ drop k (elements v)
             /\ size_ v' = size_ v
             /\ Capacity v' = Capacity v
             /\ well_formed v' = true.
Proof.
  intros (xs & rest & -> & Hfit)%well_formed_vector Hn Hc.
  rewrite size_vector_of, Capacity_vector_of, elements_vector_of. intros Hfull Hg Hk.
  destruct rest as [|s rest]; [|cbn [length] in Hfull; lia].
  rewrite EmplaceBack_full by done. cbv zeta. rewrite Hg. cbn [construct].
  assert (Hrf : relocation_failure xs = Some k).
  { unfold relocation_failure, relocate_by_move, move_ctor_throws.
    rewrite Hn, Hc. exact Hk. }
  assert (Hlb : left_behind k xs = (moved_from E <$> take k xs) ++ drop k xs).
  { unfold left_behind, relocate_by_move. by rewrite Hn, Hc. }
  rewrite Hrf, Hlb.
  eexists. split; [done|].
  rewrite elements_vector_of, !size_vector_of, !Capacity_vector_of.
  assert (Hlen : length ((moved_from E <$> take k xs) ++ drop k xs) = length xs).
  { rewrite length_app, length_fmap, <- length_app. by rewrite take_drop. }
  split; [done|]. rewrite Hlen. split; [done|]. split; [done|].
  apply well_formed_vector_of. unfold fits in *. by rewrite Hlen.
Qed.

End AdvancedVector.

(** C4. Copy assignment of a vector to itself changes nothing.  Between two
    vectors it follows one of two strategies, chosen by comparing the
    source's size with the target's capacity.  When the size exceeds the
    capacity, it builds a copy of the source and swaps it in: it returns,
    with the target holding exactly the source's elements in storage of
    exactly that capacity, when the heap grants the request and no copy
    throws, and otherwise throws and leaves the target exactly as it was.
    Otherwise it keeps the target's storage: it copy assigns over the first
    min(size, source size) elements, then destroys the target's excess
    elements or copy constructs the source's; the slots behind them are left
    alone.  It returns when no assignment and no copy throws; an assignment
    that throws at element k leaves the first k elements overwritten, and a
    copy that throws leaves the assigned prefix without the copies made.
    Whenever copy assignment returns, the target is well formed with the
    source's size and element values; whenever it throws, the target is
    well formed with its old size and capacity.  The partly overwritten case
    does occur: assigning [9; 7; 5] to [1; 2; 3], with an element type whose
    copy assignment throws on 7, leaves [9; 2; 3]. *)
Theorem copy_assignment_guarantees :
  (forall (T : Type) (E : Element T) (heap : N -> bool) (this rhs : Vector),
     well_formed E this = true -> well_formed E rhs = true ->
     copy_assign E heap (Same this) = Normal this
     /\ (Capacity this < size_ rhs ->
          copy_assign E heap (Distinct this rhs)
          = if grants E heap (size_ rhs) then
              match first_throw (copy_throws E) (elements rhs) with
              | None => Normal (vector_of (elements rhs) [])
              | Some _ => Throws element_error this
              end
            else Throws bad_alloc this)
     /\ (size_ rhs <= Capacity this ->
          copy_assign E heap (Distinct this rhs)
          = let xs := elements this in
            let zs := elements rhs in
            let mn := (length xs `min` length zs)%nat in
            match first_throw2 (copy_assign_throws E) (take mn xs) (take mn zs) with
            | Some k =>
                Throws element_error (vector_of (take k zs ++ drop k xs) (spare this))
            | None =>
                if (length zs <? length xs)%nat then
                  Normal (vector_of zs
                            (replicate (length xs - length zs) None ++ spare this))
                else
                  match first_throw (copy_throws E) (drop (length xs) zs) with
                  | None =>
                      Normal (vector_of zs (drop (length zs - length xs) (spare this)))
                  | Some k =>
                      Throws element_error
                        (vector_of (take (length xs) zs)
                                   (replicate k None ++ drop k (spare this)))
                  end
            end)
     /\ (forall this', copy_assign E heap (Distinct this rhs) = Normal this' ->
           well_formed E this' = true
           /\ elements this' = elements rhs
           /\ size_ this' = size_ rhs
           /\ Capacity this'
              = if Capacity this <? size_ rhs then size_ rhs else Capacity this)
     /\ (forall e this', copy_assign E heap (Distinct this rhs) = Throws e this' ->
           well_formed E this' = true
           /\ size_ this' = size_ this
           /\ Capacity this' = Capacity this
           /\ (Capacity this < size_ rhs -> this' = this)
           /\ exists k, elements this'
                        = take k (elements rhs) ++ drop k (elements this)))
  /\ (size_ (vector_of [9; 7; 5] []) <= Capacity (vector_of [1; 2; 3] [])
      /\ copy_assign fragile_ops roomy
           (Distinct (vector_of [1; 2; 3] []) (vector_of [9; 7; 5] []))
         = Throws element_error (vector_of [9; 2; 3] [])).
Proof.
  split.
  - intros T E heap this rhs Hwf Hwr. split; [done|].
    by apply copy_assign_outcomes.
  - split; [done|]. vm_compute. reflexivity.
Qed.

(** C6. For an Insert whose argument is a reference to the vector's own
    element v[i], at any position p <= size: whenever it returns, the vector
    holds the value that v[i] held before the call inserted at p, that is
    the elements before p, that value, the elements from p on; and it does
    return when no element operation throws and the heap grants what growth
    asks for.  Inserting v[0] at the end of [10; 20; 30] gives
    [10; 20; 30; 10], whether or not the vector is full. *)
Theorem self_referential_insert :
  (forall (T : Type) (E : Element T) (heap : N -> bool) (v : Vector) (p i : N) (x : T),
     well_formed E v = true ->
     p <= size_ v ->
     Vector_index v i = Some x ->
     (forall v' p', Insert_element E heap p i v = Normal (v', p') ->
        p' = p
        /\ well_formed E v' = true
        /\ elements v' = take (N.to_nat p) (elements v)
                         ++ x :: drop (N.to_nat p) (elements v))
     /\ (copy_throws E x = false ->
         (size_ v = Capacity v -> grants E heap (growth (size_ v)) = true) ->
         (forall y, relocation_throws E y = false) ->
         (forall y, move_ctor_throws E y = false) ->
         (forall a b, move_assign_throws E a b = false) ->
         exists v', Insert_element E heap p i v = Normal (v', p)))
  /\ (exists v', Insert_element int_ops roomy 3 0 (vector_of [10; 20; 30] [])
                 = Normal (v', 3)
                 /\ elements v' = [10; 20; 30; 10])
  /\ (exists v', Insert_element int_ops roomy 3 0 (vector_of [10; 20; 30] [None])
                 = Normal (v', 3)
                 /\ elements v' = [10; 20; 30; 10]).
Proof.
  split.
  - intros T E heap v p i x Hwf Hp Hi. split.
    + intros v' p'. by apply Insert_element_returns.
    + intros. by apply Insert_element_ok with (x := x).
  - split; eexists; (split; [vm_compute; reflexivity|reflexivity]).
Qed.

(** ** Instances *)

(** The strong guarantee of EmplaceBack at a full vector [1; 7; 3] whose own
    element 7 is pushed, with an element type whose copy constructor throws
    on 7. *)
Lemma EmplaceBack_constructor_throws_witness :
  exists e', (e' = element_error \/ e' = bad_alloc)
             /\ EmplaceBack fragile_ops roomy (CopyOfElement 1) (vector_of [1; 7; 3] [])
                = Throws e' (vector_of [1; 7; 3] [])
             /\ PushBack fragile_ops roomy (CopyOfElement 1) (vector_of [1; 7; 3] [])
                = Throws e' (vector_of [1; 7; 3] []).
Proof.
  apply (EmplaceBack_constructor_throws fragile_ops roomy
           (vector_of [1; 7; 3] []) (CopyOfElement 1) element_error);
    reflexivity.
Defined.

(** After the move assignment of [2; 3] into a vector that held [1], the
    moved-from vector is not empty. *)
Lemma move_assign_source_not_empty :
  match move_assign (Distinct (vector_of [1] []) (vector_of [2; 3] [])) with
  | Distinct _ source => size_ source <> 0
  | Same _ => False
  end.
Proof. vm_compute. discriminate. Qed.

(** The moved-from states at the target [1] and the source [2; 3]. *)
Lemma moved_from_vector_witness :
  Vector_move (vector_of [2; 3] []) = (vector_of [2; 3] [], Vector_default)
  /\ size_ (@Vector_default N) = 0
  /\ move_assign (Distinct (vector_of [1] []) (vector_of [2; 3] []))
     = Distinct (vector_of [2; 3] []) (vector_of [1] [])
  /\ move_assign (Same (vector_of [1] [])) = Same (vector_of [1] [])
  /\ forall m, m = Vector_default \/ m = vector_of [1] [] ->
       well_formed int_ops m = true
       /\ Vector_destructor m = Some tt
       /\ exists m', PushBack int_ops roomy (Args (Some 4)) m = Normal m'
                     /\ elements m' = elements m ++ [4].
Proof.
  apply (moved_from_vector int_ops roomy (vector_of [1] []) (vector_of [2; 3] []) 4);
    intros; reflexivity.
Defined.

(** Five pushes: size 5, capacity 8. *)
Lemma push_back_doubles_witness :
  exists v, push_all int_ops roomy [1; 2; 3; 4; 5] Vector_default = Normal v
            /\ size_ v = 5
            /\ Capacity v = 8
            /\ elements v = [1; 2; 3; 4; 5].
Proof.
  destruct (push_back_doubles int_ops roomy [1; 2; 3; 4; 5]) as (Hany & Hret & _).
  - discriminate.
  - destruct Hret as [v Hv].
    + intros; reflexivity.
    + intros c Hc. unfold grants, heap_grants, roomy, size_t_mul, sizeof_T.
      cbn [sizeof int_ops]. rewrite andb_true_r. apply N.leb_le.
      change (2 ^ N.log2_up (N.of_nat (length [1; 2; 3; 4; 5]))) with 8 in Hc.
      rewrite N.mod_small; unfold SIZE_MOD, PTRDIFF_MAX; lia.
    + exists v. split; [exact Hv|]. exact (Hany v Hv).
Defined.

(** Copy assignment at the target [1; 2; 3]: of itself; of sources of four
    elements, which need a new block (3 < 4), when every copy succeeds, when
    copying 7 throws and when the heap is exhausted; and of the source [9; 8]
    into the storage the target has, with one free slot. *)
Lemma copy_assignment_guarantees_witness :
  copy_assign fragile_ops roomy (Same (vector_of [1; 2; 3] []))
  = Normal (vector_of [1; 2; 3] [])
  /\ copy_assign fragile_ops roomy
       (Distinct (vector_of [1; 2; 3] []) (vector_of [4; 5; 6; 8] []))
     = Normal (vector_of [4; 5; 6; 8] [])
  /\ copy_assign fragile_ops roomy
       (Distinct (vector_of [1; 2; 3] []) (vector_of [4; 7; 6; 8] []))
     = Throws element_error (vector_of [1; 2; 3] [])
  /\ copy_assign fragile_ops exhausted
       (Distinct (vector_of [1; 2; 3] []) (vector_of [4; 5; 6; 8] []))
     = Throws bad_alloc (vector_of [1; 2; 3] [])
  /\ copy_assign fragile_ops roomy
       (Distinct (vector_of [1; 2; 3] [None]) (vector_of [9; 8] []))
     = Normal (vector_of [9; 8] [None; None]).
Proof.
  destruct (proj1 copy_assignment_guarantees N fragile_ops roomy
              (vector_of [1; 2; 3] []) (vector_of [4; 5; 6; 8] []) eq_refl eq_refl)
    as (Hself & Hnew & _).
  destruct (proj1 copy_assignment_guarantees N fragile_ops roomy
              (vector_of [1; 2; 3] []) (vector_of [4; 7; 6; 8] []) eq_refl eq_refl)
    as (_ & Hthrow & _).
  destruct (proj1 copy_assignment_guarantees N fragile_ops exhausted
              (vector_of [1; 2; 3] []) (vector_of [4; 5; 6; 8] []) eq_refl eq_refl)
    as (_ & Hbad & _).
  destruct (proj1 copy_assignment_guarantees N fragile_ops roomy
              (vector_of [1; 2; 3] [None]) (vector_of [9; 8] []) eq_refl eq_refl)
    as (_ & _ & Hreuse & _).
  split; [exact Hself|].
  split; [exact (Hnew eq_refl)|].
  split; [exact (Hthrow eq_refl)|].
  split; [exact (Hbad eq_refl)|].
  apply Hreuse. vm_compute. discriminate.
Defined.

(** Insert then Erase at [1; 2; 3] with one free slot, inserting 99 at
    offset 1. *)
Lemma insert_then_erase_witness :
  exists v1 v2, Insert int_ops roomy 1 99 (vector_of [1; 2; 3] [None]) = Normal (v1, 1)
                /\ Erase int_ops 1 v1 = Normal (v2, 1)
                /\ elements v2 = [1; 2; 3]
                /\ size_ v2 = 3.
Proof.
  destruct (insert_then_erase int_ops roomy (vector_of [1; 2; 3] [None]) 1)
    as (_ & Hany & Hret).
  - reflexivity.
  - vm_compute. discriminate.
  - destruct (Hret ltac:(intros; reflexivity) ltac:(intros; reflexivity)
                   ltac:(intros; reflexivity) ltac:(intros; reflexivity)
                   (Args (Some 99)) 99 eq_refl) as (v1 & v2 & He & Hr).
    exists v1, v2. split; [exact He|]. split; [exact Hr|].
    exact (Hany 99 v1 v2 1 1 He Hr).
Defined.

(** Insert at [10; 20; 30] of a reference to the last element, at offset 1. *)
Lemma self_referential_insert_witness :
  exists v', Insert_element int_ops roomy 1 2 (vector_of [10; 20; 30] [None])
             = Normal (v', 1)
             /\ elements v' = [10; 30; 20; 30].
Proof.
  destruct (proj1 self_referential_insert N int_ops roomy
              (vector_of [10; 20; 30] [None]) 1 2 30) as (Hany & Hret).
  - reflexivity.
  - vm_compute. discriminate.
  - reflexivity.
  - destruct Hret as [v' Hv']; try (intros; reflexivity).
    exists v'. split; [exact Hv'|].
    destruct (Hany v' 1 Hv') as (_ & _ & He). exact He.
Defined.

(** Reserve at [1; 2; 3] with capacity 4, reserving 10 and reserving 2; and
    Reserve(2^62 + 1) at [1; 2] for a four-byte element, where the product
    wraps to four bytes and the block obtained has one slot. *)
Lemma Reserve_capacity_witness :
  (exists v', Reserve int_ops roomy 10 (vector_of [1; 2; 3] [None]) = Normal v'
              /\ Capacity v' = 10
              /\ size_ v' = 3
              /\ elements v' = [1; 2; 3]
              /\ well_formed int_ops v' = true)
  /\ Reserve int_ops roomy 2 (vector_of [1; 2; 3] [None])
     = Normal (vector_of [1; 2; 3] [None])
  /\ Reserve int_ops roomy (2 ^ 62 + 1) (vector_of [1; 2] []) = Undefined.
Proof.
  destruct (Reserve_capacity int_ops roomy (vector_of [1; 2; 3] [None]) 10 eq_refl)
    as (_ & Hany & Hret & _).
  destruct (Reserve_capacity int_ops roomy (vector_of [1; 2; 3] [None]) 2 eq_refl)
    as (Hkeep & _).
  destruct (Reserve_capacity int_ops roomy (vector_of [1; 2] []) (2 ^ 62 + 1) eq_refl)
    as (_ & _ & _ & Hwrap).
  split.
  - destruct Hret as [v' Hv'];
      [reflexivity|reflexivity|reflexivity|intros; reflexivity|].
    destruct (Hany eq_refl v' Hv') as (Hc & Hs & He & _ & Hwf).
    exists v'. split; [exact Hv'|]. split; [exact Hc|]. split; [exact Hs|].
    split; [exact He|]. apply Hwf. reflexivity.
  - split.
    + apply Hkeep. vm_compute. discriminate.
    + apply Hwrap; [reflexivity|reflexivity|reflexivity|intros; reflexivity|].
      vm_compute. lia.
Defined.

(** The invariant after Resize, Emplace and Erase at [1; 2; 3] with one free
    slot, for an element type that throws; and after Reserve(2^63) at the
    empty vector for a four-byte element, where the product wraps to zero
    bytes and the call returns. *)
Lemma size_le_capacity_invariant_witness :
  leaves (fun v => v) (sound fragile_ops)
    (Resize fragile_ops roomy 7 (vector_of [1; 2; 3] [None]))
  /\ leaves fst (sound fragile_ops)
       (Emplace fragile_ops roomy 1 (CopyOfElement 2) (vector_of [1; 2; 3] [None]))
  /\ leaves fst (sound fragile_ops) (Erase fragile_ops 0 (vector_of [1; 2; 3] [None]))
  /\ Reserve int_ops roomy (2 ^ 63) Vector_default = Normal (block_vector [] [] (2 ^ 63))
  /\ whenever (fun v => v)
       (fun v => observable int_ops v /\ 0 <= size_ v /\ size_ v <= Capacity v)
       (Reserve int_ops roomy (2 ^ 63) Vector_default).
Proof.
  destruct (size_le_capacity_invariant fragile_ops roomy)
    as (_ & _ & _ & _ & _ & _ & _ & _ & _ & _ & _
        & _ & _ & _ & _ & Hresize & _ & _ & Hemplace & _ & Herase).
  destruct (size_le_capacity_invariant int_ops roomy)
    as (Hsize & _ & Hdefault & _ & _ & _ & Hreserve & _).
  split; [apply Hresize; reflexivity|].
  split; [apply Hemplace; [reflexivity|vm_compute; discriminate|reflexivity]|].
  split; [apply Herase; reflexivity|].
  split; [vm_compute; reflexivity|].
  destruct (Hreserve Vector_default (2 ^ 63) Hdefault) as (Hr & _).
  destruct (Reserve int_ops roomy (2 ^ 63) Vector_default) as [v'|e v'|];
    [split; [exact Hr|exact (Hsize v' Hr)]
    |split; [exact Hr|exact (Hsize v' Hr)]
    |exact I].
Defined.

(** PopBack at [1; 2; 3] with one free slot, and at the empty vector. *)
Lemma PopBack_last_witness :
  PopBack (@Vector_default N) = Normal Vector_default
  /\ exists v', PopBack (vector_of [1; 2; 3] [None]) = Normal v'
                /\ buffer_ (data_ v') = [Some 1; Some 2; None; None]
                /\ size_ v' = 2
                /\ Capacity v' = 4
                /\ elements v' = [1; 2].
Proof.
  split.
  - apply (proj1 (PopBack_last int_ops Vector_default)). reflexivity.
  - destruct (proj2 (PopBack_last int_ops (vector_of [1; 2; 3] [None])) eq_refl eq_refl)
      as (v' & Hp & _ & Hb & Hs & Hc & He).
    exists v'. split; [exact Hp|]. split; [exact Hb|]. split; [exact Hs|].
    split; [exact Hc|exact He].
Defined.

(** The shrinking operations at [1; 2; 3] with one free slot. *)
Lemma shrinking_keeps_capacity_witness :
  (exists v', Resize int_ops roomy 1 (vector_of [1; 2; 3] [None]) = Normal v'
              /\ size_ v' = 1
              /\ elements v' = [1]
              /\ Capacity v' = 4)
  /\ (exists v', PopBack (vector_of [1; 2; 3] [None]) = Normal v' /\ Capacity v' = 4)
  /\ leaves fst (fun v' => Capacity v' = 4) (Erase int_ops 1 (vector_of [1; 2; 3] [None])).
Proof.
  destruct (shrinking_keeps_capacity int_ops roomy (vector_of [1; 2; 3] [None]) 1 1 eq_refl)
    as (Hresize & Hpop & Herase).
  split; [apply Hresize; vm_compute; discriminate|].
  split; [exact Hpop|]. apply Herase. reflexivity.
Defined.

(** ** Instances of the further properties *)

(** operator[] at [10; 20; 30] with one free slot: index 1 and index 3. *)
Lemma Vector_index_elements_witness :
  Vector_index (vector_of [10; 20; 30] [None]) 1 = Some 20
  /\ Vector_index (vector_of [10; 20; 30] [None]) 3 = None.
Proof.
  destruct (Vector_index_elements int_ops (vector_of [10; 20; 30] [None]) 1 eq_refl) as (H1 & _).
  destruct (Vector_index_elements int_ops (vector_of [10; 20; 30] [None]) 3 eq_refl) as (_ & _ & H3).
  split; [exact H1|]. apply H3. vm_compute. discriminate.
Defined.

(** Vector(3) for an int-like type, for a type whose T() throws, and on an
    exhausted heap; Vector(0) on an exhausted heap; and Vector(2^62 + 1) for
    a four-byte element, where the product wraps to four bytes. *)
Lemma Vector_sized_outcome_witness :
  (exists v, Vector_sized int_ops roomy 3 = Normal v
             /\ size_ v = 3 /\ Capacity v = 3 /\ Vector_index v 2 = Some 0)
  /\ Vector_sized no_default_ops roomy 3 = Throws element_error tt
  /\ Vector_sized int_ops exhausted 3 = Throws bad_alloc tt
  /\ Vector_sized int_ops exhausted 0 = Normal Vector_default
  /\ Vector_sized int_ops roomy (2 ^ 62 + 1) = Undefined.
Proof.
  destruct (Vector_sized_outcome int_ops roomy 3) as (Hany & _ & _ & _ & Hret & _).
  destruct (Vector_sized_outcome no_default_ops roomy 3) as (_ & _ & _ & Hthrow & _).
  destruct (Vector_sized_outcome int_ops exhausted 3) as (_ & H0 & Hbad & _ & _).
  destruct (Vector_sized_outcome int_ops roomy (2 ^ 62 + 1))
    as (_ & _ & _ & _ & _ & Hwrap).
  destruct (Hret eq_refl eq_refl (ex_intro _ 0 eq_refl)) as [v Hv].
  destruct (Hany v Hv) as (_ & _ & Hs & Hc & Hi).
  split.
  { exists v. split; [exact Hv|]. split; [exact Hs|]. split; [exact Hc|].
    exact (Hi 2 eq_refl). }
  split; [apply Hthrow; [discriminate|reflexivity|reflexivity|vm_compute; lia|reflexivity]|].
  split; [apply Hbad; [discriminate|reflexivity|reflexivity]|].
  split; [exact H0|].
  apply Hwrap; [reflexivity|reflexivity|reflexivity|].
  exists 0. reflexivity.
Defined.

(** Copies of [1; 2; 3] with two free slots, and of [1; 7; 3] when copying 7
    throws. *)
Lemma Vector_copy_outcome_witness :
  (exists v, Vector_copy int_ops roomy (vector_of [1; 2; 3] [None; None]) = Normal v
             /\ elements v = [1; 2; 3] /\ size_ v = 3 /\ Capacity v = 3)
  /\ Vector_copy fragile_ops roomy (vector_of [1; 7; 3] []) = Throws element_error tt
  /\ Vector_copy int_ops exhausted (vector_of [1; 2; 3] [None; None])
     = Throws bad_alloc tt.
Proof.
  destruct (Vector_copy_outcome int_ops roomy (vector_of [1; 2; 3] [None; None]) eq_refl)
    as (Hany & _ & _ & Hret).
  destruct (Vector_copy_outcome fragile_ops roomy (vector_of [1; 7; 3] []) eq_refl)
    as (_ & _ & Hthrow & _).
  destruct (Vector_copy_outcome int_ops exhausted (vector_of [1; 2; 3] [None; None]) eq_refl)
    as (_ & Hbad & _ & _).
  destruct Hret as [v Hv]; [right; reflexivity|intros; reflexivity|].
  destruct (Hany v Hv) as (_ & He & Hs & Hc).
  split.
  { exists v. split; [exact Hv|]. split; [exact He|]. split; [exact Hs|exact Hc]. }
  split; [apply (Hthrow (or_intror eq_refl) 1%nat); reflexivity|].
  apply Hbad; [vm_compute; discriminate|reflexivity].
Defined.

(** RawMemory(3) on a heap with room and on an exhausted heap; RawMemory(0)
    on an exhausted heap; and RawMemory(2^63) for a four-byte element, where
    the product wraps to zero bytes: the object records the capacity 2^63
    over a block without a slot. *)
Lemma RawMemory_allocation_witness :
  (exists m, RawMemory_new int_ops roomy 3 = Normal m
             /\ raw_ok m = true /\ RawMemory_Capacity m = 3
             /\ live (buffer_ m) 1 = None)
  /\ RawMemory_new int_ops exhausted 3 = Throws bad_alloc tt
  /\ RawMemory_new int_ops exhausted 0 = Normal RawMemory_default
  /\ (exists m, RawMemory_new int_ops roomy (2 ^ 63) = Normal m
                /\ RawMemory_Capacity m = 2 ^ 63
                /\ length (buffer_ m) = 0%nat).
Proof.
  destruct (RawMemory_allocation int_ops roomy 3) as (Hany & _ & _ & Hret & _).
  destruct (RawMemory_allocation int_ops exhausted 3) as (_ & H0 & Hbad & _).
  destruct (RawMemory_allocation int_ops roomy (2 ^ 63)) as (Hany' & _ & _ & Hret' & _).
  destruct (Hret eq_refl eq_refl) as [m Hm].
  destruct (Hany m Hm) as (Hc & _ & Hl & Hok & _).
  destruct (Hret' eq_refl eq_refl) as [m' Hm'].
  destruct (Hany' m' Hm') as (Hc' & Hlen & _).
  split.
  { exists m. split; [exact Hm|]. split; [exact (proj1 (Hok eq_refl))|].
    split; [exact Hc|exact (Hl 1%nat)]. }
  split; [apply Hbad; [discriminate|reflexivity|reflexivity]|].
  split; [exact H0|].
  exists m'. split; [exact Hm'|]. split; [exact Hc'|exact Hlen].
Defined.

(** Iteration over [10; 20; 30] with one free slot. *)
Lemma Vector_iteration_witness :
  (Vector_end (vector_of [10; 20; 30] [None])
   - Vector_begin (vector_of [10; 20; 30] [None]))%nat = 3%nat
  /\ dereference (vector_of [10; 20; 30] [None])
       <$> seq (Vector_begin (vector_of [10; 20; 30] [None]))
               (Vector_end (vector_of [10; 20; 30] [None])
                - Vector_begin (vector_of [10; 20; 30] [None]))
     = [Some 10; Some 20; Some 30].
Proof.
  destruct (Vector_iteration int_ops (vector_of [10; 20; 30] [None]) eq_refl) as (Hd & _ & _ & Hi).
  split; [exact Hd|exact Hi].
Defined.

(** Reserve(10) at a full [1; 7; 3] when copying 7 throws. *)
Lemma Reserve_strong_guarantee_witness :
  exists v', Reserve fragile_ops roomy 10 (vector_of [1; 7; 3] [])
             = Throws element_error v'
             /\ v' = vector_of [1; 7; 3] [].
Proof.
  exists (vector_of [1; 7; 3] []). split; [reflexivity|].
  apply (Reserve_strong_guarantee fragile_ops roomy (vector_of [1; 7; 3] [])
           (vector_of [1; 7; 3] []) 10 element_error); reflexivity.
Defined.

(** Reserve(10) at a full [1; 2; 7; 4] of a move-only type whose move
    constructor throws on 7. *)
Lemma Reserve_move_only_failure_witness :
  exists v', Reserve move_only_ops roomy 10 (vector_of [1; 2; 7; 4] [])
             = Throws element_error v'
             /\ elements v' = [0; 0; 7; 4]
             /\ size_ v' = 4
             /\ Capacity v' = 4.
Proof.
  destruct (Reserve_move_only_failure move_only_ops roomy (vector_of [1; 2; 7; 4] []) 10 2)
    as (v' & Hr & He & Hs & Hc & _);
    [reflexivity|reflexivity|reflexivity|reflexivity|reflexivity|reflexivity
    |vm_compute; lia|reflexivity|].
  exists v'. split; [exact Hr|]. split; [exact He|]. split; [exact Hs|exact Hc].
Defined.

(** Resize(5) at [1; 2] with one free slot. *)
Lemma Resize_grows_witness :
  exists v', Resize int_ops roomy 5 (vector_of [1; 2] [None]) = Normal v'
             /\ elements v' = [1; 2; 0; 0; 0]
             /\ size_ v' = 5
             /\ Capacity v' = 5.
Proof.
  exists (vector_of [1; 2; 0; 0; 0] []). split; [reflexivity|].
  destruct (Resize_grows int_ops roomy (vector_of [1; 2] [None])
              (vector_of [1; 2; 0; 0; 0] []) 5 eq_refl eq_refl eq_refl)
    as (d & Hd & He & Hs & Hc & _).
  injection Hd as <-.
  split; [exact He|]. split; [exact Hs|exact Hc].
Defined.

(** Resize(5) at a full [1; 2] of a type whose T() throws: the block has
    been replaced when the exception leaves. *)
Lemma Resize_exception_state_witness :
  exists v', Resize no_default_ops roomy 5 (vector_of [1; 2] []) = Throws element_error v'
             /\ elements v' = [1; 2]
             /\ size_ v' = 2
             /\ (v' = vector_of [1; 2] []
                 \/ (value_init no_default_ops = None
                     /\ Capacity (vector_of [1; 2] []) < 5
                     /\ Capacity v' = 5)).
Proof.
  exists (vector_of [1; 2] [None; None; None]). split; [reflexivity|].
  destruct (Resize_exception_state no_default_ops roomy (vector_of [1; 2] [])
              (vector_of [1; 2] [None; None; None]) 5 element_error
              eq_refl eq_refl eq_refl)
    as (_ & He & Hs & Hc).
  split; [exact He|]. split; [exact Hs|exact Hc].
Defined.

(** EmplaceBack(9) at a full [1; 7; 3] when copying 7 throws. *)
Lemma EmplaceBack_exception_state_witness :
  exists v', EmplaceBack fragile_ops roomy (Args (Some 9)) (vector_of [1; 7; 3] [])
             = Throws element_error v'
             /\ v' = vector_of [1; 7; 3] [].
Proof.
  exists (vector_of [1; 7; 3] []). split; [reflexivity|].
  apply (EmplaceBack_exception_state fragile_ops roomy (vector_of [1; 7; 3] [])
           (vector_of [1; 7; 3] []) (Args (Some 9)) element_error);
    [reflexivity|right; reflexivity|reflexivity].
Defined.

(** Emplace(begin() + 1, 9) at a full [1; 7; 3] when copying 7 throws. *)
Lemma Emplace_exception_state_witness :
  exists v', Emplace fragile_ops roomy 1 (Args (Some 9)) (vector_of [1; 7; 3] [])
             = Throws element_error v'
             /\ size_ v' = 3
             /\ Capacity v' = 3
             /\ v' = vector_of [1; 7; 3] [].
Proof.
  exists (vector_of [1; 7; 3] []). split; [reflexivity|].
  destruct (Emplace_exception_state fragile_ops roomy (vector_of [1; 7; 3] [])
              (vector_of [1; 7; 3] []) 1 (Args (Some 9)) element_error eq_refl)
    as (Hs & Hc & _ & Hsame); [vm_compute; discriminate|reflexivity|reflexivity|].
  split; [exact Hs|]. split; [exact Hc|]. apply Hsame. left. reflexivity.
Defined.

(** Erase(begin()) at [1; 2; 7; 4] when move assigning 7 throws. *)
Lemma Erase_exception_state_witness :
  exists v', Erase move_only_ops 0 (vector_of [1; 2; 7; 4] []) = Throws element_error v'
             /\ size_ v' = 4
             /\ Capacity v' = 4
             /\ well_formed move_only_ops v' = true.
Proof.
  exists (vector_of [2; 0; 7; 4] []). split; [reflexivity|].
  destruct (Erase_exception_state move_only_ops (vector_of [1; 2; 7; 4] [])
              (vector_of [2; 0; 7; 4] []) 0 element_error eq_refl eq_refl eq_refl)
    as (_ & _ & Hs & Hc & _ & Hw).
  split; [exact Hs|]. split; [exact Hc|exact Hw].
Defined.

(** EmplaceBack(9) at a full [1; 2]. *)
Lemma EmplaceBack_reference_witness :
  exists v' r, EmplaceBack int_ops roomy (Args (Some 9)) (vector_of [1; 2] [])
               = Normal (v', r)
               /\ r = 2
               /\ size_ v' = 3
               /\ Vector_index v' r = Some 9
               /\ Vector_index v' 0 = Some 1.
Proof.
  exists (vector_of [1; 2; 9] [None]), 2. split; [reflexivity|].
  destruct (EmplaceBack_reference int_ops roomy (vector_of [1; 2] [])
              (vector_of [1; 2; 9] [None]) (Args (Some 9)) 2 eq_refl eq_refl)
    as (Hr & Hs & (x & Hx & Hi) & Hold & _).
  injection Hx as <-.
  split; [exact Hr|]. split; [exact Hs|]. split; [exact Hi|]. exact (Hold 0 eq_refl).
Defined.

(** Emplace(begin() + 1, 99) at [10; 20; 30] with one free slot. *)
Lemma Emplace_iterator_witness :
  exists v', Emplace int_ops roomy 1 (Args (Some 99)) (vector_of [10; 20; 30] [None])
             = Normal (v', 1)
             /\ (Vector_begin v' + 1 < Vector_end v')%nat
             /\ dereference v' (Vector_begin v' + 1) = Some 99
             /\ Vector_index v' 0 = Some 10
             /\ Vector_index v' 3 = Some 30.
Proof.
  exists (vector_of [10; 99; 20; 30] []). split; [reflexivity|].
  assert (Hpos : 1 <= size_ (vector_of [10; 20; 30] [None])) by (vm_compute; discriminate).
  assert (Hle : 1 <= 2) by (vm_compute; discriminate).
  destruct (Emplace_iterator int_ops roomy (vector_of [10; 20; 30] [None])
              (vector_of [10; 99; 20; 30] []) 1 1 (Args (Some 99)) eq_refl Hpos eq_refl)
    as (Hin & (x & Hx & Hd) & Hbefore & Hafter).
  injection Hx as <-.
  split; [exact Hin|]. split; [exact Hd|].
  split; [exact (Hbefore 0 eq_refl)|exact (Hafter 2 Hle eq_refl)].
Defined.

(** PushBack(9) then PopBack at a full [1; 2]. *)
Lemma PushBack_PopBack_witness :
  exists v1 v2, PushBack int_ops roomy (Args (Some 9)) (vector_of [1; 2] []) = Normal v1
                /\ PopBack v1 = Normal v2
                /\ elements v2 = [1; 2]
                /\ size_ v2 = 2
                /\ Capacity v2 = 4.
Proof.
  destruct (PushBack_PopBack int_ops roomy (vector_of [1; 2] []) (vector_of [1; 2; 9] [None]) 9
              eq_refl eq_refl)
    as (v2 & Hp & He & Hs & Hc & _).
  exists (vector_of [1; 2; 9] [None]), v2.
  split; [reflexivity|]. split; [exact Hp|]. split; [exact He|]. split; [exact Hs|exact Hc].
Defined.

(** Reserve(4) at a full [1], then three pushes. *)
Lemma Reserve_then_push_witness :
  exists v1 v2, Reserve int_ops roomy 4 (vector_of [1] []) = Normal v1
                /\ push_all int_ops roomy [2; 3; 4] v1 = Normal v2
                /\ elements v2 = [1; 2; 3; 4]
                /\ Capacity v2 = 4.
Proof.
  assert (Hroom : size_ (vector_of [1] []) + N.of_nat (length [2; 3; 4]) <= 4)
    by (vm_compute; discriminate).
  destruct (Reserve_then_push int_ops roomy (vector_of [1] [])
              (vector_of [1] [None; None; None]) 4 [2; 3; 4] eq_refl eq_refl eq_refl Hroom)
    as (v2 & Hp & He & Hc & _).
  exists (vector_of [1] [None; None; None]), v2.
  split; [reflexivity|]. split; [exact Hp|]. split; [exact He|exact Hc].
Defined.

(** Emplace at end() and EmplaceBack of a copy of the first element of a
    full [1; 7; 3]. *)
Lemma Emplace_at_end_witness :
  Emplace fragile_ops roomy 3 (CopyOfElement 0) (vector_of [1; 7; 3] [])
  = EmplaceBack fragile_ops roomy (CopyOfElement 0) (vector_of [1; 7; 3] []).
Proof.
  exact (Emplace_at_end fragile_ops roomy (vector_of [1; 7; 3] []) (CopyOfElement 0) eq_refl).
Defined.

(** Erase of the last element of [1; 2; 3]. *)
Lemma Erase_last_witness :
  exists v', PopBack (vector_of [1; 2; 3] []) = Normal v'
             /\ Erase int_ops 2 (vector_of [1; 2; 3] []) = Normal (v', 2).
Proof.
  destruct (Erase_last int_ops (vector_of [1; 2; 3] []) eq_refl eq_refl) as (v' & Hp & He & _).
  exists v'. split; [exact Hp|exact He].
Defined.

(** Emplace and Insert at offset 1 of [1; 7; 3] with one free slot, when the
    constructor of the new element throws. *)
Lemma Emplace_constructor_throws_witness :
  (exists e', Emplace fragile_ops roomy 1 (CopyOfElement 1) (vector_of [1; 7; 3] [None])
              = Throws e' (vector_of [1; 7; 3] [None]))
  /\ (exists e', Insert fragile_ops roomy 1 7 (vector_of [1; 7; 3] [None])
                 = Throws e' (vector_of [1; 7; 3] [None]))
  /\ (exists e', Insert_rvalue move_only_ops roomy 1 7 (vector_of [1; 7; 3] [None])
                 = Throws e' (vector_of [1; 7; 3] [None])).
Proof.
  assert (Hpos : 1 <= size_ (vector_of [1; 7; 3] [None])) by (vm_compute; discriminate).
  destruct (Emplace_constructor_throws fragile_ops roomy (vector_of [1; 7; 3] [None]) 1
              eq_refl Hpos) as (He & Hi & _).
  destruct (Emplace_constructor_throws move_only_ops roomy (vector_of [1; 7; 3] [None]) 1
              eq_refl Hpos) as (_ & _ & Hr).
  split.
  { destruct (He (CopyOfElement 1) element_error eq_refl) as (e' & H & _). by exists e'. }
  split; [exact (Hi 7 eq_refl)|exact (Hr 7 eq_refl)].
Defined.

(** Insert(begin() + 1, 99) at [10; 20; 30] with one free slot. *)
Lemma Insert_returns_witness :
  exists v', Insert int_ops roomy 1 99 (vector_of [10; 20; 30] [None]) = Normal (v', 1)
             /\ elements v' = [10; 99; 20; 30]
             /\ size_ v' = 4
             /\ Vector_index v' 1 = Some 99.
Proof.
  exists (vector_of [10; 99; 20; 30] []). split; [reflexivity|].
  assert (Hpos : 1 <= size_ (vector_of [10; 20; 30] [None])) by (vm_compute; discriminate).
  destruct (Insert_returns int_ops roomy (vector_of [10; 20; 30] [None])
              (vector_of [10; 99; 20; 30] []) 1 1 99 eq_refl Hpos (or_introl eq_refl))
    as (_ & He & Hs & Hi & _).
  split; [exact He|]. split; [exact Hs|exact Hi].
Defined.

(** Reserve(10) and EmplaceBack(9) at a full [1; 7; 3] when copying 7
    throws, Erase(begin()) at the same vector, and Reserve(2^63) at it for a
    four-byte element, where the product wraps. *)
Lemma capacity_never_shrinks_witness :
  leaves (fun v' => v') (fun v' => Capacity (vector_of [1; 7; 3] []) <= Capacity v')
    (Reserve fragile_ops roomy 10 (vector_of [1; 7; 3] []))
  /\ leaves fst (fun v' => Capacity (vector_of [1; 7; 3] []) <= Capacity v')
       (EmplaceBack fragile_ops roomy (Args (Some 9)) (vector_of [1; 7; 3] []))
  /\ leaves fst (fun v' => Capacity (vector_of [1; 7; 3] []) <= Capacity v')
       (Erase fragile_ops 0 (vector_of [1; 7; 3] []))
  /\ whenever (fun v' => v') (fun v' => Capacity (vector_of [1; 7; 3] []) <= Capacity v')
       (Reserve fragile_ops roomy (2 ^ 63) (vector_of [1; 7; 3] [])).
Proof.
  destruct (capacity_never_shrinks fragile_ops roomy (vector_of [1; 7; 3] []) eq_refl)
    as (Hw & _ & Hr & _ & He & _ & Hx & _).
  split; [exact (proj1 (Hr 10 eq_refl))|].
  split; [exact (He (Args (Some 9)) eq_refl)|].
  split; [exact (Hx 0 eq_refl)|exact (Hw (2 ^ 63))].
Defined.

(** A full [1; 2; 3] on an exhausted heap. *)
Lemma allocation_failure_witness :
  Reserve int_ops exhausted 10 (vector_of [1; 2; 3] []) = Throws bad_alloc (vector_of [1; 2; 3] [])
  /\ Resize int_ops exhausted 10 (vector_of [1; 2; 3] [])
     = Throws bad_alloc (vector_of [1; 2; 3] [])
  /\ EmplaceBack int_ops exhausted (CopyOfElement 1) (vector_of [1; 2; 3] [])
     = Throws bad_alloc (vector_of [1; 2; 3] [])
  /\ Emplace int_ops exhausted 1 (Args (Some 9)) (vector_of [1; 2; 3] [])
     = Throws bad_alloc (vector_of [1; 2; 3] [])
  /\ copy_assign int_ops exhausted
       (Distinct (vector_of [1; 2; 3] []) (vector_of [4; 5; 6; 7] []))
     = Throws bad_alloc (vector_of [1; 2; 3] []).
Proof.
  assert (Hpos : 1 <= size_ (vector_of [1; 2; 3] [])) by (vm_compute; discriminate).
  destruct (allocation_failure int_ops exhausted (vector_of [1; 2; 3] []) eq_refl)
    as (Hr & Hb & He & Hc).
  destruct (Hr 10 eq_refl eq_refl eq_refl) as [H1 H2].
  split; [exact H1|]. split; [exact H2|].
  split; [exact (Hb (CopyOfElement 1) eq_refl eq_refl eq_refl)|].
  split; [exact (He 1 (Args (Some 9)) Hpos eq_refl eq_refl eq_refl)|].
  exact (Hc (vector_of [4; 5; 6; 7] []) eq_refl eq_refl eq_refl).
Defined.

(** Reserve(10) then Reserve(7) at [1; 2; 3] with one free slot. *)
Lemma Reserve_Reserve_witness :
  exists v1, Reserve int_ops roomy 10 (vector_of [1; 2; 3] [None]) = Normal v1
             /\ Reserve int_ops roomy 7 v1 = Normal v1.
Proof.
  exists (vector_of [1; 2; 3] (replicate 7 None)). split; [reflexivity|].
  apply (Reserve_Reserve int_ops roomy (vector_of [1; 2; 3] [None])
           (vector_of [1; 2; 3] (replicate 7 None)) 10 7);
    [reflexivity|reflexivity|vm_compute; discriminate].
Defined.

(** Emplace(begin(), 9) at [1; 7; 3] with one free slot when move assigning
    7 throws: the object move constructed from 3 at end() stays behind. *)
Lemma Emplace_throw_past_end_witness :
  exists v', Emplace move_only_ops roomy 0 (Args (Some 9)) (vector_of [1; 7; 3] [None])
             = Throws element_error v'
             /\ size_ v' = 3
             /\ live (buffer_ (data_ v')) (N.to_nat (size_ v')) = Some 3.
Proof.
  exists (vector_of [1; 7; 0] [Some 3]). split; [reflexivity|].
  destruct (Emplace_throw_past_end move_only_ops roomy (vector_of [1; 7; 3] [None])
              (vector_of [1; 7; 0] [Some 3]) 0 (Args (Some 9)) element_error 9 3
              eq_refl eq_refl eq_refl eq_refl eq_refl eq_refl eq_refl)
    as (Hs & Hl).
  split; [exact Hs|exact Hl].
Defined.

(** EmplaceBack(9) at a full [1; 2; 7; 4] of a move-only type whose move
    constructor throws on 7. *)
Lemma EmplaceBack_move_only_failure_witness :
  exists v', EmplaceBack move_only_ops roomy (Args (Some 9)) (vector_of [1; 2; 7; 4] [])
             = Throws element_error v'
             /\ elements v' = [0; 0; 7; 4]
             /\ size_ v' = 4
             /\ Capacity v' = 4.
Proof.
  destruct (EmplaceBack_move_only_failure move_only_ops roomy (vector_of [1; 2; 7; 4] []) 9 2
              eq_refl eq_refl eq_refl eq_refl eq_refl eq_refl)
    as (v' & Hr & He & Hs & Hc & _).
  exists v'. split; [exact Hr|]. split; [exact He|]. split; [exact Hs|exact Hc].
Defined.
